(** * Earthfile manager: extraction of image dependencies

    A shallow embedding of [lib/modules/manager/earthfile] (the extraction
    pipeline of [extractPackageFile]) and the verification of its
    specification.

    JavaScript strings are modelled as [string]; every [ascii] stands for
    one UTF-16 code unit below 256, so the development covers Latin-1
    texts.  JavaScript objects used as dictionaries are association lists
    in insertion order (the order [Object.entries] enumerates them in).
    A thrown [TypeError] is a value of the [result] type. *)

From Stdlib Require Import String Ascii List Bool Arith Lia.
Import ListNotations.
Open Scope list_scope.
Open Scope nat_scope.
Open Scope string_scope.

(** ** Characters *)

Definition LF : ascii := "010"%char.
Definition CR : ascii := "013"%char.
Definition TAB : ascii := "009"%char.
Definition DQUOTE : ascii := "034"%char.
Definition NL : string := String LF "".
Definition CRLF : string := String CR (String LF "").

Definition code (c : ascii) : nat := nat_of_ascii c.

Definition inRange (lo hi c : ascii) : bool :=
  ((code lo <=? code c) && (code c <=? code hi))%nat.

(** WhiteSpace and LineTerminator code units below 256: TAB, LF, VT, FF,
    CR, SP and NBSP. This is what [\s], [trimStart] and
    [is.emptyStringOrWhitespace] regard as blank. *)
Definition isSpace (c : ascii) : bool :=
  let n := code c in
  ((n =? 9) || (n =? 10) || (n =? 11) || (n =? 12) || (n =? 13)
   || (n =? 32) || (n =? 160))%nat.

(** LineTerminator code units below 256: what [.] refuses and what the
    [m] flag lets [^] and [$] see. *)
Definition isLineTerminator (c : ascii) : bool :=
  ((code c =? 10) || (code c =? 13))%nat.

(** [\w] *)
Definition isWord (c : ascii) : bool :=
  inRange "a" "z" c || inRange "A" "Z" c || inRange "0" "9" c
  || Ascii.eqb c "_".

(** Canonicalize of the [i] flag. The patterns of this module contain
    ASCII letters only, and no code unit from 128 to 255 canonicalizes to
    an ASCII one, so folding a-z is all the flag does here. *)
Definition canonicalize (c : ascii) : ascii :=
  if inRange "a" "z" c then ascii_of_nat (code c - 32) else c.

(** ** String primitives of the JavaScript runtime *)

Module Js.

(** [s.startsWith(p)] *)
Fixpoint startsWith (s p : string) {struct p} : bool :=
  match p with
  | "" => true
  | String c p' =>
      match s with
      | String d s' => Ascii.eqb d c && startsWith s' p'
      | "" => false
      end
  end.

(** [s.includes(sub)] *)
Fixpoint includes (s sub : string) : bool :=
  startsWith s sub ||
  match s with
  | "" => false
  | String _ t => includes t sub
  end.

(** [s.indexOf(sub)], [None] standing for -1. *)
Fixpoint indexOf (s sub : string) : option nat :=
  if startsWith s sub then Some 0
  else match s with
       | "" => None
       | String _ t => option_map S (indexOf t sub)
       end.

(** [s.slice(0, n)] and [s.slice(n)] for [n] within the string. *)
Fixpoint take (n : nat) (s : string) : string :=
  match n, s with
  | S n', String c t => String c (take n' t)
  | _, _ => ""
  end.

Fixpoint drop (n : nat) (s : string) : string :=
  match n, s with
  | S n', String _ t => drop n' t
  | _, _ => s
  end.

(** [s.split(sep)] for a one-character separator: never an empty array. *)
Fixpoint split (sep : ascii) (s : string) : list string :=
  match s with
  | "" => [""]
  | String c t =>
      if Ascii.eqb c sep then "" :: split sep t
      else match split sep t with
           | h :: r => String c h :: r
           | [] => [String c ""]
           end
  end.

(** [parts.join(sep)] *)
Definition join (sep : string) (parts : list string) : string :=
  String.concat sep parts.

(** [s.trimStart()] *)
Fixpoint trimStart (s : string) : string :=
  match s with
  | String c t => if isSpace c then trimStart t else s
  | "" => ""
  end.

(** [!/\S/.test(s)] *)
Fixpoint allSpace (s : string) : bool :=
  match s with
  | "" => true
  | String c t => isSpace c && allSpace t
  end.

(** [s.charAt(0)] and [s.charAt(s.length - 1)], [None] for the empty
    string that JavaScript returns out of range. *)
Definition firstChar (s : string) : option ascii :=
  match s with String c _ => Some c | "" => None end.

Fixpoint lastChar (s : string) : option ascii :=
  match s with
  | "" => None
  | String c "" => Some c
  | String _ t => lastChar t
  end.

(** [s.slice(1, -1)] *)
Definition slice1m1 (s : string) : string :=
  take (String.length s - 2) (drop 1 s).

(** GetSubstitution for a pattern without capture groups: in the
    replacement text [$$] is a dollar, [$&] the matched text, [$`] the
    text before the match and [$'] the text after it; every other
    character, a lone [$] included, stands for itself. *)
Fixpoint getSubstitution (matched before after tpl : string) : string :=
  match tpl with
  | "" => ""
  | String c t =>
      if Ascii.eqb c "$" then
        match t with
        | String d t' =>
            if Ascii.eqb d "$" then
              String "$" (getSubstitution matched before after t')
            else if Ascii.eqb d "&" then
              matched ++ getSubstitution matched before after t'
            else if Ascii.eqb d "`" then
              before ++ getSubstitution matched before after t'
            else if Ascii.eqb d "'" then
              after ++ getSubstitution matched before after t'
            else String c (getSubstitution matched before after t)
        | "" => String c ""
        end
      else String c (getSubstitution matched before after t)
  end.

(** [s.replace(pat, rep)] for a string pattern: the first occurrence only. *)
Definition replace (s pat rep : string) : string :=
  match indexOf s pat with
  | None => s
  | Some i =>
      let before := take i s in
      let after := drop (i + String.length pat) s in
      before ++ getSubstitution pat before after rep ++ after
  end.

(** Truthiness of a value that is a string or [undefined]. *)
Definition truthy (o : option string) : bool :=
  match o with
  | Some s => negb (String.eqb s "")
  | None => false
  end.

(** [is.string] on the same values. *)
Definition isString (o : option string) : bool :=
  match o with Some _ => true | None => false end.

End Js.

(** ** Regular expressions

    The patterns of the module are kept as syntax trees and run by a
    backtracking matcher that follows the RegExp semantics of ECMAScript:
    [matches] lists the states in which a pattern can end from a given
    state, in the order in which backtracking tries them, so that the head
    of the list is the match that [exec] reports. *)

Module Regex.

Inductive cls_item : Type :=
| CChar (c : ascii)
| CRange (lo hi : ascii)
| CSpace                       (* \s *)
| CWord.                       (* \w *)

Inductive re : Type :=
| Eps
| Chr (c : ascii)
| Cls (negated : bool) (items : list cls_item)
| Any                          (* . *)
| Bol                          (* ^ *)
| Eol                          (* $ *)
| Seq (a b : re)
| Alt (a b : re)
| Rep (greedy : bool) (min : nat) (max : option nat) (a : re)
| Grp (name : string) (a : re).  (* (?<name>...) *)

Record flags : Type := { ignoreCase : bool; multiline : bool }.

Definition noFlags : flags := {| ignoreCase := false; multiline := false |}.
Definition flag_i : flags := {| ignoreCase := true; multiline := false |}.
Definition flag_m : flags := {| ignoreCase := false; multiline := true |}.
Definition flag_im : flags := {| ignoreCase := true; multiline := true |}.

(** A matcher state: the code unit before the current position, the
    input still to read, and the named groups captured so far. *)
Record mstate : Type :=
  { prev : option ascii; rest : string; caps : list (string * string) }.

Definition remaining (x : mstate) : nat := String.length (rest x).

Definition itemHas (it : cls_item) (c : ascii) : bool :=
  match it with
  | CChar d => Ascii.eqb c d
  | CRange lo hi => inRange lo hi c
  | CSpace => isSpace c
  | CWord => isWord c
  end.

Definition lower (c : ascii) : ascii :=
  if inRange "A" "Z" c then ascii_of_nat (code c + 32) else c.

(** CharacterSetMatcher: with the [i] flag a code unit is in the set when
    some member has the same canonical form. *)
Definition clsHas (f : flags) (items : list cls_item) (c : ascii) : bool :=
  existsb (fun it =>
    itemHas it c
    || (ignoreCase f && (itemHas it (canonicalize c) || itemHas it (lower c))))
    items.

Definition chrEq (f : flags) (p c : ascii) : bool :=
  if ignoreCase f then Ascii.eqb (canonicalize p) (canonicalize c)
  else Ascii.eqb p c.

Definition advance (x : mstate) (c : ascii) (t : string) : mstate :=
  {| prev := Some c; rest := t; caps := caps x |}.

Definition step (ok : ascii -> bool) (x : mstate) : list mstate :=
  match rest x with
  | String c t => if ok c then [advance x c t] else []
  | "" => []
  end.

Fixpoint capGet (name : string) (cs : list (string * string)) : option string :=
  match cs with
  | [] => None
  | (n, v) :: r => if String.eqb n name then Some v else capGet name r
  end.

Definition capDel (name : string) (cs : list (string * string))
  : list (string * string) :=
  filter (fun nv => negb (String.eqb (fst nv) name)) cs.

Definition capSet (name v : string) (x : mstate) : mstate :=
  {| prev := prev x; rest := rest x; caps := (name, v) :: capDel name (caps x) |}.

Definition capClear (names : list string) (x : mstate) : mstate :=
  {| prev := prev x; rest := rest x;
     caps := fold_right capDel (caps x) names |}.

Fixpoint groupNames (r : re) : list string :=
  match r with
  | Seq a b | Alt a b => (groupNames a ++ groupNames b)%list
  | Rep _ _ _ a => groupNames a
  | Grp n a => n :: groupNames a
  | _ => []
  end.

Definition predMax (mx : option nat) : option nat := option_map pred mx.

(** RepeatMatcher. Once the mandatory iterations are done an iteration
    that reads nothing is refused, so the recursion depth is bounded by
    [min] plus the length of the remaining input: that is the fuel
    [matches] passes. *)
Fixpoint repeatMatcher (m : mstate -> list mstate) (names : list string)
    (greedy : bool) (fuel min : nat) (max : option nat) (x : mstate)
  : list mstate :=
  match fuel with
  | 0 => []
  | S fuel' =>
      match max with
      | Some 0 => [x]
      | _ =>
          let again := flat_map (fun y =>
            if (min =? 0)%nat && negb (remaining y <? remaining x)%nat then []
            else repeatMatcher m names greedy fuel' (pred min) (predMax max) y)
            (m (capClear names x)) in
          if (min =? 0)%nat then
            if greedy then (again ++ [x])%list else x :: again
          else again
      end
  end.

Fixpoint matches (f : flags) (r : re) (x : mstate) : list mstate :=
  match r with
  | Eps => [x]
  | Chr p => step (chrEq f p) x
  | Cls neg items => step (fun c => xorb neg (clsHas f items c)) x
  | Any => step (fun c => negb (isLineTerminator c)) x
  | Bol =>
      match prev x with
      | None => [x]
      | Some c => if multiline f && isLineTerminator c then [x] else []
      end
  | Eol =>
      match rest x with
      | "" => [x]
      | String c _ => if multiline f && isLineTerminator c then [x] else []
      end
  | Seq a b => flat_map (matches f b) (matches f a x)
  | Alt a b => (matches f a x ++ matches f b x)%list
  | Rep greedy min max a =>
      repeatMatcher (matches f a) (groupNames a) greedy
        (min + S (remaining x)) min max x
  | Grp name a =>
      map (fun y => capSet name (Js.take (remaining x - remaining y) (rest x)) y)
          (matches f a x)
  end.

(** What [exec] returns: the index of the match, the matched text, the
    input after it, and the named groups. *)
Record found : Type :=
  { index : nat; matched : string; after : string;
    groups : list (string * string) }.

Definition group (name : string) (m : found) : option string :=
  capGet name (groups m).

(** The text of a group that every match of its pattern captures. *)
Definition groupText (name : string) (m : found) : string :=
  match group name m with Some v => v | None => "" end.

Definition matchAt (f : flags) (r : re) (p : option ascii) (i : nat) (s : string)
  : option found :=
  match matches f r {| prev := p; rest := s; caps := [] |} with
  | y :: _ =>
      Some {| index := i; matched := Js.take (String.length s - remaining y) s;
              after := rest y; groups := caps y |}
  | [] => None
  end.

(** [r.exec(s)] for a pattern without the [g] flag: the first position
    from the left at which the pattern matches. *)
Fixpoint execFrom (f : flags) (r : re) (p : option ascii) (i : nat) (s : string)
  : option found :=
  match matchAt f r p i s with
  | Some m => Some m
  | None =>
      match s with
      | "" => None
      | String c t => execFrom f r (Some c) (S i) t
      end
  end.

Definition exec (f : flags) (r : re) (s : string) : option found :=
  execFrom f r None 0 s.

Definition test (f : flags) (r : re) (s : string) : bool :=
  match exec f r s with Some _ => true | None => false end.

(** The loop [do { m = r.exec(s) } while (m)] over a pattern with the [g]
    flag: every match from the left, each search resuming where the
    previous match ended. [skip] counts the code units of the previous
    match still to pass. Both patterns run this way open with a literal,
    so no match is empty. *)
Fixpoint execAllFrom (f : flags) (r : re) (p : option ascii) (i skip : nat)
    (s : string) : list found :=
  match skip with
  | S k =>
      match s with
      | "" => []
      | String c t => execAllFrom f r (Some c) (S i) k t
      end
  | 0 =>
      match matchAt f r p i s, s with
      | Some m, String c t =>
          m :: execAllFrom f r (Some c) (S i) (String.length (matched m) - 1) t
      | Some m, "" => [m]
      | None, String c t => execAllFrom f r (Some c) (S i) 0 t
      | None, "" => []
      end
  end.

Definition execAll (f : flags) (r : re) (s : string) : list found :=
  execAllFrom f r None 0 0 s.

(** [s.replace(r, rep)] for a pattern without the [g] flag. *)
Definition replace (f : flags) (r : re) (s rep : string) : string :=
  match exec f r s with
  | None => s
  | Some m =>
      let before := Js.take (index m) s in
      before ++ Js.getSubstitution (matched m) before (after m) rep ++ after m
  end.

(** *** Pattern syntax *)

Fixpoint lit (s : string) : re :=
  match s with
  | "" => Eps
  | String c "" => Chr c
  | String c t => Seq (Chr c) (lit t)
  end.

Fixpoint seq (rs : list re) : re :=
  match rs with
  | [] => Eps
  | [r] => r
  | r :: t => Seq r (seq t)
  end.

Fixpoint alt (rs : list re) : re :=
  match rs with
  | [] => Eps
  | [r] => r
  | r :: t => Alt r (alt t)
  end.

Definition star (a : re) : re := Rep true 0 None a.       (* a*  *)
Definition plus (a : re) : re := Rep true 1 None a.       (* a+  *)
Definition opt (a : re) : re := Rep true 0 (Some 1) a.    (* a?  *)
Definition starLazy (a : re) : re := Rep false 0 None a.  (* a*? *)
Definition plusLazy (a : re) : re := Rep false 1 None a.  (* a+? *)
Definition word : re := Cls false [CWord].                (* \w *)
Definition space : re := Cls false [CSpace].              (* \s *)
Definition nonSpace : re := Cls true [CSpace].            (* \S *)
Definition blank : re := Cls false [CChar " "; CChar TAB].  (* [ \t] *)
Definition imageChar : re := Cls true [CSpace; CChar "+"].  (* [^\s\+] *)

End Regex.

(** ** The patterns of the module, as the source writes them *)

Module Patterns.
Import Regex.

(** [/(?<fullvariable>\\?\$(?<simplearg>\w+)|\\?\${(?<complexarg>\w+)(?::.+?)?}+)/gi] *)
Definition variableRegex : re :=
  Grp "fullvariable"
    (Alt (seq [opt (Chr "\"); Chr "$"; Grp "simplearg" (plus word)])
         (seq [opt (Chr "\"); Chr "$"; Chr "{"; Grp "complexarg" (plus word);
               opt (Seq (Chr ":") (plusLazy Any)); plus (Chr "}")])).

(** [/^\${.+?:-Q?(?<value>.*?)Q?}$/], where Q stands for the double
    quote character. *)
Definition defaultValueRegex : re :=
  seq [Bol; Chr "$"; Chr "{"; plusLazy Any; Chr ":"; Chr "-"; opt (Chr DQUOTE);
       Grp "value" (starLazy Any); opt (Chr DQUOTE); Chr "}"; Eol].

(** [/^quay\.io(?::[1-9][0-9]{0,4})?/i] *)
Definition quayRegex : re :=
  seq [Bol; lit "quay.io";
       opt (seq [Chr ":"; Cls false [CRange "1" "9"];
                 Rep true 0 (Some 4) (Cls false [CRange "0" "9"])])].

(** [regEx(`(?<prefix>${escapedName})/(?<depName>.+)`)]. Modelled from
    the spec: [escapeRegExp] of [util/regex] is not part of this module;
    it makes the alias name match as the literal text it is. *)
Definition aliasRegex (name : string) : re :=
  seq [Grp "prefix" (lit name); Chr "/"; Grp "depName" (plus Any)].

(** [escapeChar = '\\\\'] is the two-character pattern text that matches
    one backslash. *)
Definition escapeChar : re := Chr "\".

(** [regEx(escapeChar + '[ \\t]*$|^[ \\t]*#', 'm')] *)
Definition lineContinuationRegex : re :=
  Alt (seq [escapeChar; star blank; Eol]) (seq [Bol; star blank; Chr "#"]).

(** [regEx('^(?<target>\\S+?):(?:$|\\n|\\t|\\s)+', 'im')] *)
Definition targetRegex : re :=
  seq [Bol; Grp "target" (plusLazy nonSpace); Chr ":";
       plus (alt [Eol; Chr LF; Chr TAB; space])].

(** [escapeChar + '[ \\t]*\\r?\\n'] *)
Definition escapedNewline : re :=
  seq [escapeChar; star blank; opt (Chr CR); Chr LF].

(** ['#.*?\\r?\\n'] *)
Definition commentToEol : re :=
  seq [Chr "#"; starLazy Any; opt (Chr CR); Chr LF].

(** [regEx('^[ \\t]*(?:ARG|LET|SET)(?:' + escapeChar +
      '[ \\t]*\\r?\\n| |--global|\\t|#.*?\\r?\\n)+(?<name>\\w+)[ =](?<value>[^\\s\\+]*
      )', 'im')], the pattern text running on across the line break. *)
Definition argRegex : re :=
  seq [Bol; star blank; alt [lit "ARG"; lit "LET"; lit "SET"];
       plus (alt [escapedNewline; Chr " "; lit "--global"; Chr TAB; commentToEol]);
       Grp "name" (plus word); Cls false [CChar " "; CChar "="];
       Grp "value" (star imageChar)].

(** [new RegExp('^[ \\t]*WITH DOCKER', 'im')] *)
Definition withDockerRegex : re :=
  seq [Bol; star blank; lit "WITH DOCKER"].

(** [new RegExp('--pull(?:\\s+|\\s*=\\s*
      )(?<image>[^\\s\\+]+)', 'gim')], the pattern text running on across
    the line break. *)
Definition imageRegex : re :=
  seq [lit "--pull";
       Alt (plus space) (seq [star space; Chr "="; star space]);
       Grp "image" (plus imageChar)].

(** [new RegExp('^[ \\t]*FROM(?:' + escapeChar +
      '[ \\t]*\\r?\\n| |\\t|#.*?\\r?\\n|--platform=\\S+|--allow-privileged)+(?<image>[^\\s\\+]+)(?:(?:' +
      escapeChar + '[ \\t]*\\r?\\n| |\\t|#.*?\\r?\\n|--\\S+=\\S+)+)?', 'im')] *)
Definition fromRegex : re :=
  seq [Bol; star blank; lit "FROM";
       plus (alt [escapedNewline; Chr " "; Chr TAB; commentToEol;
                  Seq (lit "--platform=") (plus nonSpace);
                  lit "--allow-privileged"]);
       Grp "image" (plus imageChar);
       opt (plus (alt [escapedNewline; Chr " "; Chr TAB; commentToEol;
                       seq [lit "--"; plus nonSpace; Chr "=";
                            plus nonSpace]]))].

End Patterns.

(** ** Data model *)

(** Outcome of code that can throw. *)
Inductive JsError : Type := TypeError.

Inductive result (A : Type) : Type :=
| Ok (a : A)
| Throw (e : JsError).
Arguments Ok {A} a.
Arguments Throw {A} e.

Definition bind {A B : Type} (r : result A) (k : A -> result B) : result B :=
  match r with
  | Ok a => k a
  | Throw e => Throw e
  end.

Notation "x <- r ;; k" := (bind r (fun x => k))
  (at level 61, r at next level, right associativity).

Inductive SkipReason : Type :=
| InvalidValue        (* 'invalid-value' *)
| ContainsVariable.   (* 'contains-variable' *)

(** Modelled from the spec: [DockerDatasource.id], an identifier declared
    outside this module, the one datasource this manager names. *)
Inductive Datasource : Type := DockerDatasourceId.

(** Modelled from the spec: [ubuntuVersioning.id] and
    [debianVersioning.id], identifiers declared outside this module. *)
Inductive Versioning : Type := UbuntuVersioningId | DebianVersioningId.

(** The fields of [PackageDependency] this manager writes; [None] is an
    absent (or [undefined]) property. *)
Record PackageDependency : Type :=
  { depName : option string;
    packageName : option string;
    currentValue : option string;
    currentDigest : option string;
    datasource : option Datasource;
    versioning : option Versioning;
    depType : option string;
    skipReason : option SkipReason;
    replaceString : option string;
    autoReplaceStringTemplate : option string }.

Definition emptyDep : PackageDependency :=
  {| depName := None; packageName := None; currentValue := None;
     currentDigest := None; datasource := None; versioning := None;
     depType := None; skipReason := None; replaceString := None;
     autoReplaceStringTemplate := None |}.

Definition setDepName v d :=
  {| depName := v; packageName := packageName d;
     currentValue := currentValue d; currentDigest := currentDigest d;
     datasource := datasource d; versioning := versioning d;
     depType := depType d; skipReason := skipReason d;
     replaceString := replaceString d;
     autoReplaceStringTemplate := autoReplaceStringTemplate d |}.

Definition setPackageName v d :=
  {| depName := depName d; packageName := v;
     currentValue := currentValue d; currentDigest := currentDigest d;
     datasource := datasource d; versioning := versioning d;
     depType := depType d; skipReason := skipReason d;
     replaceString := replaceString d;
     autoReplaceStringTemplate := autoReplaceStringTemplate d |}.

Definition setCurrentValue v d :=
  {| depName := depName d; packageName := packageName d;
     currentValue := v; currentDigest := currentDigest d;
     datasource := datasource d; versioning := versioning d;
     depType := depType d; skipReason := skipReason d;
     replaceString := replaceString d;
     autoReplaceStringTemplate := autoReplaceStringTemplate d |}.

Definition setCurrentDigest v d :=
  {| depName := depName d; packageName := packageName d;
     currentValue := currentValue d; currentDigest := v;
     datasource := datasource d; versioning := versioning d;
     depType := depType d; skipReason := skipReason d;
     replaceString := replaceString d;
     autoReplaceStringTemplate := autoReplaceStringTemplate d |}.

Definition setDatasource v d :=
  {| depName := depName d; packageName := packageName d;
     currentValue := currentValue d; currentDigest := currentDigest d;
     datasource := v; versioning := versioning d;
     depType := depType d; skipReason := skipReason d;
     replaceString := replaceString d;
     autoReplaceStringTemplate := autoReplaceStringTemplate d |}.

Definition setVersioning v d :=
  {| depName := depName d; packageName := packageName d;
     currentValue := currentValue d; currentDigest := currentDigest d;
     datasource := datasource d; versioning := v;
     depType := depType d; skipReason := skipReason d;
     replaceString := replaceString d;
     autoReplaceStringTemplate := autoReplaceStringTemplate d |}.

Definition setDepType v d :=
  {| depName := depName d; packageName := packageName d;
     currentValue := currentValue d; currentDigest := currentDigest d;
     datasource := datasource d; versioning := versioning d;
     depType := v; skipReason := skipReason d;
     replaceString := replaceString d;
     autoReplaceStringTemplate := autoReplaceStringTemplate d |}.

Definition setReplaceString v d :=
  {| depName := depName d; packageName := packageName d;
     currentValue := currentValue d; currentDigest := currentDigest d;
     datasource := datasource d; versioning := versioning d;
     depType := depType d; skipReason := skipReason d;
     replaceString := v;
     autoReplaceStringTemplate := autoReplaceStringTemplate d |}.

Definition setAutoReplaceStringTemplate v d :=
  {| depName := depName d; packageName := packageName d;
     currentValue := currentValue d; currentDigest := currentDigest d;
     datasource := datasource d; versioning := versioning d;
     depType := depType d; skipReason := skipReason d;
     replaceString := replaceString d;
     autoReplaceStringTemplate := v |}.

(** [{ skipReason: reason }] *)
Definition skipped (reason : SkipReason) : PackageDependency :=
  {| depName := None; packageName := None; currentValue := None;
     currentDigest := None; datasource := None; versioning := None;
     depType := None; skipReason := Some reason; replaceString := None;
     autoReplaceStringTemplate := None |}.

(** [PackageFileContent] *)
Record PackageFileContent : Type := { deps : list PackageDependency }.

(** *** Objects as dictionaries *)

Section Dict.
Context {V : Type}.

(** Own properties in insertion order. *)
Definition dict : Type := list (string * V).

Fixpoint dictGet (k : string) (d : dict) : option V :=
  match d with
  | [] => None
  | (k', v) :: r => if String.eqb k' k then Some v else dictGet k r
  end.

(** [d[k] = v]: a known key keeps its place, a new one goes last. *)
Fixpoint dictSet (k : string) (v : V) (d : dict) : dict :=
  match d with
  | [] => [(k, v)]
  | (k', v') :: r =>
      if String.eqb k' k then (k, v) :: r else (k', v') :: dictSet k v r
  end.

End Dict.
Arguments dict V : clear implicits.

(** The properties every object literal inherits from [Object.prototype]. *)
Definition objectPrototypeKeys : list string :=
  ["constructor"; "__defineGetter__"; "__defineSetter__"; "hasOwnProperty";
   "__lookupGetter__"; "__lookupSetter__"; "isPrototypeOf";
   "propertyIsEnumerable"; "toString"; "valueOf"; "__proto__";
   "toLocaleString"].

Definition isPrototypeKey (k : string) : bool :=
  existsb (String.eqb k) objectPrototypeKeys.

(** ToPropertyKey of a value that is a string or [undefined]. *)
Definition propertyKey (o : option string) : string :=
  match o with Some s => s | None => "undefined" end.

(** What [args[name]] evaluates to on [const args = {}]: an own property,
    a member inherited from [Object.prototype], or [undefined]. *)
Inductive argValue : Type :=
| ArgString (v : string)
| ArgInherited (key : string)
| ArgUndefined.

Definition argsGet (args : dict string) (name : string) : argValue :=
  match dictGet name args with
  | Some v => ArgString v
  | None => if isPrototypeKey name then ArgInherited name else ArgUndefined
  end.

(** [args[name] = value]: the [__proto__] setter ignores a string. *)
Definition argsSet (name value : string) (args : dict string) : dict string :=
  if String.eqb name "__proto__" then args else dictSet name value args.

(** An element of [lineNumberRanges]: a two-element array, or a value
    that [for ... of] cannot iterate. *)
Inductive rangeValue : Type :=
| Range (first last : nat)
| NotIterable.

(** [argsLines]: its own properties, and the array that an assignment to
    [argsLines.__proto__] has made its prototype, if any. *)
Record ArgsLines : Type :=
  { ownLines : dict (nat * nat); protoLines : option (nat * nat) }.

Definition argsLinesEmpty : ArgsLines := {| ownLines := []; protoLines := None |}.

Definition argsLinesSet (name : string) (r : nat * nat) (al : ArgsLines)
  : ArgsLines :=
  if String.eqb name "__proto__"
  then {| ownLines := ownLines al; protoLines := Some r |}
  else {| ownLines := dictSet name r (ownLines al); protoLines := protoLines al |}.

(** [argsLines[name]]. A name that is not an own property finds
    [undefined], a number or an inherited function, none of them
    iterable; [__proto__] finds the prototype itself. *)
Definition argsLinesGet (al : ArgsLines) (name : string) : rangeValue :=
  match dictGet name (ownLines al) with
  | Some (a, b) => Range a b
  | None =>
      if String.eqb name "__proto__" then
        match protoLines al with
        | Some (a, b) => Range a b
        | None => NotIterable
        end
      else NotIterable
  end.

(** ** Building a descriptor *)

Import Regex Patterns.

Definition variableMarker : string := "$".

(** [extractVariables]: every variable token of [image] with the name it
    refers to, keyed by the token text. *)
Definition extractVariables (image : string) : dict (option string) :=
  fold_left
    (fun variables m =>
       if Js.truthy (group "fullvariable" m) then
         dictSet (propertyKey (group "fullvariable" m))
           (if Js.truthy (group "simplearg" m) then group "simplearg" m
            else group "complexarg" m)
           variables
       else variables)
    (execAll flag_i variableRegex image) [].

Definition newValuePlaceholder : string := "{{#if newValue}}{{newValue}}{{/if}}".
Definition newDigestSuffix : string := "{{#if newDigest}}@{{newDigest}}{{/if}}".
Definition newDigestPlaceholder : string := "{{#if newDigest}}{{newDigest}}{{/if}}".

(** [getAutoReplaceTemplate] *)
Definition getAutoReplaceTemplate (dep : PackageDependency) : option string :=
  let template := replaceString dep in
  let template :=
    match currentValue dep with
    | Some cv =>
        if Js.truthy (Some cv) then
          let placeholder :=
            if Js.truthy (currentDigest dep) then newValuePlaceholder
            else newValuePlaceholder ++ newDigestSuffix in
          option_map (fun t => Js.replace t cv placeholder) template
        else template
    | None => template
    end in
  match currentDigest dep with
  | Some cd =>
      if Js.truthy (Some cd)
      then option_map (fun t => Js.replace t cd newDigestPlaceholder) template
      else template
  | None => template
  end.

(** [lines[lineNumber].includes(text)] guarded by [is.string(text)]:
    [None] when the guard fails, a [TypeError] when the line does not
    exist. *)
Definition lineIncludes (lines : list string) (lineNumber : nat)
    (text : option string) : result bool :=
  match text with
  | None => Ok false
  | Some t =>
      match nth_error lines lineNumber with
      | Some l => Ok (Js.includes l t)
      | None => Throw TypeError
      end
  end.

(** The condition of the inner loop of [processDepForAutoReplace], with
    the short-circuit order of [||] and [&&]. *)
Definition lineMentionsDep (dep : PackageDependency) (lines : list string)
    (lineNumber : nat) : result bool :=
  byValue <- lineIncludes lines lineNumber (currentValue dep) ;;
  if (byValue : bool) then Ok true
  else lineIncludes lines lineNumber (currentDigest dep).

(** One pass of the outer loop: [for (const lineNumber of lineNumberRange)]
    visits the two elements of the range, and pushes the range once for
    each that mentions the dependency. *)
Definition rangesOf (dep : PackageDependency) (lines : list string)
    (rv : rangeValue) : result (list (nat * nat)) :=
  match rv with
  | NotIterable => Throw TypeError
  | Range a b =>
      atFirst <- lineMentionsDep dep lines a ;;
      atLast <- lineMentionsDep dep lines b ;;
      Ok ((if (atFirst : bool) then [(a, b)] else [])
          ++ (if (atLast : bool) then [(a, b)] else []))%list
  end.

Fixpoint rangesToReplace (dep : PackageDependency) (lines : list string)
    (ranges : list rangeValue) : result (list (nat * nat)) :=
  match ranges with
  | [] => Ok []
  | rv :: more =>
      here <- rangesOf dep lines rv ;;
      later <- rangesToReplace dep lines more ;;
      Ok (here ++ later)%list
  end.

(** [sort((a, b) => a[0] - b[0])], a stable insertion sort: a range goes
    before the sorted ranges that do not start earlier. *)
Fixpoint insertRange (r : nat * nat) (sorted : list (nat * nat))
  : list (nat * nat) :=
  match sorted with
  | [] => [r]
  | h :: t =>
      if (fst h <? fst r)%nat then h :: insertRange r t else r :: h :: t
  end.

Definition sortRanges (rs : list (nat * nat)) : list (nat * nat) :=
  fold_right insertRange [] rs.

(** [Array.from({ length: maxLine - minLine + 1 }, (_v, k) => k + minLine)]:
    empty when [maxLine < minLine]. *)
Definition unfoldedLineNumbers (minLine maxLine : nat) : list nat :=
  if (minLine <=? maxLine)%nat then List.seq minLine (maxLine - minLine + 1) else [].

(** [processDepForAutoReplace] *)
Definition processDepForAutoReplace (dep : PackageDependency)
    (lineNumberRanges : list rangeValue) (lines : list string)
    (linefeed : string) : result PackageDependency :=
  found <- rangesToReplace dep lines lineNumberRanges ;;
  let lineNumberRangesToReplace := sortRanges found in
  match lineNumberRangesToReplace, (List.length lineNumberRanges =? 1)%nat with
  | [], _ | _, true => Ok dep
  | first :: _, false =>
      let minLine := fst first in
      let maxLine := snd (last lineNumberRangesToReplace first) in
      let text :=
        Js.join linefeed
          (map (fun n => nth n lines "") (unfoldedLineNumbers minLine maxLine)) in
      let text :=
        if Js.truthy (currentDigest dep) then text else text ++ linefeed in
      let dep := setReplaceString (Some text) dep in
      Ok (setAutoReplaceStringTemplate (getAutoReplaceTemplate dep) dep)
  end.

(** The first part of [splitImageParts]: the text left once a
    [${VARIABLE:-default}] wrapper is removed, and whether one was. *)
Definition cleanCurrentFrom (currentFrom : string) : bool * string :=
  if Js.includes currentFrom variableMarker then
    match exec noFlags defaultValueRegex currentFrom with
    | Some m =>
        match group "value" m with
        | Some v => if Js.truthy (Some v) then (true, v) else (false, currentFrom)
        | None => (false, currentFrom)
        end
    | None => (false, currentFrom)
    end
  else (false, currentFrom).

Definition dropFalsy (o : option string) : option string :=
  if Js.truthy o then o else None.

(** [splitImageParts] *)
Definition splitImageParts (currentFrom : string) : PackageDependency :=
  let '(isVariable, cleanedCurrentFrom) := cleanCurrentFrom currentFrom in
  if Js.includes currentFrom variableMarker
     && Js.includes cleanedCurrentFrom variableMarker
  then skipped ContainsVariable
  else
    let atParts := Js.split "@" cleanedCurrentFrom in
    let currentDepTag := nth 0 atParts "" in
    let currentDigest := nth_error atParts 1 in
    let depTagSplit := Js.split ":" currentDepTag in
    let '(depName, currentValue) :=
      if (List.length depTagSplit =? 1)%nat
         || Js.includes (last depTagSplit "") "/"
      then (currentDepTag, None)
      else (Js.join ":" (removelast depTagSplit), Some (last depTagSplit "")) in
    let dep :=
      {| depName := Some depName; packageName := None;
         currentValue := currentValue; currentDigest := currentDigest;
         datasource := None; versioning := None; depType := None;
         skipReason := None; replaceString := None;
         autoReplaceStringTemplate := None |} in
    if isVariable then
      setCurrentDigest (dropFalsy (currentDigest))
        (setCurrentValue (dropFalsy currentValue)
           (setReplaceString (Some cleanedCurrentFrom) dep))
    else dep.

Definition depNameTemplate : string :=
  "{{depName}}{{#if newValue}}:{{newValue}}{{/if}}{{#if newDigest}}@{{newDigest}}{{/if}}".

Definition packageNameTemplate : string :=
  "{{packageName}}{{#if newValue}}:{{newValue}}{{/if}}{{#if newDigest}}@{{newDigest}}{{/if}}".

Definition specialPrefixes : list string := ["amd64"; "arm64"; "library"].

(** One turn of the loop over [specialPrefixes]. *)
Definition prettyPrefix (specifyReplaceString : bool) (dep : PackageDependency)
    (prefix : string) : PackageDependency :=
  match depName dep with
  | Some name =>
      if Js.startsWith name (prefix ++ "/") then
        let dep := setPackageName (Some name) dep in
        let dep := setDepName (Some (Js.replace name (prefix ++ "/") "")) dep in
        if specifyReplaceString
        then setAutoReplaceStringTemplate (Some packageNameTemplate) dep
        else dep
      else dep
  | None => dep
  end.

(** The first alias, in [Object.entries] order, whose pattern is found in
    [currentFrom], with the text captured as [depName]. *)
Fixpoint aliasMatch (registryAliases : dict string) (currentFrom : string)
  : option (string * string) :=
  match registryAliases with
  | [] => None
  | (name, value) :: more =>
      match exec noFlags (aliasRegex name) currentFrom with
      | Some m => Some (value, groupText "depName" m)
      | None => aliasMatch more currentFrom
      end
  end.

(** [if (specifyReplaceString) { ... }] *)
Definition specifyReplace (specifyReplaceString : bool) (currentFrom : string)
    (dep : PackageDependency) : PackageDependency :=
  if specifyReplaceString then
    let dep :=
      if Js.truthy (replaceString dep) then dep
      else setReplaceString (Some currentFrom) dep in
    setAutoReplaceStringTemplate (Some depNameTemplate) dep
  else dep.

(** "Pretty up special prefixes" *)
Definition prettyPrefixes (specifyReplaceString : bool) (dep : PackageDependency)
  : PackageDependency :=
  if Js.truthy (depName dep)
  then fold_left (prettyPrefix specifyReplaceString) specialPrefixes dep
  else dep.

(** [dep.depName === name] *)
Definition isNamed (dep : PackageDependency) (name : string) : bool :=
  match depName dep with
  | Some n => String.eqb n name
  | None => false
  end.

(** "Don't display quay.io ports" *)
Definition hideQuayPort (dep : PackageDependency) : PackageDependency :=
  match depName dep with
  | Some name =>
      if Js.truthy (Some name) && test flag_i quayRegex name then
        let depName' := replace flag_i quayRegex name "quay.io" in
        if String.eqb depName' name then dep
        else
          setAutoReplaceStringTemplate (Some packageNameTemplate)
            (setDepName (Some depName') (setPackageName (Some name) dep))
      else dep
  | None => dep
  end.

Section GetDep.

(** [debianVersioning.api.isVersion], a collaborator outside this module. *)
Variable isVersion : option string -> bool.

(** The two [if]s that choose a versioning scheme. *)
Definition assignVersioning (dep : PackageDependency) : PackageDependency :=
  let dep :=
    if isNamed dep "ubuntu"
    then setVersioning (Some UbuntuVersioningId) dep
    else dep in
  if isNamed dep "debian" && isVersion (currentValue dep)
  then setVersioning (Some DebianVersioningId) dep
  else dep.

(** The body of [getDep]; [self] is [getDep] as the alias branch calls it,
    with one argument. *)
Definition getDepBody (self : string -> PackageDependency)
    (currentFrom : option string) (specifyReplaceString : bool)
    (registryAliases : dict string) : PackageDependency :=
  match currentFrom with
  | None => skipped InvalidValue
  | Some currentFrom =>
      if Js.allSpace currentFrom then skipped InvalidValue
      else
        match aliasMatch registryAliases currentFrom with
        | Some (value, name) =>
            let dep :=
              setReplaceString (Some currentFrom) (self (value ++ "/" ++ name)) in
            setAutoReplaceStringTemplate (getAutoReplaceTemplate dep) dep
        | None =>
            let dep := splitImageParts currentFrom in
            let dep := specifyReplace specifyReplaceString currentFrom dep in
            let dep := setDatasource (Some DockerDatasourceId) dep in
            let dep := prettyPrefixes specifyReplaceString dep in
            let dep := assignVersioning dep in
            hideQuayPort dep
        end
  end.

(** [getDep(currentFrom)] as the alias branch calls it: the replace string
    is specified and there is no alias map, so it never calls itself. *)
Definition getDepNoAlias (currentFrom : string) : PackageDependency :=
  getDepBody (fun _ => emptyDep) (Some currentFrom) true [].

(** [getDep] *)
Definition getDep (currentFrom : option string) (specifyReplaceString : bool)
    (registryAliases : dict string) : PackageDependency :=
  getDepBody getDepNoAlias currentFrom specifyReplaceString registryAliases.

End GetDep.

(** ** Scanning a file *)

(** Modelled from the spec: [content.split(newlineRegex)], where the
    constant [newlineRegex] of [util/regex] is not part of this module.
    The file is split into physical lines at every line feed, a carriage
    return just before it belonging to the separator. *)
Fixpoint splitLines (content : string) : list string :=
  let push c t :=
    match splitLines t with
    | h :: r => String c h :: r
    | [] => [String c ""]
    end in
  match content with
  | "" => [""]
  | String c t =>
      if Ascii.eqb c LF then "" :: splitLines t
      else if Ascii.eqb c CR then
        match t with
        | String d t' => if Ascii.eqb d LF then "" :: splitLines t' else push c t
        | "" => push c t
        end
      else push c t
  end.

(** [ExtractConfig], as far as this manager reads it: the entries of
    [registryAliases]. *)
Record ExtractConfig : Type := { registryAliases : dict string }.

(** The condition of the [while] loop that folds continuation lines. *)
Definition continues (instruction lineLookahead : string) : bool :=
  negb (Js.startsWith (Js.trimStart instruction) "#")
  && negb (test flag_im targetRegex lineLookahead)
  && test flag_m lineContinuationRegex lineLookahead.

(** The [while] loop: [rest] holds the lines after [lineNumber]. Past the
    last line [lines[++lineNumber] || ''] is the empty string, on which
    the condition is false, so the loop ends there. *)
Fixpoint foldInstruction (instruction lineLookahead : string)
    (lineNumber : nat) (rest : list string) : string * nat :=
  if continues instruction lineLookahead then
    match rest with
    | next :: rest' =>
        foldInstruction (instruction ++ NL ++ next) next (S lineNumber) rest'
    | [] => (instruction ++ NL ++ "", S lineNumber)
    end
  else (instruction, lineNumber).

(** What the loop carries from one instruction to the next. *)
Record ScanState : Type :=
  { found : list PackageDependency;
    args : dict string;
    argsLines : ArgsLines;
    currentTarget : string }.

Definition initialState : ScanState :=
  {| found := []; args := []; argsLines := argsLinesEmpty;
     currentTarget := "base" |}.

(** The target header of an instruction moves [currentTarget]. *)
Definition updateTarget (instruction : string) (st : ScanState) : ScanState :=
  match exec flag_im targetRegex instruction with
  | Some m =>
      match group "target" m with
      | Some t =>
          if Js.truthy (Some t)
          then {| found := found st; args := args st;
                  argsLines := argsLines st; currentTarget := t |}
          else st
      | None => st
      end
  | None => st
  end.

(** The value of a declaration, one layer of double quotes removed. *)
Definition unquote (value : string) : string :=
  match Js.firstChar value, Js.lastChar value with
  | Some a, Some b =>
      if Ascii.eqb a DQUOTE && Ascii.eqb b DQUOTE then Js.slice1m1 value
      else value
  | _, _ => value
  end.

(** An [ARG], [LET] or [SET] declaration enters the variable table. *)
Definition updateArgs (instruction : string) (lineNumberInstrStart lineNumber : nat)
    (st : ScanState) : ScanState :=
  match exec flag_im argRegex instruction with
  | Some m =>
      match group "name" m with
      | Some name =>
          if Js.truthy (Some name) then
            {| found := found st;
               args := argsSet name (unquote (groupText "value" m))
                         (args st);
               argsLines := argsLinesSet name (lineNumberInstrStart, lineNumber)
                              (argsLines st);
               currentTarget := currentTarget st |}
          else st
      | None => st
      end
  | None => st
  end.

Definition capturedImage (m : Regex.found) : list string :=
  match group "image" m with
  | Some image => if Js.truthy (Some image) then [image] else []
  | None => []
  end.

(** The candidate image references of an instruction: every [--pull] of a
    [WITH DOCKER], then the image of a [FROM]. *)
Definition instructionImages (instruction : string) : list string :=
  ((if test flag_im withDockerRegex instruction
    then flat_map capturedImage (execAll flag_im imageRegex instruction)
    else [])
   ++ match exec flag_im fromRegex instruction with
      | Some m => capturedImage m
      | None => []
      end)%list.

(** The text a member inherited from [Object.prototype] yields as the
    replacement of [String.prototype.replace]: [Object] returns its
    argument, [toString] and [isPrototypeOf] answer for an undefined
    receiver, the object behind [__proto__] prints itself, and the other
    functions throw on the undefined receiver. *)
Definition inheritedReplacement (key matched : string) : result string :=
  if String.eqb key "constructor" then Ok matched
  else if String.eqb key "toString" then Ok "[object Undefined]"
  else if String.eqb key "isPrototypeOf" then Ok "false"
  else if String.eqb key "__proto__" then Ok "[object Object]"
  else Throw TypeError.

Definition replaceWithInherited (image fullVariable key : string)
  : result string :=
  match Js.indexOf image fullVariable with
  | None => Ok image
  | Some i =>
      replacement <- inheritedReplacement key fullVariable ;;
      Ok (Js.take i image ++ replacement
          ++ Js.drop (i + String.length fullVariable) image)
  end.

(** One turn of the loop over [Object.entries(variables)]. *)
Definition substituteVariable (args : dict string) (argsLines : ArgsLines)
    (acc : string * list rangeValue) (entry : string * option string)
  : result (string * list rangeValue) :=
  let '(image, lineNumberRanges) := acc in
  let '(fullVariable, argName) := entry in
  let name := propertyKey argName in
  match argsGet args name with
  | ArgUndefined => Ok acc
  | ArgString resolvedArgValue =>
      Ok (Js.replace image fullVariable resolvedArgValue,
          (lineNumberRanges ++ [argsLinesGet argsLines name])%list)
  | ArgInherited key =>
      image' <- replaceWithInherited image fullVariable key ;;
      Ok (image', (lineNumberRanges ++ [argsLinesGet argsLines name])%list)
  end.

Fixpoint substituteVariables (args : dict string) (argsLines : ArgsLines)
    (acc : string * list rangeValue) (variables : dict (option string))
  : result (string * list rangeValue) :=
  match variables with
  | [] => Ok acc
  | entry :: more =>
      acc' <- substituteVariable args argsLines acc entry ;;
      substituteVariables args argsLines acc' more
  end.

(** Variable resolution of one candidate: the image after substitution
    and the line ranges that contributed to it. *)
Definition resolveImage (st : ScanState) (lineNumberInstrStart lineNumber : nat)
    (image : string) : result (string * list rangeValue) :=
  let lineNumberRanges := [Range lineNumberInstrStart lineNumber] in
  if Js.includes image variableMarker
  then substituteVariables (args st) (argsLines st) (image, lineNumberRanges)
         (extractVariables image)
  else Ok (image, lineNumberRanges).

Section Extract.

Variable isVersion : option string -> bool.
Variable config : ExtractConfig.

(** The body of the loop over [images]: [None] for [scratch], otherwise
    the descriptor that is pushed. *)
Definition processImage (st : ScanState) (lines : list string)
    (lineFeed : string) (lineNumberInstrStart lineNumber : nat)
    (image : string) : result (option PackageDependency) :=
  resolved <- resolveImage st lineNumberInstrStart lineNumber image ;;
  let '(image, lineNumberRanges) := resolved in
  if String.eqb image "scratch" then Ok None
  else
    let dep := getDep isVersion (Some image) true (registryAliases config) in
    dep <- processDepForAutoReplace dep lineNumberRanges lines lineFeed ;;
    let dep :=
      if Js.truthy (depType dep) then dep
      else setDepType (Some (currentTarget st)) dep in
    Ok (Some dep).

Definition pushDep (st : ScanState) (dep : option PackageDependency)
  : ScanState :=
  match dep with
  | Some d =>
      {| found := (found st ++ [d])%list; args := args st;
         argsLines := argsLines st; currentTarget := currentTarget st |}
  | None => st
  end.

Fixpoint processImages (st : ScanState) (lines : list string)
    (lineFeed : string) (lineNumberInstrStart lineNumber : nat)
    (images : list string) : result ScanState :=
  match images with
  | [] => Ok st
  | image :: more =>
      dep <- processImage st lines lineFeed lineNumberInstrStart lineNumber image ;;
      processImages (pushDep st dep) lines lineFeed lineNumberInstrStart
        lineNumber more
  end.

(** The body of the [for] loop once the instruction is folded. *)
Definition processInstruction (st : ScanState) (lines : list string)
    (lineFeed : string) (lineNumberInstrStart lineNumber : nat)
    (instruction : string) : result ScanState :=
  let st := updateTarget instruction st in
  let st := updateArgs instruction lineNumberInstrStart lineNumber st in
  processImages st lines lineFeed lineNumberInstrStart lineNumber
    (instructionImages instruction).

(** The [for] loop over the lines. [rest] holds the lines from
    [lineNumber] on; [skip] counts the lines the last instruction has
    folded in and the loop passes over. *)
Fixpoint scanLines (lines : list string) (lineFeed : string) (skip lineNumber : nat)
    (rest : list string) (st : ScanState) : result ScanState :=
  match rest with
  | [] => Ok st
  | line :: rest' =>
      match skip with
      | S skip' => scanLines lines lineFeed skip' (S lineNumber) rest' st
      | 0 =>
          let '(instruction, lastLine) :=
            foldInstruction line line lineNumber rest' in
          st' <- processInstruction st lines lineFeed lineNumber lastLine
                   instruction ;;
          scanLines lines lineFeed (lastLine - lineNumber) (S lineNumber) rest' st'
      end
  end.

(** The descriptors the loop of [extractPackageFile] collects. *)
Definition extractDeps (content : string) : result (list PackageDependency) :=
  let lineFeed := if Js.includes content CRLF then CRLF else NL in
  let lines := splitLines content in
  st <- scanLines lines lineFeed 0 0 lines initialState ;;
  Ok (found st).

(** [extractPackageFile] *)
Definition extractPackageFile (content : string)
  : result (option PackageFileContent) :=
  found <- extractDeps content ;;
  match found with
  | [] => Ok None
  | _ :: _ => Ok (Some {| deps := found |})
  end.

End Extract.

(** ** Rendering a template *)

Module Template.


Definition text (o : option string) : string :=
  match o with Some s => s | None => "" end.






End Template.

(** * Vocabulary of the statements *)

(** A character occurs in a string. *)
Fixpoint occurs (c : ascii) (s : string) : bool :=
  match s with
  | "" => false
  | String d t => Ascii.eqb d c || occurs c t
  end.

(** [q] is what is left of [s] after reading some of it. *)
Definition suffixOf (q s : string) : Prop := exists p, s = p ++ q.

(** A configuration without registry aliases. *)
Definition noAliases : ExtractConfig := {| registryAliases := [] |}.

(** An instance of the debian collaborator for closed examples. None of
    them names debian, so it is never consulted. *)
Definition neverDebian : option string -> bool := fun _ => false.

(** The two-line input of C4. *)
Definition argThenFrom : string :=
  "ARG BASE=golang:1.20" ++ NL ++ "FROM ${BASE}".

(** The reading of C6, in its words: everything after the final [@] is
    the digest, everything before it the name-and-tag remainder. *)
Definition afterLastAt (s : string) : string := last (Js.split "@" s) "".

Definition beforeLastAt (s : string) : string :=
  Js.join "@" (removelast (Js.split "@" s)).

(** Exactly one of [skipReason] and [depName] is present. *)
Definition skippedOrNamed (d : PackageDependency) : Prop :=
  (skipReason d <> None /\ depName d = None)
  \/ (skipReason d = None /\ depName d <> None).

(** [d'] is skipped like [d], and named when [d] is. *)
Definition sameStatus (d d' : PackageDependency) : Prop :=
  skipReason d' = skipReason d /\ (depName d' = None <-> depName d = None).






(** A word: what [\w+] reads whole. *)
Fixpoint allWord (s : string) : bool :=
  match s with
  | "" => true
  | String c t => isWord c && allWord t
  end.

(** The code unit before the position reached by reading [w]. *)
Fixpoint prevAfter (p : option ascii) (w : string) : option ascii :=
  match w with
  | "" => p
  | String c t => prevAfter (Some c) t
  end.

(** No word character comes next. *)
Definition wordEnds (r : string) : Prop :=
  match r with
  | "" => True
  | String c _ => isWord c = false
  end.

(** The first of the states a matcher offers: the one [exec] takes. *)
Definition firstIs {A : Type} (l : list A) (a : A) : Prop :=
  exists others, l = a :: others.

(** The descriptor of a reference that stays a variable, as the loop
    of [extractPackageFile] pushes it. *)
Definition skippedVariable (image target : string) : PackageDependency :=
  setDepType (Some target)
    (setDatasource (Some DockerDatasourceId)
       (specifyReplace true image (skipped ContainsVariable))).

(** A pattern that reads at least one code unit wherever it matches. *)
Fixpoint consuming (r : re) : bool :=
  match r with
  | Chr _ | Cls _ _ | Any => true
  | Seq a b => consuming a || consuming b
  | Alt a b => consuming a && consuming b
  | Rep _ (S _) None a | Rep _ (S _) (Some (S _)) a => consuming a
  | Grp _ a => consuming a
  | _ => false
  end.

(** The Earthfile among the fixtures of the repository. *)
Definition fixture : string := Js.join NL [
   "# -- Base images" ;
   "# Pinned to specific versions, and updated by Renovate" ;
   "node:" ;
   "  FROM node:8.11.3-alpine@sha256:d743b4141b02fcfb8beb68f92b4cd164f60ee457bf2d053f36785bf86de16b0d" ;
   "" ;
   "puppeteer:" ;
   "  FROM buildkite/puppeteer:1.1.1" ;
   "" ;
   "production:" ;
   "  # -- Production environment" ;
   "  FROM    +node" ;
   "  ENV     NODE_ENV=production" ;
   "  EXPOSE  3000" ;
   "  WORKDIR /app" ;
   "  COPY    package.json yarn.lock .yarnclean /app/" ;
   "  RUN     apk --no-cache --virtual build-dependencies add python make g++ && \" ;
   "          yarn install --frozen-lockfile --silent && \" ;
   "          apk del build-dependencies" ;
   "  COPY    . /app" ;
   "  RUN     yarn run build" ;
   ("  CMD     [" ++ String DQUOTE "" ++ "yarn" ++ String DQUOTE "" ++ ", " ++ String DQUOTE "" ++ "run" ++ String DQUOTE "" ++ ", " ++ String DQUOTE "" ++ "start" ++ String DQUOTE "" ++ "]") ;
   "" ;
   "# -- Development" ;
   "# We can just override NODE_ENV and re-run install to get the additional dev" ;
   "# deps." ;
   "development:" ;
   "  FROM +production" ;
   "  ENV  NODE_ENV=development" ;
   "  RUN  yarn install" ;
   "" ;
   "# -- Test" ;
   "# Same deps as development" ;
   "test:" ;
   "  FROM --platform=linux/amd64 alpine:3.18" ;
   "  RUN echo hello" ;
   "" ;
   "# -- Integration tests" ;
   "# Has headless chrome and puppeteer, and adds in Mocha so we can run our tests" ;
   "# directly inside it" ;
   "" ;
   "integration-tests:" ;
   "  FROM +puppeteer" ;
   "  RUN  npm i -g mocha@5" ;
   ("  ENV  PATH=" ++ String DQUOTE "" ++ "${PATH}:/node_modules/.bin" ++ String DQUOTE "" ++ "") ;
   "" ;
   "" ;
   "" ].

(** Name, value, digest and target of a descriptor. *)
Definition summary (d : PackageDependency)
  : option string * option string * option string * option string :=
  (depName d, currentValue d, currentDigest d, depType d).

(** ** The file names of the manager

    [defaultConfig.fileMatch] of [index.ts]: the patterns a file path is
    tested against. Their groups capture nothing that is read, so they
    are written as plain alternatives. *)

(** ['(^|/)Earthfile$'] *)
Definition earthfilePattern : re :=
  seq [Alt Bol (Chr "/"); lit "Earthfile"; Eol].

(** ['(^|/|).+?\\.earth$'] *)
Definition earthSuffixPattern : re :=
  seq [alt [Bol; Chr "/"; Eps]; plusLazy Any; lit ".earth"; Eol].

Definition fileMatch : list re := [earthfilePattern; earthSuffixPattern].

(** ** Vocabulary of the further properties *)

(** The fields that say which dependency a descriptor is: all of them
    but the replace string and its template. *)
Definition sameIdentity (d d' : PackageDependency) : Prop :=
  depName d' = depName d /\ packageName d' = packageName d
  /\ currentValue d' = currentValue d /\ currentDigest d' = currentDigest d
  /\ datasource d' = datasource d /\ versioning d' = versioning d
  /\ depType d' = depType d /\ skipReason d' = skipReason d.

(** A range that [processDepForAutoReplace] cannot walk: a value that is
    not an array, or a range with an end outside of [lines] while the
    descriptor has a value or a digest to look for. *)
Definition unreadable (dep : PackageDependency) (lines : list string)
    (rv : rangeValue) : Prop :=
  match rv with
  | NotIterable => True
  | Range a b =>
      (Js.isString (currentValue dep) || Js.isString (currentDigest dep)) = true
      /\ (List.length lines <= a \/ List.length lines <= b)
  end.

(** A line holds the value or the digest of a descriptor. *)
Definition mentions (dep : PackageDependency) (line : string) : bool :=
  match currentValue dep with Some v => Js.includes line v | None => false end
  || match currentDigest dep with Some g => Js.includes line g | None => false end.

(** The first test of [getDep]: no string, or a blank one. *)
Definition blankReference (currentFrom : option string) : bool :=
  match currentFrom with
  | Some s => Js.allSpace s
  | None => true
  end.

(** The steps of [getDep] that follow [splitImageParts]. *)
Definition plainSteps (isVersion : option string -> bool)
    (specifyReplaceString : bool) (currentFrom : string)
    (d : PackageDependency) : PackageDependency :=
  hideQuayPort (assignVersioning isVersion (prettyPrefixes specifyReplaceString
    (setDatasource (Some DockerDatasourceId)
       (specifyReplace specifyReplaceString currentFrom d)))).

(** The fields those steps never write. *)
Definition sameCore (d d' : PackageDependency) : Prop :=
  currentValue d' = currentValue d /\ currentDigest d' = currentDigest d
  /\ datasource d' = datasource d /\ depType d' = depType d
  /\ skipReason d' = skipReason d.

(** Every character of [s] passes the test [ok]. *)
Fixpoint allOk (ok : ascii -> bool) (s : string) : bool :=
  match s with
  | "" => true
  | String c t => ok c && allOk ok t
  end.

(** The text [r] does not go on with a character that passes [ok]. *)
Definition stopsAt (ok : ascii -> bool) (r : string) : Prop :=
  match r with
  | "" => True
  | String c _ => ok c = false
  end.

(** The test of a pattern that reads exactly one code unit. *)
Definition reads (f : flags) (r : re) : option (ascii -> bool) :=
  match r with
  | Chr p => Some (chrEq f p)
  | Cls neg items => Some (fun c => xorb neg (clsHas f items c))
  | Any => Some (fun c => negb (isLineTerminator c))
  | _ => None
  end.

(** The bounds of a quantifier are in order. *)
Definition boundOk (min : nat) (max : option nat) : Prop :=
  match max with Some k => min <= k | None => True end.

(** What [.] reads, what [\S] reads, what [[^\s\+]] reads and what
    [[0-9]] reads. *)
Definition anyOk (c : ascii) : bool := negb (isLineTerminator c).
Definition nonSpaceOk (c : ascii) : bool := negb (isSpace c).
Definition imageOk (c : ascii) : bool := negb (isSpace c) && negb (Ascii.eqb c "+").
Definition isDigit (c : ascii) : bool := inRange "0" "9" c.

(** The end of [defaultValueRegex], after the group. *)
Definition closing : re := Seq (opt (Chr DQUOTE)) (Seq (Chr "}") Eol).

(** A default value that [defaultValueRegex] reads as it is written: not
    empty, on one line, and without a double quote at either end. *)
Definition plainDefault (value : string) : Prop :=
  value <> "" /\ allOk anyOk value = true
  /\ Js.firstChar value <> Some DQUOTE /\ Js.lastChar value <> Some DQUOTE.

(** The port of [quayRegex]. *)
Definition quayPort : re :=
  seq [Chr ":"; Cls false [CRange "1" "9"];
       Rep true 0 (Some 4) (Cls false [CRange "0" "9"])].

(** [v] is a part of [s]. *)
Definition substring (v s : string) : Prop := exists pre post, s = pre ++ v ++ post.

(** The shape of a candidate image of an instruction. *)
Definition candidate (instruction image : string) : Prop :=
  image <> "" /\ allOk imageOk image = true /\ substring image instruction.

(** The keywords of [argRegex]. *)
Definition declarationKeywords : list string := ["ARG"; "LET"; "SET"].

(** What [argRegex] allows between the keyword and the name. *)
Definition separators : re :=
  alt [escapedNewline; Chr " "; lit "--global"; Chr TAB; commentToEol].

(** What [fromRegex] allows between the keyword and the image. *)
Definition fromSeparators : re :=
  alt [escapedNewline; Chr " "; Chr TAB; commentToEol;
       Seq (lit "--platform=") (plus nonSpace);
       lit "--allow-privileged"].

(** A first character with which none of them starts. *)
Definition imageStart (c : ascii) : bool :=
  negb (Ascii.eqb c "\") && negb (Ascii.eqb c "#") && negb (Ascii.eqb c "-").

(** What [targetRegex] wants after the colon of a target. *)
Definition targetEnd : re := plus (alt [Eol; Chr LF; Chr TAB; space]).

(** What every descriptor of a file has: it is skipped or named, it
    carries the target of its instruction, and it names the docker
    datasource unless its reference was blank. *)
Definition wellFormed (d : PackageDependency) : Prop :=
  skippedOrNamed d /\ Js.truthy (depType d) = true
  /\ (datasource d = Some DockerDatasourceId <-> skipReason d <> Some InvalidValue).

(** The invariant of the loop over the lines. *)
Definition goodState (st : ScanState) : Prop :=
  currentTarget st <> "" /\ Forall wellFormed (found st).

(** * Verification *)

(** ** Facts about strings *)

Section StringFacts.

Lemma app_empty_r (s : string) : s ++ "" = s.
Proof. induction s as [|c s IH]; simpl; [reflexivity | now rewrite IH]. Qed.

Lemma app_assoc (a b c : string) : (a ++ b) ++ c = a ++ b ++ c.
Proof. induction a as [|x a IH]; simpl; [reflexivity | now rewrite IH]. Qed.

Lemma length_app (a b : string) :
  String.length (a ++ b) = String.length a + String.length b.
Proof. induction a as [|x a IH]; simpl; [reflexivity | now rewrite IH]. Qed.

Lemma startsWith_app (p r : string) : Js.startsWith (p ++ r) p = true.
Proof.
  induction p as [|c p IH]; simpl; [reflexivity |].
  now rewrite Ascii.eqb_refl.
Qed.

Lemma startsWith_split (s p : string) :
  Js.startsWith s p = true -> exists r, s = p ++ r.
Proof.
  revert s. induction p as [|c p IH]; intros s H.
  - now exists s.
  - destruct s as [|d s]; simpl in H; [discriminate |].
    apply andb_prop in H as [E H]. apply Ascii.eqb_eq in E as ->.
    destruct (IH _ H) as [r ->]. now exists r.
Qed.

Lemma take_app (a b : string) : Js.take (String.length a) (a ++ b) = a.
Proof. induction a as [|c a IH]; simpl; [now destruct b | now rewrite IH]. Qed.

Lemma drop_app (a b : string) : Js.drop (String.length a) (a ++ b) = b.
Proof. induction a as [|c a IH]; simpl; [now destruct b | exact IH]. Qed.

Lemma take_drop (n : nat) (s : string) : Js.take n s ++ Js.drop n s = s.
Proof.
  revert s. induction n as [|n IH]; intros [|c s]; simpl; try reflexivity.
  now rewrite IH.
Qed.

Lemma includes_char (c : ascii) (s : string) :
  Js.includes s (String c "") = occurs c s.
Proof.
  induction s as [|d s IH]; simpl; [reflexivity |].
  now rewrite IH, andb_true_r.
Qed.

Lemma occurs_app (c : ascii) (a b : string) :
  occurs c (a ++ b) = occurs c a || occurs c b.
Proof.
  induction a as [|d a IH]; simpl; [reflexivity |].
  now rewrite IH, orb_assoc.
Qed.

Lemma includes_empty (s : string) : Js.includes s "" = true.
Proof. now destruct s. Qed.

(** A string that holds the variable marker is not blank. *)
Lemma marker_not_blank (s : string) :
  Js.includes s variableMarker = true -> Js.allSpace s = false.
Proof.
  unfold variableMarker. rewrite includes_char.
  induction s as [|d s IH]; simpl; [discriminate |].
  destruct (Ascii.eqb_spec d "$") as [-> | _]; simpl; [reflexivity |].
  intros H. rewrite (IH H). apply andb_false_r.
Qed.

(** *** [split] and [join] *)

Lemma split_nonempty (c : ascii) (s : string) : Js.split c s <> [].
Proof.
  destruct s as [|d s]; simpl; [discriminate |].
  destruct (Ascii.eqb d c); [discriminate |].
  destruct (Js.split c s); discriminate.
Qed.

Lemma split_absent (c : ascii) (s : string) :
  occurs c s = false -> Js.split c s = [s].
Proof.
  induction s as [|d s IH]; simpl; [reflexivity |].
  destruct (Ascii.eqb d c); simpl; [discriminate |].
  intros H. now rewrite (IH H).
Qed.

Lemma split_cons (c d : ascii) (s : string) :
  Ascii.eqb d c = false ->
  Js.split c (String d s) =
  String d (hd "" (Js.split c s)) :: tl (Js.split c s).
Proof.
  intros H. simpl. rewrite H.
  destruct (Js.split c s) eqn:E; [now elim (split_nonempty c s) | reflexivity].
Qed.

(** Splitting a text with a separator in the middle: the parts of the
    left, then the parts of the right. *)
Lemma split_app (c : ascii) (a b : string) :
  Js.split c (a ++ String c b) = (Js.split c a ++ Js.split c b)%list.
Proof.
  induction a as [|d a IH].
  - simpl. now rewrite Ascii.eqb_refl.
  - change (String d a ++ String c b) with (String d (a ++ String c b)).
    destruct (Ascii.eqb d c) eqn:E.
    + simpl. rewrite E, IH. reflexivity.
    + rewrite !split_cons, IH by exact E.
      destruct (Js.split c a) eqn:Ea; [now elim (split_nonempty c a) |].
      reflexivity.
Qed.

Lemma join_split (c : ascii) (s : string) :
  Js.join (String c "") (Js.split c s) = s.
Proof.
  unfold Js.join. induction s as [|d s IH]; simpl; [reflexivity |].
  destruct (Ascii.eqb_spec d c) as [-> | ne].
  - destruct (Js.split c s) eqn:E; [now elim (split_nonempty c s) |].
    simpl. simpl in IH. now rewrite IH.
  - destruct (Js.split c s) as [|h r] eqn:E; [now elim (split_nonempty c s) |].
    destruct r; simpl in *; now rewrite <- IH.
Qed.

End StringFacts.

(** ** Facts about the matcher *)

Section MatcherFacts.
Import Regex.

Lemma suffixOf_refl (s : string) : suffixOf s s.
Proof. now exists "". Qed.

Lemma suffixOf_trans (a b c : string) :
  suffixOf a b -> suffixOf b c -> suffixOf a c.
Proof.
  intros [p ->] [q ->]. exists (q ++ p). now rewrite app_assoc.
Qed.

Lemma suffixOf_length (q s : string) :
  suffixOf q s -> String.length q <= String.length s.
Proof. intros [p ->]. rewrite length_app. lia. Qed.

Lemma suffixOf_occurs (c : ascii) (q s : string) :
  suffixOf q s -> occurs c s = false -> occurs c q = false.
Proof.
  intros [p ->]. rewrite occurs_app. intros H.
  now apply orb_false_elim in H.
Qed.

Lemma step_inv (ok : ascii -> bool) (x y : mstate) :
  In y (step ok x) ->
  exists c, rest x = String c (rest y) /\ ok c = true /\ y = advance x c (rest y).
Proof.
  unfold step. destruct (rest x) as [|c t] eqn:E; [intros [] |].
  destruct (ok c) eqn:O; [| intros []].
  intros [<- | []]. now exists c.
Qed.

Lemma step_suffix (ok : ascii -> bool) (x y : mstate) :
  In y (step ok x) -> suffixOf (rest y) (rest x).
Proof.
  intros H. destruct (step_inv _ _ _ H) as (c & E & _).
  exists (String c ""). now rewrite E.
Qed.

Lemma flat_map_same {A B : Type} (f g : A -> list B) (l : list A) :
  (forall a, In a l -> f a = g a) -> flat_map f l = flat_map g l.
Proof.
  induction l as [|a l IH]; intros H; simpl; [reflexivity |].
  rewrite (H a), IH; auto using in_eq, in_cons.
Qed.

Lemma flat_map_none {A B : Type} (f : A -> list B) (l : list A) :
  (forall a, In a l -> f a = []) -> flat_map f l = [].
Proof.
  induction l as [|a l IH]; intros H; simpl; [reflexivity |].
  rewrite (H a), IH; auto using in_eq, in_cons.
Qed.

(** One turn of [repeatMatcher]. *)
Lemma repeatMatcher_S (m : mstate -> list mstate) (names : list string)
    (greedy : bool) (fuel min : nat) (max : option nat) (x : mstate) :
  repeatMatcher m names greedy (S fuel) min max x
  = match max with
    | Some 0 => [x]
    | _ =>
        let again := flat_map (fun y =>
          if (min =? 0)%nat && negb (remaining y <? remaining x)%nat then []
          else repeatMatcher m names greedy fuel (pred min) (predMax max) y)
          (m (capClear names x)) in
        if (min =? 0)%nat then
          if greedy then (again ++ [x])%list else x :: again
        else again
    end.
Proof. reflexivity. Qed.

Section Repeat.
Variable m : mstate -> list mstate.
Variable names : list string.
Variable greedy : bool.
Hypothesis m_suffix : forall x y, In y (m x) -> suffixOf (rest y) (rest x).

Lemma repeatMatcher_suffix (fuel min : nat) (max : option nat) (x y : mstate) :
  In y (repeatMatcher m names greedy fuel min max x) ->
  suffixOf (rest y) (rest x).
Proof.
  revert min max x. induction fuel as [|fuel IH]; intros min max x; simpl.
  - intros [].
  - assert (again : forall l,
      In y (flat_map (fun z =>
        if (min =? 0)%nat && negb (remaining z <? remaining x)%nat then []
        else repeatMatcher m names greedy fuel (pred min) l z)
        (m (capClear names x))) -> suffixOf (rest y) (rest x)).
    { intros l H. apply in_flat_map in H as (z & Hz & Hy).
      destruct ((min =? 0)%nat && negb (remaining z <? remaining x)%nat);
        [destruct Hy |].
      eapply suffixOf_trans; [exact (IH _ _ _ Hy) |].
      exact (m_suffix _ _ Hz). }
    assert (here : In y [x] -> suffixOf (rest y) (rest x)).
    { intros [<- | []]. apply suffixOf_refl. }
    destruct max as [[|k]|]; [exact here | |];
      (destruct (min =? 0)%nat; [destruct greedy |]);
      intros H; try apply in_app_or in H; try destruct H as [H | H];
      eauto; try (subst; apply suffixOf_refl).
Qed.

(** Any fuel above [min] plus the remaining input yields the same
    matches: the fuel [matches] passes never runs out. *)
Lemma repeatMatcher_fuel (n1 n2 min : nat) (max : option nat) (x : mstate) :
  min + remaining x < n1 -> min + remaining x < n2 ->
  repeatMatcher m names greedy n1 min max x =
  repeatMatcher m names greedy n2 min max x.
Proof.
  revert n2 min max x.
  induction n1 as [|n1 IH]; intros [|n2] min max x H1 H2; try lia.
  rewrite !repeatMatcher_S.
  assert (again : forall l,
    flat_map (fun y =>
      if (min =? 0)%nat && negb (remaining y <? remaining x)%nat then []
      else repeatMatcher m names greedy n1 (pred min) l y)
      (m (capClear names x))
    = flat_map (fun y =>
      if (min =? 0)%nat && negb (remaining y <? remaining x)%nat then []
      else repeatMatcher m names greedy n2 (pred min) l y)
      (m (capClear names x))).
  { intros l. apply flat_map_same. intros z Hz.
    apply m_suffix, suffixOf_length in Hz. fold (remaining z) in Hz.
    change (String.length (rest (capClear names x))) with (remaining x) in Hz.
    destruct (min =? 0)%nat eqn:E0; cbn [andb].
    - destruct (remaining z <? remaining x)%nat eqn:E1; cbn [negb];
        [| reflexivity].
      apply Nat.eqb_eq in E0. apply Nat.ltb_lt in E1. apply IH; lia.
    - apply Nat.eqb_neq in E0. apply IH; lia. }
  destruct max as [[|k]|]; cbv zeta; now rewrite ?again.
Qed.

End Repeat.

Theorem matches_suffix (f : flags) (r : re) (x y : mstate) :
  In y (matches f r x) -> suffixOf (rest y) (rest x).
Proof.
  revert x y. induction r as [| p | neg items | | | | a IHa b IHb | a IHa b IHb
                              | greedy min max a IHa | name a IHa];
    intros x y; simpl.
  - intros [<- | []]. apply suffixOf_refl.
  - apply step_suffix.
  - apply step_suffix.
  - apply step_suffix.
  - destruct (prev x) as [c|]; [destruct (multiline f && isLineTerminator c) |];
      first [intros [<- | []]; apply suffixOf_refl | intros []].
  - destruct (rest x) as [|c t] eqn:E;
      [| destruct (multiline f && isLineTerminator c)];
      first [intros [<- | []]; rewrite E; apply suffixOf_refl | intros []].
  - intros H. apply in_flat_map in H as (z & Hz & Hy).
    eapply suffixOf_trans; eauto.
  - intros H. apply in_app_or in H as [H | H]; eauto.
  - apply repeatMatcher_suffix. exact IHa.
  - intros H. apply in_map_iff in H as (z & <- & Hz). simpl. eauto.
Qed.

Corollary matches_remaining (f : flags) (r : re) (x y : mstate) :
  In y (matches f r x) -> remaining y <= remaining x.
Proof. intros H. apply suffixOf_length. exact (matches_suffix _ _ _ _ H). Qed.

(** The fuel of a repetition is enough: more fuel changes nothing. *)
Theorem repetition_fuel_enough (f : flags) (greedy : bool) (min : nat)
    (max : option nat) (a : re) (x : mstate) (extra : nat) :
  repeatMatcher (matches f a) (groupNames a) greedy
    (min + S (remaining x) + extra) min max x
  = matches f (Rep greedy min max a) x.
Proof.
  simpl. apply repeatMatcher_fuel; try lia. apply matches_suffix.
Qed.

End MatcherFacts.

(** ** The loops over a global pattern *)

Lemma step_reads (ok : ascii -> bool) (x y : mstate) :
  In y (step ok x) -> remaining y < remaining x.
Proof.
  intros H. destruct (step_inv _ _ _ H) as (c & E & _).
  unfold remaining. rewrite E. simpl. lia.
Qed.

Theorem consuming_reads (f : flags) (r : re) (x y : mstate) :
  consuming r = true -> In y (matches f r x) -> remaining y < remaining x.
Proof.
  revert x y. induction r as [| p | neg items | | | | a IHa b IHb | a IHa b IHb
                              | greedy min max a IHa | name a IHa];
    intros x y C; try discriminate C; cbn [matches].
  - apply step_reads.
  - apply step_reads.
  - apply step_reads.
  - intros H. apply in_flat_map in H as (z & Hz & Hy).
    assert (Lz := matches_remaining _ _ _ _ Hz).
    assert (Ly := matches_remaining _ _ _ _ Hy).
    simpl in C. apply orb_prop in C as [C | C].
    + specialize (IHa _ _ C Hz). lia.
    + specialize (IHb _ _ C Hy). lia.
  - simpl in C. apply andb_prop in C as [Ca Cb].
    intros H. apply in_app_or in H as [H | H]; eauto.
  - destruct min as [|min]; [discriminate C |].
    cbn [Nat.add]. rewrite repeatMatcher_S. cbn [Nat.eqb andb].
    assert (again : forall l,
      In y (flat_map (fun z => repeatMatcher (matches f a) (groupNames a) greedy
                                 (min + S (remaining x)) (Nat.pred (S min)) l z)
              (matches f a (capClear (groupNames a) x))) ->
      remaining y < remaining x).
    { intros l H. apply in_flat_map in H as (z & Hz & Hy).
      assert (C' : consuming a = true) by (destruct max as [[|k]|]; easy).
      specialize (IHa _ _ C' Hz).
      apply repeatMatcher_suffix in Hy; [| apply matches_suffix].
      apply suffixOf_length in Hy. unfold remaining in *. simpl in IHa. lia. }
    destruct max as [[|k]|]; [discriminate C | apply again | apply again].
  - intros H. apply in_map_iff in H as (z & <- & Hz).
    simpl in C. specialize (IHa _ _ C Hz). exact IHa.
Qed.

Lemma length_take (n : nat) (s : string) :
  n <= String.length s -> String.length (Js.take n s) = n.
Proof.
  revert s. induction n as [|n IH]; intros [|c s] H; simpl in *; try lia.
  now rewrite IH by lia.
Qed.

Lemma matchAt_nonempty (f : flags) (r : re) (p : option ascii) (i : nat)
    (s : string) (m : Regex.found) :
  consuming r = true -> matchAt f r p i s = Some m ->
  0 < String.length (matched m).
Proof.
  intros C. unfold matchAt.
  destruct (matches f r {| prev := p; rest := s; caps := [] |}) as [|y o] eqn:E;
    [discriminate |].
  intros [= <-]. cbn [matched].
  assert (H : remaining y < String.length s).
  { apply (consuming_reads f r {| prev := p; rest := s; caps := [] |} y C).
    rewrite E. now left. }
  rewrite length_take; lia.
Qed.

Lemma execAllFrom_nonempty (f : flags) (r : re) (s : string)
    (p : option ascii) (i skip : nat) (m : Regex.found) :
  consuming r = true -> In m (execAllFrom f r p i skip s) -> matched m <> "".
Proof.
  intros C. revert p i skip.
  induction s as [|c s IH]; intros p i skip; destruct skip;
    cbn [execAllFrom]; try apply IH; try (intros []; fail).
  - destruct (matchAt f r p i "") as [m'|] eqn:E; cbv iota; [| intros []].
    intros [<- | []]. apply (matchAt_nonempty _ _ _ _ _ _ C) in E.
    intros Z. rewrite Z in E. simpl in E. lia.
  - destruct (matchAt f r p i (String c s)) as [m'|] eqn:E; cbv iota;
      [| apply IH].
    intros [<- | H]; [| eapply IH; exact H].
    apply (matchAt_nonempty _ _ _ _ _ _ C) in E.
    intros Z. rewrite Z in E. simpl in E. lia.
Qed.

(** No match that the loop over a consuming pattern collects is empty,
    so every search resumes further on. *)
Theorem execAll_nonempty (f : flags) (r : re) (s : string) (m : Regex.found) :
  consuming r = true -> In m (execAll f r s) -> matched m <> "".
Proof. apply execAllFrom_nonempty. Qed.

Corollary global_patterns_consume :
  consuming variableRegex = true /\ consuming imageRegex = true.
Proof. split; reflexivity. Qed.

(** Past the last line the lookahead is the empty string, and the
    [while] loop of the continuation lines stops on it. *)
Lemma continues_past_end (instruction : string) :
  continues instruction "" = false.
Proof.
  unfold continues.
  replace (test flag_m lineContinuationRegex "") with false by reflexivity.
  apply andb_false_r.
Qed.

(** ** The extraction of a file *)



(** No list that [extractPackageFile] returns is empty. *)
Lemma extractPackageFile_never_empty
    (isVersion : option string -> bool) (config : ExtractConfig)
    (content : string) :
  extractPackageFile isVersion config content <> Ok (Some {| deps := [] |}).
Proof.
  unfold extractPackageFile.
  destruct (extractDeps isVersion config content) as [[|d ds]|e]; simpl;
    discriminate.
Qed.

(** The Earthfile of the fixtures: three images, each under its target;
    the [FROM +target] references are not images. *)
Example fixture_descriptors (isVersion : option string -> bool) :
  exists found,
    extractPackageFile isVersion noAliases fixture
    = Ok (Some {| deps := found |})
    /\ map summary found
       = [(Some "node", Some "8.11.3-alpine",
           Some "sha256:d743b4141b02fcfb8beb68f92b4cd164f60ee457bf2d053f36785bf86de16b0d",
           Some "node");
          (Some "buildkite/puppeteer", Some "1.1.1", None, Some "puppeteer");
          (Some "alpine", Some "3.18", None, Some "test")].
Proof. eexists. split; vm_compute; reflexivity. Qed.


(** C9. [FROM alpine:3.18] without a target header before it yields one
    descriptor: name [alpine], value [3.18], the docker datasource, and
    the type [base], which is the target in force before any header. *)
Theorem from_alpine_descriptor (isVersion : option string -> bool) :
  currentTarget initialState = "base"
  /\ exists d,
       extractPackageFile isVersion noAliases "FROM alpine:3.18"
       = Ok (Some {| deps := [d] |})
       /\ depName d = Some "alpine"
       /\ currentValue d = Some "3.18"
       /\ currentDigest d = None
       /\ datasource d = Some DockerDatasourceId
       /\ depType d = Some "base"
       /\ skipReason d = None.
Proof.
  split; [reflexivity |].
  eexists. split; [vm_compute; reflexivity |].
  repeat split.
Qed.

(** C4, as stated, fails: the replace string of the descriptor does not
    reach the [FROM] line. *)
Lemma arg_then_from_not_both_lines :
  ~ exists d r,
      extractPackageFile neverDebian noAliases argThenFrom
      = Ok (Some {| deps := [d] |})
      /\ depName d = Some "golang"
      /\ currentValue d = Some "1.20"
      /\ replaceString d = Some r
      /\ Js.includes r "ARG BASE=golang:1.20" = true
      /\ Js.includes r "FROM ${BASE}" = true.
Proof.
  intros (d & r & E & _ & _ & R & _ & F).
  vm_compute in E. injection E as <-.
  injection R as <-. vm_compute in F. discriminate.
Qed.

(** C4, amended. [ARG BASE=golang:1.20] followed by [FROM ${BASE}] yields
    one descriptor, [golang] at [1.20], whose replace string is the [ARG]
    line alone, the only line that holds the value, with the line feed
    after it. *)
Theorem arg_then_from_descriptor (isVersion : option string -> bool) :
  exists d,
    extractPackageFile isVersion noAliases argThenFrom
    = Ok (Some {| deps := [d] |})
    /\ depName d = Some "golang"
    /\ currentValue d = Some "1.20"
    /\ skipReason d = None
    /\ replaceString d = Some ("ARG BASE=golang:1.20" ++ NL).
Proof.
  eexists. split; [vm_compute; reflexivity |].
  repeat split.
Qed.

(** C7 does not hold of the code: extraction throws on a file whose last
    line is an instruction with a tag and a trailing continuation marker.
    The instruction is folded one line past the end of the file, and
    [processDepForAutoReplace] reads that line. *)
Theorem trailing_continuation_throws (isVersion : option string -> bool) :
  extractPackageFile isVersion noAliases "FROM alpine:3.18 \" = Throw TypeError.
Proof. vm_compute. reflexivity. Qed.

(** The same file without a tag is extracted: the missing line is read
    only to look for a value or a digest. *)
Example trailing_continuation_no_tag :
  extractDeps neverDebian noAliases "FROM alpine \"
  = Ok [setDepType (Some "base")
          (getDep neverDebian (Some "alpine") true [])].
Proof. vm_compute. reflexivity. Qed.

(** A variable named as a member of [Object.prototype] resolves to that
    member, and the range pushed for it cannot be iterated. *)
Example prototype_name_throws :
  extractPackageFile neverDebian noAliases "FROM $constructor" = Throw TypeError.
Proof. vm_compute. reflexivity. Qed.

(** ** Splitting an image reference *)

Lemma cleanCurrentFrom_plain (s : string) :
  Js.includes s variableMarker = false -> cleanCurrentFrom s = (false, s).
Proof. intros H. unfold cleanCurrentFrom. now rewrite H. Qed.

(** Without a variable marker [splitImageParts] goes straight to the
    split. *)
Lemma splitImageParts_plain (s : string) :
  occurs "$" s = false ->
  splitImageParts s =
  let atParts := Js.split "@" s in
  let currentDepTag := nth 0 atParts "" in
  let depTagSplit := Js.split ":" currentDepTag in
  let nameAndValue :=
    if (List.length depTagSplit =? 1)%nat || occurs "/" (last depTagSplit "")
    then (currentDepTag, None)
    else (Js.join ":" (removelast depTagSplit), Some (last depTagSplit "")) in
  {| depName := Some (fst nameAndValue); packageName := None;
     currentValue := snd nameAndValue; currentDigest := nth_error atParts 1;
     datasource := None; versioning := None; depType := None;
     skipReason := None; replaceString := None;
     autoReplaceStringTemplate := None |}.
Proof.
  intros H. rewrite <- includes_char in H.
  unfold splitImageParts. rewrite (cleanCurrentFrom_plain s H).
  unfold variableMarker in *. rewrite H. cbv zeta. simpl andb. cbv iota.
  rewrite includes_char.
  destruct ((List.length (Js.split ":" (nth 0 (Js.split "@" s) "")) =? 1)%nat
            || occurs "/" (last (Js.split ":" (nth 0 (Js.split "@" s) "")) ""));
    reflexivity.
Qed.

Lemma split_at_first (c : ascii) (a rest : string) :
  occurs c a = false ->
  rest = "" \/ Js.startsWith rest (String c "") = true ->
  nth 0 (Js.split c (a ++ rest)) "" = a.
Proof.
  intros Ha [-> | H].
  - now rewrite app_empty_r, split_absent.
  - destruct (startsWith_split _ _ H) as [r ->].
    change (String c "" ++ r) with (String c r).
    now rewrite split_app, split_absent.
Qed.

Lemma second_part (c : ascii) (a b more : string) :
  occurs c a = false -> occurs c b = false ->
  more = "" \/ Js.startsWith more (String c "") = true ->
  nth_error (Js.split c (a ++ String c (b ++ more))) 1 = Some b.
Proof.
  intros Ha Hb Hm. rewrite split_app, (split_absent c a Ha). simpl.
  destruct Hm as [-> | H].
  - now rewrite app_empty_r, split_absent.
  - destruct (startsWith_split _ _ H) as [r ->].
    change (String c "" ++ r) with (String c r).
    now rewrite split_app, split_absent.
Qed.

Lemma split_last_segment (c : ascii) (a b : string) :
  occurs c b = false ->
  let parts := Js.split c (a ++ String c b) in
  last parts "" = b /\ removelast parts = Js.split c a
  /\ (List.length parts =? 1)%nat = false.
Proof.
  intros Hb parts. unfold parts. rewrite split_app, (split_absent c b Hb).
  repeat split.
  - apply last_last.
  - apply removelast_last.
  - rewrite List.length_app. simpl.
    destruct (Js.split c a) eqn:E; [now elim (split_nonempty c a) |].
    simpl. apply Nat.eqb_neq. lia.
Qed.

(** C6, as stated, fails on a reference with two [@]: the digest is the
    text between them, and what follows the second is dropped. *)
Lemma digest_not_after_last_at :
  let s := "app:1.2@sha256:aa@sha256:bb" in
  let d := splitImageParts s in
  currentDigest d = Some "sha256:aa"
  /\ currentDigest d <> Some (afterLastAt s)
  /\ depName d <> Some (beforeLastAt s).
Proof. vm_compute. repeat split; discriminate. Qed.

(** C6, amended. A reference without variable is split at its first [@]:
    what precedes it is the name-and-tag part, and the digest is the text
    from there to the next [@] or to the end, absent when there is no
    [@]. The name-and-tag part is split on [:]: its final segment is the
    tag, unless it holds a [/] or is the only segment, and then the whole
    part is the name and there is no tag. *)
Theorem splitImageParts_parts (depTag rest : string) :
  occurs "$" (depTag ++ rest) = false ->
  occurs "@" depTag = false ->
  rest = "" \/ Js.startsWith rest "@" = true ->
  let d := splitImageParts (depTag ++ rest) in
  skipReason d = None
  /\ (rest = "" -> currentDigest d = None)
  /\ (forall digest more,
        rest = "@" ++ digest ++ more -> occurs "@" digest = false ->
        more = "" \/ Js.startsWith more "@" = true ->
        currentDigest d = Some digest)
  /\ (occurs ":" depTag = false ->
      depName d = Some depTag /\ currentValue d = None)
  /\ (forall name segment,
        depTag = name ++ ":" ++ segment -> occurs ":" segment = false ->
        if occurs "/" segment
        then depName d = Some depTag /\ currentValue d = None
        else depName d = Some name /\ currentValue d = Some segment).
Proof.
  intros Hvar Hat Hrest d. subst d.
  rewrite (splitImageParts_plain _ Hvar). cbv zeta.
  rewrite (split_at_first "@" depTag rest Hat Hrest).
  split; [reflexivity |]. split; [| split; [| split]].
  - intros ->. simpl. now rewrite app_empty_r, split_absent.
  - intros digest more -> Hd Hm. simpl currentDigest.
    now apply second_part.
  - intros Hc. rewrite (split_absent ":" depTag Hc). simpl. now split.
  - intros name segment -> Hs.
    destruct (split_last_segment ":" name segment Hs) as (L & R & N).
    change (":" ++ segment) with (String ":" segment).
    simpl depName. simpl currentValue.
    rewrite L, R, N. simpl orb.
    destruct (occurs "/" segment); simpl; [now split |].
    now rewrite join_split.
Qed.

(** A registry with a port, a tag and two digests. *)
Lemma splitImageParts_parts_witness :
  let d := splitImageParts "registry:5000/app:1.2@sha256:aa@sha256:bb" in
  skipReason d = None
  /\ currentDigest d = Some "sha256:aa"
  /\ depName d = Some "registry:5000/app"
  /\ currentValue d = Some "1.2".
Proof.
  destruct (splitImageParts_parts "registry:5000/app:1.2" "@sha256:aa@sha256:bb"
              eq_refl eq_refl (or_intror eq_refl)) as (S & _ & D & _ & T).
  specialize (D "sha256:aa" "@sha256:bb" eq_refl eq_refl (or_intror eq_refl)).
  specialize (T "registry:5000/app" "1.2" eq_refl eq_refl).
  simpl in T. destruct T as [N V]. repeat split; assumption.
Defined.

(** ** Skipped and named descriptors *)

Lemma sameStatus_refl d : sameStatus d d.
Proof. split; tauto. Qed.

Lemma sameStatus_trans a b c : sameStatus a b -> sameStatus b c -> sameStatus a c.
Proof. intros [S1 N1] [S2 N2]. split; [congruence | tauto]. Qed.

Lemma sameStatus_keeps a b : sameStatus a b -> skippedOrNamed a -> skippedOrNamed b.
Proof.
  intros [S N] [[HS HN] | [HS HN]]; [left | right];
    (split; [congruence | tauto]).
Qed.

Lemma prettyPrefix_status b d p : sameStatus d (prettyPrefix b d p).
Proof.
  unfold prettyPrefix. destruct (depName d) as [n|] eqn:E.
  - destruct (Js.startsWith n (p ++ "/")); [| apply sameStatus_refl].
    destruct b; split; simpl; try reflexivity; rewrite E; split; discriminate.
  - apply sameStatus_refl.
Qed.

Lemma prettyPrefixes_status b d : sameStatus d (prettyPrefixes b d).
Proof.
  unfold prettyPrefixes. destruct (Js.truthy (depName d));
    [| apply sameStatus_refl].
  generalize specialPrefixes. intros l. revert d.
  induction l as [|p l IH]; intros d; simpl; [apply sameStatus_refl |].
  eapply sameStatus_trans; [apply prettyPrefix_status | apply IH].
Qed.

Lemma specifyReplace_status b s d : sameStatus d (specifyReplace b s d).
Proof.
  unfold specifyReplace. destruct b; [| apply sameStatus_refl].
  destruct (Js.truthy (replaceString d)); split; simpl; tauto.
Qed.

Lemma assignVersioning_status iv d : sameStatus d (assignVersioning iv d).
Proof.
  unfold assignVersioning.
  destruct (isNamed d "ubuntu");
    match goal with |- context [if ?c then _ else _] => destruct c end;
    split; simpl; tauto.
Qed.

Lemma hideQuayPort_status d : sameStatus d (hideQuayPort d).
Proof.
  unfold hideQuayPort. destruct (depName d) as [n|] eqn:E;
    [| apply sameStatus_refl].
  destruct (Js.truthy (Some n) && test flag_i quayRegex n);
    [| apply sameStatus_refl].
  destruct (String.eqb _ n); [apply sameStatus_refl |].
  split; simpl; [reflexivity |]. rewrite E. split; discriminate.
Qed.

Lemma splitImageParts_status s : skippedOrNamed (splitImageParts s).
Proof.
  unfold splitImageParts. destruct (cleanCurrentFrom s) as [isVariable cleaned].
  destruct (Js.includes s variableMarker && Js.includes cleaned variableMarker).
  - left. split; [discriminate | reflexivity].
  - right.
    match goal with |- context [if ?c then _ else _] => destruct c end;
      destruct isVariable; split; simpl; try reflexivity; discriminate.
Qed.

(** The steps of [getDep] after [splitImageParts]. *)
Lemma getDep_steps_status iv b s d :
  sameStatus d
    (hideQuayPort (assignVersioning iv (prettyPrefixes b
       (setDatasource (Some DockerDatasourceId) (specifyReplace b s d))))).
Proof.
  eapply sameStatus_trans; [apply specifyReplace_status |].
  eapply sameStatus_trans; [| apply hideQuayPort_status].
  eapply sameStatus_trans; [| apply assignVersioning_status].
  eapply sameStatus_trans; [| apply prettyPrefixes_status].
  split; simpl; tauto.
Qed.

Lemma getDepBody_status iv self cf b aliases :
  (forall s, skippedOrNamed (self s)) ->
  skippedOrNamed (getDepBody iv self cf b aliases).
Proof.
  intros Hself. unfold getDepBody.
  destruct cf as [s|]; [| left; split; [discriminate | reflexivity]].
  destruct (Js.allSpace s); [left; split; [discriminate | reflexivity] |].
  destruct (aliasMatch aliases s) as [[value name]|].
  - eapply sameStatus_keeps; [| apply (Hself (value ++ "/" ++ name))].
    split; simpl; tauto.
  - eapply sameStatus_keeps; [apply getDep_steps_status |].
    apply splitImageParts_status.
Qed.

Lemma getDepNoAlias_status iv s : skippedOrNamed (getDepNoAlias iv s).
Proof.
  unfold getDepNoAlias, getDepBody. simpl aliasMatch.
  destruct (Js.allSpace s); [left; split; [discriminate | reflexivity] |].
  eapply sameStatus_keeps; [apply getDep_steps_status |].
  apply splitImageParts_status.
Qed.

Lemma getDep_status iv cf b aliases : skippedOrNamed (getDep iv cf b aliases).
Proof. apply getDepBody_status, getDepNoAlias_status. Qed.

(** The descriptor of a skipped reference as [getDep] completes it when
    the replace string is asked for. *)
Lemma getDep_marker iv b aliases s :
  Js.includes (snd (cleanCurrentFrom s)) variableMarker = true ->
  aliasMatch aliases s = None ->
  getDep iv (Some s) b aliases
  = setDatasource (Some DockerDatasourceId)
      (specifyReplace b s (skipped ContainsVariable)).
Proof.
  intros Hclean Halias.
  assert (Hs : Js.includes s variableMarker = true).
  { destruct (Js.includes s variableMarker) eqn:E; [reflexivity |].
    rewrite (cleanCurrentFrom_plain s E) in Hclean. simpl in Hclean.
    congruence. }
  unfold getDep, getDepBody.
  rewrite (marker_not_blank s Hs), Halias.
  unfold splitImageParts.
  destruct (cleanCurrentFrom s) as [isVariable cleaned]. simpl in Hclean.
  rewrite Hs, Hclean. simpl andb. cbv iota.
  destruct b; reflexivity.
Qed.




(** ** Substituting a variable *)

Lemma getSubstitution_plain (matched before after tpl : string) :
  occurs "$" tpl = false ->
  Js.getSubstitution matched before after tpl = tpl.
Proof.
  induction tpl as [|c t IH]; simpl; [reflexivity |].
  destruct (Ascii.eqb c "$"); simpl; [discriminate |].
  intros H. now rewrite (IH H).
Qed.









(** ** The round trip of the template *)








Lemma indexOf_prefix (s p : string) :
  Js.startsWith s p = true -> Js.indexOf s p = Some 0.
Proof. intros H. destruct s; simpl; now rewrite H. Qed.

Lemma replace_prefix (p r : string) : Js.replace (p ++ r) p "" = r.
Proof.
  unfold Js.replace. rewrite indexOf_prefix by apply startsWith_app.
  simpl. replace (Js.take 0 (p ++ r)) with "" by now destruct (p ++ r).
  simpl. apply drop_app.
Qed.


Lemma prettyPrefix_idle (b : bool) (d : PackageDependency) (n p : string) :
  depName d = Some n -> Js.startsWith n (p ++ "/") = false ->
  prettyPrefix b d p = d.
Proof. intros H E. unfold prettyPrefix. now rewrite H, E. Qed.



Lemma hideQuayPort_cases (d : PackageDependency) :
  hideQuayPort d = d
  \/ exists n n',
       depName d = Some n /\ test flag_i quayRegex n = true
       /\ hideQuayPort d
          = setAutoReplaceStringTemplate (Some packageNameTemplate)
              (setDepName (Some n') (setPackageName (Some n) d)).
Proof.
  unfold hideQuayPort. destruct (depName d) as [n|]; [| now left].
  destruct (Js.truthy (Some n)); simpl; [| now left].
  destruct (test flag_i quayRegex n) eqn:T; [| now left].
  destruct (String.eqb _ n); [now left |].
  right. now exists n, (replace flag_i quayRegex n "quay.io").
Qed.













(** ** A reference to a variable that is not declared yet *)

Lemma clsHas_word (f : flags) (c : ascii) : clsHas f [CWord] c = isWord c.
Proof.
  unfold clsHas. simpl. rewrite orb_false_r.
  destruct (isWord c) eqn:W; [reflexivity |]. simpl.
  destruct (ignoreCase f); [| reflexivity]. simpl.
  assert (R := W). unfold isWord in R.
  apply orb_false_elim in R as [R _]. apply orb_false_elim in R as [R _].
  apply orb_false_elim in R as [Rl Ru].
  unfold canonicalize, lower. rewrite Rl, Ru, W. reflexivity.
Qed.

Lemma matches_word (f : flags) (x : mstate) :
  matches f word x = step isWord x.
Proof.
  unfold word. cbn [matches]. unfold step.
  destruct (rest x) as [|c t]; [reflexivity |].
  rewrite clsHas_word. reflexivity.
Qed.

Lemma step_word_end (p : option ascii) (r : string) (cs : list (string * string)) :
  wordEnds r -> step isWord {| prev := p; rest := r; caps := cs |} = [].
Proof.
  unfold step. simpl. destruct r as [|c t]; [reflexivity |].
  simpl. now intros ->.
Qed.

(** Greedy [\w*] reads a whole word first. *)
Lemma word_star (f : flags) (w r : string) :
  allWord w = true -> wordEnds r ->
  forall fuel p cs, String.length w < fuel ->
  exists others,
    repeatMatcher (matches f word) [] true fuel 0 None
      {| prev := p; rest := w ++ r; caps := cs |}
    = {| prev := prevAfter p w; rest := r; caps := cs |} :: others.
Proof.
  intros Hw Hr. induction w as [|c w IH]; intros fuel p cs Hfuel;
    (destruct fuel as [|fuel]; [simpl in Hfuel; lia |]);
    cbn [repeatMatcher Nat.eqb andb]; unfold capClear;
    cbn [fold_right prev rest caps Nat.pred predMax option_map];
    rewrite matches_word.
  - change ("" ++ r) with r. rewrite (step_word_end p r cs Hr).
    now exists [].
  - simpl in Hw. apply andb_prop in Hw as [Hc Hw].
    change (String c w ++ r) with (String c (w ++ r)).
    unfold step. cbn [rest]. rewrite Hc. cbn [flat_map].
    unfold remaining, advance. cbn [rest caps String.length].
    replace (String.length (w ++ r) <? S (String.length (w ++ r)))%nat
      with true by (symmetry; apply Nat.ltb_lt; lia).
    cbn [negb].
    destruct (IH Hw fuel (Some c) cs) as [others E];
      [simpl in Hfuel; lia |].
    rewrite E. eexists. reflexivity.
Qed.

(** Greedy [\w+] reads a whole word first, and nothing where no word
    starts. *)
Lemma word_plus (f : flags) (c : ascii) (w r : string)
    (p : option ascii) (cs : list (string * string)) :
  allWord (String c w) = true -> wordEnds r ->
  exists others,
    matches f (plus word) {| prev := p; rest := String c w ++ r; caps := cs |}
    = {| prev := prevAfter (Some c) w; rest := r; caps := cs |} :: others.
Proof.
  intros Hw Hr. simpl in Hw. apply andb_prop in Hw as [Hc Hw].
  unfold plus. cbn [matches].
  change (groupNames word) with (@nil string).
  cbn [Nat.add]. rewrite repeatMatcher_S.
  cbn [Nat.eqb andb Nat.pred predMax option_map]. unfold capClear.
  cbn [fold_right prev rest caps].
  rewrite matches_word.
  change (String c w ++ r) with (String c (w ++ r)).
  unfold step. cbn [rest]. rewrite Hc. cbn [flat_map].
  unfold advance. cbn [caps].
  match goal with
  | |- context [repeatMatcher _ _ _ ?n 0 None _] =>
      destruct (word_star f w r Hw Hr n (Some c) cs) as [others E]
  end.
  { unfold remaining. simpl. rewrite length_app. lia. }
  rewrite E. eexists. reflexivity.
Qed.

Lemma word_plus_none (f : flags) (r : string)
    (p : option ascii) (cs : list (string * string)) :
  wordEnds r ->
  matches f (plus word) {| prev := p; rest := r; caps := cs |} = [].
Proof.
  intros Hr. unfold plus. cbn [matches].
  change (groupNames word) with (@nil string).
  cbn [Nat.add]. rewrite repeatMatcher_S.
  cbn [Nat.eqb andb]. unfold capClear. cbn [fold_right prev rest caps].
  rewrite matches_word, (step_word_end p r cs Hr). reflexivity.
Qed.

Lemma firstIs_map {A B : Type} (g : A -> B) (l : list A) (a : A) :
  firstIs l a -> firstIs (map g l) (g a).
Proof. intros [o ->]. now exists (map g o). Qed.

Lemma firstIs_flat_map {A B : Type} (g : A -> list B) (l : list A) (a : A) (b : B) :
  firstIs l a -> firstIs (g a) b -> firstIs (flat_map g l) b.
Proof.
  intros [o ->] [o' E]. simpl. rewrite E. now exists (o' ++ flat_map g o)%list.
Qed.

Lemma firstIs_app {A : Type} (l l' : list A) (a : A) :
  firstIs l a -> firstIs (l ++ l') a.
Proof. intros [o ->]. now exists (o ++ l')%list. Qed.

Lemma firstIs_one {A : Type} (a : A) : firstIs [a] a.
Proof. now exists []. Qed.

(** An optional character that is not there is passed. *)
Lemma opt_chr_absent (f : flags) (ch : ascii) (p : option ascii) (s : string)
    (cs : list (string * string)) :
  match s with String d _ => chrEq f ch d = false | "" => True end ->
  matches f (opt (Chr ch)) {| prev := p; rest := s; caps := cs |}
  = [{| prev := p; rest := s; caps := cs |}].
Proof.
  intros H. unfold opt. cbn [matches groupNames Nat.add].
  rewrite repeatMatcher_S. cbn [Nat.eqb andb]. unfold capClear.
  cbn [fold_right prev rest caps]. unfold step. cbn [rest].
  destruct s as [|d t]; [reflexivity |]. now rewrite H.
Qed.

Lemma chr_read (f : flags) (ch : ascii) (p : option ascii) (t : string)
    (cs : list (string * string)) :
  chrEq f ch ch = true ->
  matches f (Chr ch) {| prev := p; rest := String ch t; caps := cs |}
  = [{| prev := Some ch; rest := t; caps := cs |}].
Proof. intros H. cbn [matches]. unfold step. cbn [rest]. now rewrite H. Qed.

Lemma chr_refused (f : flags) (ch : ascii) (p : option ascii) (s : string)
    (cs : list (string * string)) :
  match s with String d _ => chrEq f ch d = false | "" => True end ->
  matches f (Chr ch) {| prev := p; rest := s; caps := cs |} = [].
Proof.
  intros H. cbn [matches]. unfold step. cbn [rest].
  destruct s as [|d t]; [reflexivity |]. now rewrite H.
Qed.

Lemma take_all (a b : string) :
  Js.take (String.length (a ++ b) - String.length b) (a ++ b) = a.
Proof.
  rewrite length_app. replace (String.length a + String.length b - String.length b)
    with (String.length a) by lia.
  apply take_app.
Qed.

(** A word character is none of the punctuation the patterns name. *)
Lemma word_not_punct (c d : ascii) :
  isWord c = true -> isWord d = false -> Ascii.eqb d c = false.
Proof.
  intros Hc Hd. destruct (Ascii.eqb_spec d c) as [-> | _]; congruence.
Qed.

Lemma chrEq_i_punct (d c : ascii) :
  isWord d = false -> isWord c = true -> chrEq flag_i d c = false.
Proof.
  intros Hd Hc. unfold chrEq. simpl.
  assert (R := Hd). unfold isWord in R.
  apply orb_false_elim in R as [R _]. apply orb_false_elim in R as [R _].
  apply orb_false_elim in R as [Rl _].
  unfold canonicalize at 1. rewrite Rl.
  destruct (Ascii.eqb_spec d (canonicalize c)) as [E | _]; [| reflexivity].
  exfalso. unfold canonicalize in E.
  destruct (inRange "a" "z" c) eqn:L; [| subst d; congruence].
  (* d is the capital of c, a word character *)
  assert (isWord d = true); [| congruence].
  subst d. unfold isWord.
  assert (inRange "A" "Z" (ascii_of_nat (code c - 32)) = true);
    [| now rewrite H, orb_true_r].
  unfold inRange, code in *.
  apply andb_prop in L as [L1 L2].
  apply Nat.leb_le in L1, L2.
  change (nat_of_ascii "a") with 97 in L1.
  change (nat_of_ascii "z") with 122 in L2.
  rewrite nat_ascii_embedding by lia.
  change (nat_of_ascii "A") with 65. change (nat_of_ascii "Z") with 90.
  apply andb_true_intro. split; apply Nat.leb_le; lia.
Qed.

(** A group captures what its pattern has read. *)
Lemma firstIs_group (f : flags) (name : string) (a : re) (x : mstate)
    (p' : option ascii) (r' text : string) (cs' : list (string * string)) :
  firstIs (matches f a x) {| prev := p'; rest := r'; caps := cs' |} ->
  rest x = text ++ r' ->
  firstIs (matches f (Grp name a) x)
    {| prev := p'; rest := r'; caps := (name, text) :: capDel name cs' |}.
Proof.
  intros [o E] Hx. cbn [matches]. rewrite E. cbn [map].
  unfold capSet, remaining. cbn [prev rest caps]. rewrite Hx, take_all.
  eexists. reflexivity.
Qed.

Lemma firstIs_seq (f : flags) (a b : re) (x y z : mstate) :
  firstIs (matches f a x) y -> firstIs (matches f b y) z ->
  firstIs (matches f (Seq a b) x) z.
Proof. intros Ha Hb. cbn [matches]. eapply firstIs_flat_map; eassumption. Qed.

Lemma firstIs_alt_l (f : flags) (a b : re) (x y : mstate) :
  firstIs (matches f a x) y -> firstIs (matches f (Alt a b) x) y.
Proof. intros H. cbn [matches]. now apply firstIs_app. Qed.

Lemma firstIs_alt_r (f : flags) (a b : re) (x y : mstate) :
  matches f a x = [] -> firstIs (matches f b x) y ->
  firstIs (matches f (Alt a b) x) y.
Proof. intros Ha H. cbn [matches]. now rewrite Ha. Qed.

Lemma none_seq (f : flags) (a b : re) (x y : mstate) :
  matches f a x = [y] -> matches f b y = [] -> matches f (Seq a b) x = [].
Proof. intros Ha Hb. cbn [matches]. rewrite Ha. cbn [flat_map]. now rewrite Hb. Qed.

Lemma firstIs_opt_absent (f : flags) (ch : ascii) (p : option ascii)
    (s : string) (cs : list (string * string)) :
  match s with String d _ => chrEq f ch d = false | "" => True end ->
  firstIs (matches f (opt (Chr ch)) {| prev := p; rest := s; caps := cs |})
    {| prev := p; rest := s; caps := cs |}.
Proof. intros H. rewrite opt_chr_absent by exact H. apply firstIs_one. Qed.

Lemma firstIs_chr (f : flags) (ch : ascii) (p : option ascii) (t : string)
    (cs : list (string * string)) :
  chrEq f ch ch = true ->
  firstIs (matches f (Chr ch) {| prev := p; rest := String ch t; caps := cs |})
    {| prev := Some ch; rest := t; caps := cs |}.
Proof. intros H. rewrite chr_read by exact H. apply firstIs_one. Qed.

(** [$NAME] at the head of the input: the pattern of [extractVariables]
    reads the whole name. *)
Lemma variable_simple_first (p : option ascii) (c : ascii) (w r : string) :
  allWord (String c w) = true -> wordEnds r ->
  firstIs
    (matches flag_i variableRegex
       {| prev := p; rest := String "$" (String c w ++ r); caps := [] |})
    {| prev := prevAfter (Some c) w; rest := r;
       caps := [("fullvariable", String "$" (String c w));
                ("simplearg", String c w)] |}.
Proof.
  intros Hw Hr. unfold variableRegex.
  apply (firstIs_group flag_i "fullvariable" _ _ _ r (String "$" (String c w))
           [("simplearg", String c w)]); [| reflexivity].
  cbn [seq]. apply firstIs_alt_l.
  eapply firstIs_seq; [now apply firstIs_opt_absent |].
  eapply firstIs_seq; [now apply firstIs_chr |].
  apply (firstIs_group flag_i "simplearg" _ _ _ r (String c w) []);
    [| reflexivity].
  apply word_plus; assumption.
Qed.

Lemma none_seq_first (f : flags) (a b : re) (x : mstate) :
  matches f a x = [] -> matches f (Seq a b) x = [].
Proof. intros H. cbn [matches]. now rewrite H. Qed.

Lemma none_group (f : flags) (name : string) (a : re) (x : mstate) :
  matches f a x = [] -> matches f (Grp name a) x = [].
Proof. intros H. cbn [matches]. now rewrite H. Qed.

(** An optional pattern that does not match is passed. *)
Lemma firstIs_opt_none (f : flags) (a : re) (p : option ascii) (s : string)
    (cs : list (string * string)) :
  groupNames a = [] ->
  matches f a {| prev := p; rest := s; caps := cs |} = [] ->
  firstIs (matches f (opt a) {| prev := p; rest := s; caps := cs |})
    {| prev := p; rest := s; caps := cs |}.
Proof.
  intros Hn H. unfold opt. cbn [matches Nat.add]. rewrite repeatMatcher_S, Hn.
  cbn [Nat.eqb andb]. unfold capClear. cbn [fold_right prev rest caps].
  rewrite H. apply firstIs_one.
Qed.

(** [${NAME}] at the head of the input. *)
Lemma variable_complex_first (p : option ascii) (c : ascii) (w : string) :
  allWord (String c w) = true ->
  firstIs
    (matches flag_i variableRegex
       {| prev := p; rest := String "$" (String "{" (String c w ++ "}"));
          caps := [] |})
    {| prev := Some "}"%char; rest := "";
       caps := [("fullvariable", String "$" (String "{" (String c w ++ "}")));
                ("complexarg", String c w)] |}.
Proof.
  intros Hw. unfold variableRegex.
  apply (firstIs_group flag_i "fullvariable" _ _ _ ""
           (String "$" (String "{" (String c w ++ "}")))
           [("complexarg", String c w)]);
    [| cbn [rest]; now rewrite app_empty_r].
  cbn [seq]. apply firstIs_alt_r.
  - eapply none_seq; [now apply opt_chr_absent |].
    eapply none_seq; [now apply chr_read |].
    apply none_group, word_plus_none. reflexivity.
  - eapply firstIs_seq; [now apply firstIs_opt_absent |].
    eapply firstIs_seq; [now apply firstIs_chr |].
    eapply firstIs_seq; [now apply firstIs_chr |].
    eapply firstIs_seq.
    { eapply (firstIs_group flag_i "complexarg" _ _ _ "}" (String c w) []);
        [| reflexivity].
      apply word_plus; [exact Hw | reflexivity]. }
    eapply firstIs_seq.
    { apply firstIs_opt_none; [reflexivity |].
      apply none_seq_first, chr_refused. reflexivity. }
    cbn. apply firstIs_one.
Qed.

(** The record of a match that is the first of its states. *)
Lemma matchAt_first (f : flags) (r : re) (p : option ascii) (i : nat)
    (s : string) (y : mstate) :
  firstIs (matches f r {| prev := p; rest := s; caps := [] |}) y ->
  matchAt f r p i s
  = Some {| index := i;
            matched := Js.take (String.length s - remaining y) s;
            after := rest y; groups := caps y |}.
Proof. intros [o E]. unfold matchAt. now rewrite E. Qed.

(** Past a match that reaches the end of the input, the loop of
    [extractVariables] finds nothing more. *)
Lemma variables_end (s : string) (p : option ascii) (i : nat) :
  execAllFrom flag_i variableRegex p i (String.length s) s = [].
Proof.
  revert p i. induction s as [|c s IH]; intros p i; [reflexivity |].
  simpl. apply IH.
Qed.

Lemma execAllFrom_here (f : flags) (r : re) (p : option ascii) (i : nat)
    (c : ascii) (t : string) (m : Regex.found) :
  matchAt f r p i (String c t) = Some m ->
  execAllFrom f r p i 0 (String c t)
  = m :: execAllFrom f r (Some c) (S i) (String.length (matched m) - 1) t.
Proof. intros H. cbn [execAllFrom]. now rewrite H. Qed.

Lemma take_full (s : string) : Js.take (String.length s) s = s.
Proof. induction s as [|c s IH]; simpl; [reflexivity | now rewrite IH]. Qed.

Lemma extractVariables_simple (c : ascii) (w : string) :
  allWord (String c w) = true ->
  extractVariables (String "$" (String c w))
  = [(String "$" (String c w), Some (String c w))].
Proof.
  intros Hw. unfold extractVariables, execAll.
  assert (F := variable_simple_first None c w "" Hw I).
  rewrite app_empty_r in F.
  rewrite (execAllFrom_here _ _ _ _ _ _ _ (matchAt_first _ _ _ 0 _ _ F)).
  cbn [matched remaining rest caps].
  rewrite Nat.sub_0_r, take_full.
  change (String.length (String "$" (String c w)) - 1)
    with (String.length (String c w)).
  rewrite variables_end. reflexivity.
Qed.

Lemma extractVariables_complex (c : ascii) (w : string) :
  allWord (String c w) = true ->
  extractVariables (String "$" (String "{" (String c w ++ "}")))
  = [(String "$" (String "{" (String c w ++ "}")), Some (String c w))].
Proof.
  intros Hw. unfold extractVariables, execAll.
  assert (F := variable_complex_first None c w Hw).
  rewrite (execAllFrom_here _ _ _ _ _ _ _ (matchAt_first _ _ _ 0 _ _ F)).
  cbn [matched remaining rest caps].
  rewrite Nat.sub_0_r, take_full.
  change (String.length (String "$" (String "{" (String c w ++ "}"))) - 1)
    with (String.length (String "{" (String c w ++ "}"))).
  rewrite variables_end. reflexivity.
Qed.

(** A word holds no punctuation. *)
Lemma word_free_of (d : ascii) (w : string) :
  isWord d = false -> allWord w = true -> occurs d w = false.
Proof.
  intros Hd. induction w as [|c w IH]; simpl; [reflexivity |].
  intros H. apply andb_prop in H as [Hc Hw].
  rewrite (IH Hw), orb_false_r.
  destruct (Ascii.eqb_spec c d) as [-> | _]; congruence.
Qed.

Lemma chr_refused_free (ch : ascii) (y : mstate) :
  occurs ch (rest y) = false -> matches noFlags (Chr ch) y = [].
Proof.
  intros H. cbn [matches]. unfold step. destruct (rest y) as [|d t]; [reflexivity |].
  simpl in H. apply orb_false_elim in H as [H _].
  unfold chrEq. simpl. now rewrite Ascii.eqb_sym, H.
Qed.

(** A pattern that needs a character the input does not hold, after
    whatever comes first, matches nowhere. *)
Lemma missing_char_none (a b : re) (ch : ascii) (x : mstate) :
  occurs ch (rest x) = false ->
  matches noFlags (Seq a (Seq (Chr ch) b)) x = [].
Proof.
  intros H.
  change (matches noFlags (Seq a (Seq (Chr ch) b)) x)
    with (flat_map (matches noFlags (Seq (Chr ch) b)) (matches noFlags a x)).
  apply flat_map_none. intros y Hy. apply matches_suffix in Hy.
  apply none_seq_first, chr_refused_free.
  exact (suffixOf_occurs _ _ _ Hy H).
Qed.

Lemma execFrom_missing_char (a b : re) (ch : ascii) (s : string)
    (p : option ascii) (i : nat) :
  occurs ch s = false ->
  execFrom noFlags (Seq a (Seq (Chr ch) b)) p i s = None.
Proof.
  revert p i. induction s as [|c s IH]; intros p i H;
    cbn [execFrom]; unfold matchAt; rewrite missing_char_none by exact H;
    [reflexivity |].
  apply IH. simpl in H. now apply orb_false_elim in H.
Qed.

(** No registry alias matches a reference without a slash. *)
Lemma aliasMatch_no_slash (aliases : dict string) (s : string) :
  occurs "/" s = false -> aliasMatch aliases s = None.
Proof.
  intros H. induction aliases as [|[name value] more IH]; [reflexivity |].
  cbn [aliasMatch]. unfold exec, aliasRegex. cbn [seq].
  now rewrite execFrom_missing_char.
Qed.

(** A pattern anchored at the start matches at no later position. *)
Lemma execFrom_anchored (r : re) (s : string) (q : ascii) (i : nat) :
  execFrom noFlags (Seq Bol r) (Some q) i s = None.
Proof.
  revert q i. induction s as [|c s IH]; intros q i;
    cbn [execFrom]; unfold matchAt; cbn; [reflexivity | apply IH].
Qed.

Lemma exec_anchored (r : re) (s : string) :
  matches noFlags r {| prev := None; rest := s; caps := [] |} = [] ->
  exec noFlags (Seq Bol r) s = None.
Proof.
  intros H. unfold exec. destruct s as [|c s]; cbn [execFrom]; unfold matchAt;
    cbn [matches prev flat_map]; rewrite H; cbn; [reflexivity |].
  apply execFrom_anchored.
Qed.

(** [$NAME] and [${NAME}] are not of the [${...:-value}] form. *)
Lemma no_default_simple (c : ascii) (w : string) :
  isWord c = true ->
  exec noFlags defaultValueRegex (String "$" (String c w)) = None.
Proof.
  intros Hc. unfold defaultValueRegex. cbn [seq]. apply exec_anchored.
  eapply none_seq; [now apply chr_read |].
  apply none_seq_first, chr_refused. cbv beta iota.
  unfold chrEq. cbn [ignoreCase noFlags].
  destruct (Ascii.eqb_spec "{" c) as [<- | _]; [discriminate Hc | reflexivity].
Qed.

Lemma no_default_complex (w : string) :
  allWord w = true ->
  exec noFlags defaultValueRegex (String "$" (String "{" (w ++ "}"))) = None.
Proof.
  intros Hw. unfold defaultValueRegex. cbn [seq]. apply exec_anchored.
  eapply none_seq; [now apply chr_read |].
  eapply none_seq; [now apply chr_read |].
  apply missing_char_none. cbn [rest].
  rewrite occurs_app, (word_free_of ":" w eq_refl Hw). reflexivity.
Qed.

Lemma cleanCurrentFrom_no_default (s : string) :
  exec noFlags defaultValueRegex s = None -> cleanCurrentFrom s = (false, s).
Proof.
  intros H. unfold cleanCurrentFrom. rewrite H.
  now destruct (Js.includes s variableMarker).
Qed.

(** A candidate with one variable token, whose name the table does not
    hold, none of whose text is a default form, and which holds no slash:
    it is pushed as a skipped descriptor. *)
Lemma processImage_unresolved isVersion config st lines lineFeed first last
    (image name : string) :
  Js.includes image variableMarker = true ->
  extractVariables image = [(image, Some name)] ->
  argsGet (args st) name = ArgUndefined ->
  exec noFlags defaultValueRegex image = None ->
  occurs "/" image = false ->
  processImage isVersion config st lines lineFeed first last image
  = Ok (Some (skippedVariable image (currentTarget st))).
Proof.
  intros Hmark Hvars Harg Hdefault Hslash.
  unfold processImage, resolveImage. rewrite Hmark, Hvars.
  cbn [substituteVariables substituteVariable propertyKey bind].
  rewrite Harg. cbn [bind].
  assert (Hscratch : String.eqb image "scratch" = false).
  { destruct (String.eqb_spec image "scratch") as [-> | _];
      [discriminate Hmark | reflexivity]. }
  rewrite Hscratch.
  rewrite getDep_marker;
    [| rewrite (cleanCurrentFrom_no_default image Hdefault); exact Hmark
     | now apply aliasMatch_no_slash].
  reflexivity.
Qed.

(** X25. Resolution consults the table as it stands: a candidate
    [$NAME] or [${NAME}] whose name has no own entry in the table, and is
    not a member of [Object.prototype], is left as it is and pushed as a
    descriptor skipped for containing a variable, whatever the alias map
    and whatever the lines that follow declare. *)
Theorem undeclared_variable_is_skipped
    isVersion config st lines lineFeed first last (c : ascii) (w : string) :
  let name := String c w in
  allWord name = true ->
  argsGet (args st) name = ArgUndefined ->
  forall image,
    image = "$" ++ name \/ image = "${" ++ name ++ "}" ->
    processImage isVersion config st lines lineFeed first last image
    = Ok (Some (skippedVariable image (currentTarget st)))
    /\ skipReason (skippedVariable image (currentTarget st))
       = Some ContainsVariable
    /\ depName (skippedVariable image (currentTarget st)) = None
    /\ replaceString (skippedVariable image (currentTarget st)) = Some image.
Proof.
  intros name Hw Harg image Himage. split; [| repeat split].
  assert (Hc : isWord c = true) by (simpl in Hw; now apply andb_prop in Hw).
  destruct Himage as [-> | ->].
  - apply processImage_unresolved with (name := name).
    + reflexivity.
    + now apply extractVariables_simple.
    + exact Harg.
    + now apply no_default_simple.
    + change ("$" ++ name) with (String "$" name). cbn [occurs].
      now rewrite (word_free_of "/" name eq_refl Hw).
  - change ("${" ++ name ++ "}") with (String "$" (String "{" (name ++ "}"))).
    apply processImage_unresolved with (name := name).
    + reflexivity.
    + now apply extractVariables_complex.
    + exact Harg.
    + now apply no_default_complex.
    + cbn [occurs]. rewrite occurs_app.
      now rewrite (word_free_of "/" name eq_refl Hw).
Qed.

(** [$BASE] before any declaration, in the initial state. *)
Lemma undeclared_variable_is_skipped_witness :
  argsGet (args initialState) "BASE" = ArgUndefined
  /\ processImage neverDebian noAliases initialState
       ["FROM $BASE"; "ARG BASE=golang:1.20"] NL 0 0 "$BASE"
     = Ok (Some (skippedVariable "$BASE" "base")).
Proof.
  split; [reflexivity |].
  apply (undeclared_variable_is_skipped neverDebian noAliases initialState
           ["FROM $BASE"; "ARG BASE=golang:1.20"] NL 0 0 "B" "ASE"
           eq_refl eq_refl "$BASE" (or_introl eq_refl)).
Defined.

(** A declaration enters the table under its own name only. *)
Lemma dictGet_dictSet_other {V : Type} (k k' : string) (v : V) (d : dict V) :
  k <> k' -> dictGet k' (dictSet k v d) = dictGet k' d.
Proof.
  intros Hk. induction d as [|[k0 v0] d IH]; simpl.
  - destruct (String.eqb_spec k k'); [contradiction | reflexivity].
  - destruct (String.eqb_spec k0 k) as [-> | _]; simpl.
    + destruct (String.eqb_spec k k'); [contradiction | reflexivity].
    + now rewrite IH.
Qed.

Lemma argsGet_argsSet_other (name value other : string) (table : dict string) :
  name <> other -> argsGet (argsSet name value table) other = argsGet table other.
Proof.
  intros H. unfold argsSet, argsGet.
  destruct (String.eqb name "__proto__"); [reflexivity |].
  now rewrite dictGet_dictSet_other.
Qed.

(** The table of an instruction differs from the table before it at most
    on the name the instruction declares. *)
Lemma updateArgs_other (instruction : string) (first last : nat)
    (st : ScanState) (other : string) :
  (forall m, exec flag_im argRegex instruction = Some m ->
             group "name" m <> Some other) ->
  argsGet (args (updateArgs instruction first last st)) other
  = argsGet (args st) other.
Proof.
  intros H. unfold updateArgs.
  destruct (exec flag_im argRegex instruction) as [m|]; [| reflexivity].
  specialize (H m eq_refl).
  destruct (group "name" m) as [name|]; [| reflexivity].
  destruct (Js.truthy (Some name)); [| reflexivity].
  cbn [args]. apply argsGet_argsSet_other. congruence.
Qed.

(** A file whose reference comes before the declaration of its variable,
    as a [FROM] and as a [--pull]. *)
Example reference_before_declaration :
  extractDeps neverDebian noAliases
    ("FROM $BASE" ++ NL ++ "ARG BASE=golang:1.20")
  = Ok [skippedVariable "$BASE" "base"]
  /\ extractDeps neverDebian noAliases
       ("WITH DOCKER --pull ${TOOL}" ++ NL ++ "END" ++ NL ++ "ARG TOOL=alpine:3")
     = Ok [skippedVariable "${TOOL}" "base"].
Proof. split; vm_compute; reflexivity. Qed.

(** C10 does not hold of the code for a variable named as a member of
    [Object.prototype] and declared on a later line: the lookup in the
    table finds the inherited member, and extraction throws instead of
    pushing a skipped descriptor. *)
Theorem inherited_name_throws (isVersion : option string -> bool) :
  extractPackageFile isVersion noAliases
    ("FROM $toString" ++ NL ++ "ARG toString=alpine:3.18")
  = Throw TypeError.
Proof. vm_compute. reflexivity. Qed.
(** * Further properties of the code *)

(** ** The replace string of a descriptor: [processDepForAutoReplace] *)

Lemma lineIncludes_throws (lines : list string) (n : nat) (t : option string) :
  lineIncludes lines n t = Throw TypeError
  <-> Js.isString t = true /\ List.length lines <= n.
Proof.
  unfold lineIncludes. destruct t as [t|]; simpl.
  - destruct (nth_error lines n) as [l|] eqn:E.
    + split; [discriminate |]. intros [_ H].
      apply nth_error_None in H. congruence.
    + split; [| reflexivity]. intros _. split; [reflexivity |].
      now apply nth_error_None.
  - split; [discriminate | intros [H _]; discriminate].
Qed.

Lemma lineMentionsDep_throws (dep : PackageDependency) (lines : list string)
    (n : nat) :
  lineMentionsDep dep lines n = Throw TypeError
  <-> (Js.isString (currentValue dep) || Js.isString (currentDigest dep)) = true
      /\ List.length lines <= n.
Proof.
  unfold lineMentionsDep.
  destruct (lineIncludes lines n (currentValue dep)) as [byValue|[]] eqn:V;
    cbn [bind].
  - assert (NV : ~ (Js.isString (currentValue dep) = true /\ List.length lines <= n)).
    { intros H. apply lineIncludes_throws in H. congruence. }
    destruct byValue.
    + split; [discriminate |]. intros [_ L]. exfalso.
      unfold lineIncludes in V. destruct (currentValue dep); [| discriminate].
      apply nth_error_None in L. now rewrite L in V.
    + rewrite lineIncludes_throws. split.
      * intros [S L]. rewrite S, orb_true_r. now split.
      * intros [S L]. split; [| exact L].
        apply orb_prop in S as [S | S]; [| exact S]. elim NV. now split.
  - apply lineIncludes_throws in V as [S L]. rewrite S. now split.
Qed.

Lemma rangesOf_throws (dep : PackageDependency) (lines : list string)
    (rv : rangeValue) :
  rangesOf dep lines rv = Throw TypeError <-> unreadable dep lines rv.
Proof.
  destruct rv as [a b|]; simpl; [| tauto].
  destruct (lineMentionsDep dep lines a) as [atFirst|[]] eqn:A; cbn [bind].
  - destruct (lineMentionsDep dep lines b) as [atLast|[]] eqn:B; cbn [bind].
    + split; [discriminate |]. intros [S [L | L]].
      * assert (T : lineMentionsDep dep lines a = Throw TypeError)
          by (apply lineMentionsDep_throws; now split).
        congruence.
      * assert (T : lineMentionsDep dep lines b = Throw TypeError)
          by (apply lineMentionsDep_throws; now split).
        congruence.
    + apply lineMentionsDep_throws in B as [S L]. tauto.
  - apply lineMentionsDep_throws in A as [S L]. tauto.
Qed.

Lemma rangesToReplace_throws (dep : PackageDependency) (lines : list string)
    (ranges : list rangeValue) :
  rangesToReplace dep lines ranges = Throw TypeError
  <-> Exists (unreadable dep lines) ranges.
Proof.
  induction ranges as [|rv more IH]; simpl.
  - split; [discriminate | intros H; inversion H].
  - destruct (rangesOf dep lines rv) as [here|[]] eqn:H; cbn [bind].
    + assert (N : ~ unreadable dep lines rv).
      { intros U. apply rangesOf_throws in U. congruence. }
      destruct (rangesToReplace dep lines more) as [later|[]]; cbn [bind].
      * split; [discriminate |]. intros E. inversion E; subst; [tauto |].
        apply IH in H1. discriminate.
      * split; [| reflexivity]. intros _. right. now apply IH.
    + split; [| reflexivity]. intros _. left. now apply rangesOf_throws.
Qed.

(** X1. [processDepForAutoReplace] throws exactly when one of the ranges
    it is given cannot be walked: a value that is not an array, or, while
    the descriptor has a value or a digest, a range one of whose ends is
    not a line of the file. *)
Theorem processDepForAutoReplace_throws_iff (dep : PackageDependency)
    (ranges : list rangeValue) (lines : list string) (linefeed : string) :
  processDepForAutoReplace dep ranges lines linefeed = Throw TypeError
  <-> Exists (unreadable dep lines) ranges.
Proof.
  rewrite <- rangesToReplace_throws. unfold processDepForAutoReplace.
  destruct (rangesToReplace dep lines ranges) as [kept|[]]; cbn [bind];
    [| tauto].
  split; [| discriminate].
  destruct (sortRanges kept); [discriminate |].
  destruct (List.length ranges =? 1)%nat; discriminate.
Qed.

Lemma processDepForAutoReplace_keeps (dep d' : PackageDependency)
    (ranges : list rangeValue) (lines : list string) (linefeed : string) :
  processDepForAutoReplace dep ranges lines linefeed = Ok d' ->
  sameIdentity dep d'.
Proof.
  unfold processDepForAutoReplace.
  destruct (rangesToReplace dep lines ranges) as [kept|e]; cbn [bind];
    [| discriminate].
  destruct (sortRanges kept); [intros [= <-]; now repeat split |].
  destruct (List.length ranges =? 1)%nat; intros [= <-]; now repeat split.
Qed.

(** The one range of an instruction, inside the file, leaves the
    descriptor as it is. *)
Lemma processDepForAutoReplace_single (dep : PackageDependency) (a b : nat)
    (lines : list string) (lineFeed : string) :
  a < List.length lines -> b < List.length lines ->
  processDepForAutoReplace dep [Range a b] lines lineFeed = Ok dep.
Proof.
  intros A B. unfold processDepForAutoReplace.
  destruct (rangesToReplace dep lines [Range a b]) as [kept|[]] eqn:R;
    cbn [bind].
  - destruct (sortRanges kept); reflexivity.
  - exfalso. apply rangesToReplace_throws in R.
    inversion R as [rv l U | rv l U]; subst; [| inversion U].
    destruct U as [_ [U | U]]; lia.
Qed.

(** X2. When [processDepForAutoReplace] returns, it has written nothing
    but the replace string and its template; and it has written nothing
    at all when it was given a single range, or when the descriptor has
    neither value nor digest. *)
Theorem processDepForAutoReplace_identity (dep d' : PackageDependency)
    (ranges : list rangeValue) (lines : list string) (linefeed : string) :
  processDepForAutoReplace dep ranges lines linefeed = Ok d' ->
  sameIdentity dep d'
  /\ (List.length ranges = 1 -> d' = dep)
  /\ (Js.isString (currentValue dep) = false ->
      Js.isString (currentDigest dep) = false -> d' = dep).
Proof.
  intros H. split; [exact (processDepForAutoReplace_keeps _ _ _ _ _ H) |].
  revert H. unfold processDepForAutoReplace.
  destruct (rangesToReplace dep lines ranges) as [kept|e] eqn:R; cbn [bind];
    [| discriminate].
  intros H. split.
  - intros L. rewrite L in H. simpl in H. destruct (sortRanges kept); congruence.
  - intros V D.
    assert (E : kept = []).
    { clear H. revert kept R. induction ranges as [|rv more IH]; simpl.
      - now intros kept [= <-].
      - intros kept. destruct rv as [a b|]; [| discriminate]. simpl.
        unfold lineMentionsDep, lineIncludes.
        destruct (currentValue dep); [discriminate |].
        destruct (currentDigest dep); [discriminate |]. cbn [bind].
        destruct (rangesToReplace dep lines more) as [later|]; [| discriminate].
        cbn [bind]. intros [= <-]. simpl. now apply IH. }
    subst kept. simpl in H. congruence.
Qed.

(** A skipped reference, with two ranges of which the second is no
    array: nothing is looked for, so nothing is read. *)
Lemma processDepForAutoReplace_identity_witness :
  processDepForAutoReplace (skippedVariable "$BASE" "base")
    [Range 0 0; Range 7 7] ["FROM $BASE"] NL
  = Ok (skippedVariable "$BASE" "base")
  /\ sameIdentity (skippedVariable "$BASE" "base") (skippedVariable "$BASE" "base").
Proof.
  split; [reflexivity |].
  apply (processDepForAutoReplace_identity (skippedVariable "$BASE" "base")
           (skippedVariable "$BASE" "base") [Range 0 0; Range 7 7]
           ["FROM $BASE"] NL eq_refl).
Defined.

Lemma lineMentionsDep_at (dep : PackageDependency) (lines : list string)
    (n : nat) (line : string) :
  nth_error lines n = Some line ->
  lineMentionsDep dep lines n = Ok (mentions dep line).
Proof.
  intros H. unfold lineMentionsDep, lineIncludes, mentions. rewrite H.
  destruct (currentValue dep) as [v|]; cbn [bind].
  - destruct (Js.includes line v); [reflexivity |].
    destruct (currentDigest dep); reflexivity.
  - destruct (currentDigest dep); reflexivity.
Qed.

(** X3. A reference on line [b] resolved through one declaration on line
    [a]: when the declaration holds the value or the digest and the
    reference line holds neither, the replace string is the declaration
    line alone, followed by the line feed unless there is a digest, and
    the template is derived from it. *)
Theorem declaration_line_replaced (dep : PackageDependency)
    (lines : list string) (lineFeed : string) (a b : nat)
    (declaration reference : string) :
  nth_error lines a = Some declaration ->
  nth_error lines b = Some reference ->
  mentions dep declaration = true -> mentions dep reference = false ->
  let text :=
    if Js.truthy (currentDigest dep) then declaration
    else declaration ++ lineFeed in
  let rewritten := setReplaceString (Some text) dep in
  processDepForAutoReplace dep [Range b b; Range a a] lines lineFeed
  = Ok (setAutoReplaceStringTemplate (getAutoReplaceTemplate rewritten) rewritten).
Proof.
  intros Ha Hb Ma Mb text rewritten.
  unfold processDepForAutoReplace. cbn [rangesToReplace rangesOf].
  rewrite (lineMentionsDep_at dep lines a declaration Ha),
          (lineMentionsDep_at dep lines b reference Hb), Ma, Mb.
  cbn [bind app]. unfold sortRanges. cbn [fold_right insertRange fst].
  rewrite Nat.ltb_irrefl. cbn [List.length Nat.eqb last fst snd].
  unfold unfoldedLineNumbers. rewrite Nat.leb_refl, Nat.sub_diag.
  cbn [Nat.add List.seq map Js.join String.concat].
  rewrite (nth_error_nth lines a "" Ha).
  subst rewritten text. destruct (Js.truthy (currentDigest dep)); reflexivity.
Qed.

(** The descriptor of [golang:1.20], declared on line 0 and referred to
    on line 1. *)
Lemma declaration_line_replaced_witness :
  let dep := getDep neverDebian (Some "golang:1.20") true [] in
  mentions dep "ARG BASE=golang:1.20" = true
  /\ mentions dep "FROM ${BASE}" = false
  /\ exists d,
       processDepForAutoReplace dep [Range 1 1; Range 0 0]
         ["ARG BASE=golang:1.20"; "FROM ${BASE}"] NL = Ok d
       /\ replaceString d = Some ("ARG BASE=golang:1.20" ++ NL).
Proof.
  split; [reflexivity |]. split; [reflexivity |].
  eexists. split.
  - apply (declaration_line_replaced
             (getDep neverDebian (Some "golang:1.20") true [])
             ["ARG BASE=golang:1.20"; "FROM ${BASE}"] NL 0 1
             "ARG BASE=golang:1.20" "FROM ${BASE}");
      reflexivity.
  - reflexivity.
Defined.

(** ** What [getDep] gives every descriptor *)

Lemma sameCore_refl d : sameCore d d.
Proof. now repeat split. Qed.

Lemma sameCore_trans a b c : sameCore a b -> sameCore b c -> sameCore a c.
Proof.
  intros (A1 & A2 & A3 & A4 & A5) (B1 & B2 & B3 & B4 & B5).
  repeat split; congruence.
Qed.

Lemma prettyPrefix_core b d p : sameCore d (prettyPrefix b d p).
Proof.
  unfold prettyPrefix. destruct (depName d) as [n|]; [| apply sameCore_refl].
  destruct (Js.startsWith n (p ++ "/")); [| apply sameCore_refl].
  destruct b; now repeat split.
Qed.

Lemma prettyPrefixes_core b d : sameCore d (prettyPrefixes b d).
Proof.
  unfold prettyPrefixes. destruct (Js.truthy (depName d));
    [| apply sameCore_refl].
  generalize specialPrefixes. intros l. revert d.
  induction l as [|p l IH]; intros d; simpl; [apply sameCore_refl |].
  eapply sameCore_trans; [apply prettyPrefix_core | apply IH].
Qed.

Lemma prettyPrefix_versioning b d p :
  versioning (prettyPrefix b d p) = versioning d.
Proof.
  unfold prettyPrefix. destruct (depName d) as [n|]; [| reflexivity].
  destruct (Js.startsWith n (p ++ "/")); [| reflexivity].
  destruct b; reflexivity.
Qed.

Lemma prettyPrefixes_versioning b d :
  versioning (prettyPrefixes b d) = versioning d.
Proof.
  unfold prettyPrefixes. destruct (Js.truthy (depName d)); [| reflexivity].
  generalize specialPrefixes. intros l. revert d.
  induction l as [|p l IH]; intros d; simpl; [reflexivity |].
  now rewrite IH, prettyPrefix_versioning.
Qed.

Lemma specifyReplace_core b s d : sameCore d (specifyReplace b s d).
Proof.
  unfold specifyReplace. destruct b; [| apply sameCore_refl].
  destruct (Js.truthy (replaceString d)); now repeat split.
Qed.

Lemma assignVersioning_core iv d : sameCore d (assignVersioning iv d).
Proof.
  unfold assignVersioning.
  destruct (isNamed d "ubuntu");
    match goal with |- context [if ?c then _ else _] => destruct c end;
    now repeat split.
Qed.

Lemma hideQuayPort_core d :
  sameCore d (hideQuayPort d) /\ versioning (hideQuayPort d) = versioning d.
Proof.
  destruct (hideQuayPort_cases d) as [-> | (n & n' & _ & _ & ->)];
    now repeat split.
Qed.

Lemma plainSteps_core iv b s d :
  let d' := plainSteps iv b s d in
  currentValue d' = currentValue d /\ currentDigest d' = currentDigest d
  /\ datasource d' = Some DockerDatasourceId /\ depType d' = depType d
  /\ skipReason d' = skipReason d.
Proof.
  unfold plainSteps.
  set (d1 := setDatasource (Some DockerDatasourceId) (specifyReplace b s d)).
  assert (C1 : currentValue d1 = currentValue d /\ currentDigest d1 = currentDigest d
               /\ datasource d1 = Some DockerDatasourceId /\ depType d1 = depType d
               /\ skipReason d1 = skipReason d).
  { destruct (specifyReplace_core b s d) as (A1 & A2 & A3 & A4 & A5).
    now repeat split. }
  destruct C1 as (A1 & A2 & A3 & A4 & A5).
  destruct (prettyPrefixes_core b d1) as (B1 & B2 & B3 & B4 & B5).
  destruct (assignVersioning_core iv (prettyPrefixes b d1))
    as (C1 & C2 & C3 & C4 & C5).
  destruct (hideQuayPort_core (assignVersioning iv (prettyPrefixes b d1)))
    as ((D1 & D2 & D3 & D4 & D5) & _).
  cbv zeta. repeat split; congruence.
Qed.

Lemma splitImageParts_skipReason (s : string) :
  skipReason (splitImageParts s)
  = if Js.includes (snd (cleanCurrentFrom s)) variableMarker
    then Some ContainsVariable else None.
Proof.
  unfold splitImageParts.
  destruct (Js.includes s variableMarker) eqn:M.
  - destruct (cleanCurrentFrom s) as [isVariable cleaned]. simpl.
    destruct (Js.includes cleaned variableMarker); [reflexivity |].
    match goal with |- context [if ?c then _ else _] => destruct c end;
      destruct isVariable; reflexivity.
  - rewrite (cleanCurrentFrom_plain s M). simpl. rewrite M.
    match goal with |- context [if ?c then _ else _] => destruct c end;
      reflexivity.
Qed.

Lemma splitImageParts_untyped (s : string) :
  depType (splitImageParts s) = None /\ datasource (splitImageParts s) = None
  /\ versioning (splitImageParts s) = None.
Proof.
  unfold splitImageParts. destruct (cleanCurrentFrom s) as [isVariable cleaned].
  destruct (Js.includes s variableMarker && Js.includes cleaned variableMarker);
    [now repeat split |].
  match goal with |- context [if ?c then _ else _] => destruct c end;
    destruct isVariable; now repeat split.
Qed.

Lemma getDep_plain iv s b aliases :
  Js.allSpace s = false -> aliasMatch aliases s = None ->
  getDep iv (Some s) b aliases = plainSteps iv b s (splitImageParts s).
Proof. intros B A. unfold getDep, getDepBody. now rewrite B, A. Qed.

Lemma getDepNoAlias_plain iv s :
  Js.allSpace s = false ->
  getDepNoAlias iv s = plainSteps iv true s (splitImageParts s).
Proof. intros B. unfold getDepNoAlias, getDepBody. now rewrite B. Qed.

Lemma getDep_alias iv s b aliases value name :
  Js.allSpace s = false -> aliasMatch aliases s = Some (value, name) ->
  getDep iv (Some s) b aliases
  = let dep := setReplaceString (Some s) (getDepNoAlias iv (value ++ "/" ++ name)) in
    setAutoReplaceStringTemplate (getAutoReplaceTemplate dep) dep.
Proof. intros B A. unfold getDep, getDepBody. now rewrite B, A. Qed.

Lemma slash_not_blank (a b : string) : Js.allSpace (a ++ "/" ++ b) = false.
Proof.
  change ("/" ++ b) with (String "/" b).
  induction a as [|c a IH]; [reflexivity |].
  change (String c a ++ String "/" b) with (String c (a ++ String "/" b)).
  cbn [Js.allSpace]. rewrite IH. apply andb_false_r.
Qed.

(** Every descriptor of [getDep] is the invalid one, or has the identity
    that the plain steps give a reference that is not blank. *)
Lemma getDep_cases iv cf b aliases :
  (blankReference cf = true /\ getDep iv cf b aliases = skipped InvalidValue)
  \/ (blankReference cf = false
      /\ exists s b',
           Js.allSpace s = false
           /\ sameIdentity (plainSteps iv b' s (splitImageParts s))
                (getDep iv cf b aliases)).
Proof.
  destruct cf as [s|]; [| left; now split].
  cbn [blankReference]. destruct (Js.allSpace s) eqn:B.
  - left. split; [reflexivity |]. unfold getDep, getDepBody. now rewrite B.
  - right. split; [reflexivity |].
    destruct (aliasMatch aliases s) as [[value name]|] eqn:A.
    + exists (value ++ "/" ++ name), true. split; [apply slash_not_blank |].
      rewrite (getDep_alias iv s b aliases value name B A).
      rewrite (getDepNoAlias_plain iv _ (slash_not_blank value name)).
      now repeat split.
    + exists s, b. split; [exact B |].
      rewrite (getDep_plain iv s b aliases B A). now repeat split.
Qed.

Lemma getDep_origin iv cf b aliases :
  let g := getDep iv cf b aliases in
  depType g = None
  /\ (blankReference cf = true -> g = skipped InvalidValue)
  /\ (blankReference cf = false ->
      datasource g = Some DockerDatasourceId
      /\ skipReason g <> Some InvalidValue).
Proof.
  cbv zeta. destruct (getDep_cases iv cf b aliases)
    as [[B E] | [B (s & b' & _ & I)]]; rewrite B.
  - rewrite E. repeat split; discriminate.
  - destruct I as (_ & _ & _ & _ & -> & _ & -> & ->).
    destruct (plainSteps_core iv b' s (splitImageParts s))
      as (_ & _ & -> & -> & ->).
    destruct (splitImageParts_untyped s) as (-> & _).
    rewrite splitImageParts_skipReason.
    repeat split; try discriminate.
    destruct (Js.includes _ _); discriminate.
Qed.

(** X4. Whatever the alias map, [getDep] answers [invalid-value] exactly
    for a reference that is no string or a blank one; every other
    descriptor names the docker datasource, skipped ones included; and
    [getDep] never sets a dependency type. *)
Theorem getDep_invalid_iff_blank iv cf b aliases :
  let g := getDep iv cf b aliases in
  (skipReason g = Some InvalidValue <-> blankReference cf = true)
  /\ (datasource g = Some DockerDatasourceId <-> blankReference cf = false)
  /\ depType g = None.
Proof.
  cbv zeta. destruct (getDep_origin iv cf b aliases) as (T & B1 & B0).
  split; [| split; [| exact T]].
  - destruct (blankReference cf).
    + rewrite (B1 eq_refl). now split.
    + destruct (B0 eq_refl) as [_ N]. split; [tauto | discriminate].
  - destruct (blankReference cf).
    + rewrite (B1 eq_refl). split; discriminate.
    + destruct (B0 eq_refl) as [D _]. now split.
Qed.

(** X5. Without an alias map the skip reason of [getDep] is a function of
    the reference alone: [invalid-value] when it is blank,
    [contains-variable] when the variable marker is left once a default
    wrapper is removed, and none otherwise. *)
Theorem getDep_skipReason_plain iv s b :
  skipReason (getDep iv (Some s) b [])
  = if Js.allSpace s then Some InvalidValue
    else if Js.includes (snd (cleanCurrentFrom s)) variableMarker
         then Some ContainsVariable
         else None.
Proof.
  destruct (Js.allSpace s) eqn:B.
  - unfold getDep, getDepBody. now rewrite B.
  - rewrite (getDep_plain iv s b [] B eq_refl).
    destruct (plainSteps_core iv b s (splitImageParts s)) as (_ & _ & _ & _ & ->).
    apply splitImageParts_skipReason.
Qed.

(** X6. No registry alias applies to a reference without a slash: the
    descriptor is the one built without an alias map. *)
Theorem alias_needs_slash iv (s : string) b (aliases : dict string) :
  occurs "/" s = false ->
  getDep iv (Some s) b aliases = getDep iv (Some s) b [].
Proof.
  intros H. unfold getDep, getDepBody.
  now rewrite (aliasMatch_no_slash aliases s H).
Qed.

Lemma alias_needs_slash_witness :
  occurs "/" "alpine:3.18" = false
  /\ getDep neverDebian (Some "alpine:3.18") true [("alpine", "mirror.local")]
     = getDep neverDebian (Some "alpine:3.18") true [].
Proof.
  split; [reflexivity |].
  apply (alias_needs_slash neverDebian "alpine:3.18" true
           [("alpine", "mirror.local")] eq_refl).
Defined.

(** *** The versioning scheme *)

Lemma execFrom_anchored_line (f : flags) (r : re) (s : string) (q : ascii) (i : nat) :
  multiline f = false -> execFrom f (Seq Bol r) (Some q) i s = None.
Proof.
  intros M. revert q i. induction s as [|c s IH]; intros q i;
    cbn [execFrom]; unfold matchAt; cbn [matches prev]; rewrite M;
    cbn [andb flat_map]; [reflexivity | apply IH].
Qed.

Lemma exec_anchored_index (f : flags) (r : re) (s : string) (m : Regex.found) :
  multiline f = false -> exec f (Seq Bol r) s = Some m -> index m = 0.
Proof.
  intros M. unfold exec. destruct s as [|c s]; cbn [execFrom].
  - unfold matchAt. destruct (matches f (Seq Bol r) _) as [|y o];
      [discriminate | now intros [= <-]].
  - unfold matchAt at 1. destruct (matches f (Seq Bol r) _) as [|y o].
    + now rewrite execFrom_anchored_line.
    + now intros [= <-].
Qed.

Lemma isNamed_iff (d : PackageDependency) (n : string) :
  isNamed d n = true <-> depName d = Some n.
Proof.
  unfold isNamed. destruct (depName d) as [m|]; [| split; discriminate].
  rewrite String.eqb_eq. split; congruence.
Qed.

Lemma assignVersioning_spec iv d :
  versioning d = None ->
  let d' := assignVersioning iv d in
  depName d' = depName d /\ currentValue d' = currentValue d
  /\ (versioning d' = Some UbuntuVersioningId <-> depName d = Some "ubuntu")
  /\ (versioning d' = Some DebianVersioningId
      <-> depName d = Some "debian" /\ iv (currentValue d) = true).
Proof.
  intros V. unfold assignVersioning.
  destruct (isNamed d "ubuntu") eqn:U.
  - assert (N : depName d = Some "ubuntu") by now apply isNamed_iff.
    assert (D : isNamed (setVersioning (Some UbuntuVersioningId) d) "debian" = false).
    { unfold isNamed. simpl. now rewrite N. }
    rewrite D. simpl. repeat split; try congruence; try discriminate.
    intros [E _]. congruence.
  - assert (N : depName d <> Some "ubuntu").
    { intros E. apply isNamed_iff in E. congruence. }
    destruct (isNamed d "debian") eqn:D; simpl.
    + assert (N' : depName d = Some "debian") by now apply isNamed_iff.
      destruct (iv (currentValue d)) eqn:I; simpl; rewrite ?V;
        repeat split; try congruence; try discriminate; try tauto.
      intros [_ E]. discriminate.
    + assert (N' : depName d <> Some "debian").
      { intros E. apply isNamed_iff in E. congruence. }
      rewrite V. repeat split; try congruence; try discriminate; try tauto.
Qed.

(** When the quay.io rule rewrites a name, the new name opens with the
    bare host. *)
Lemma hideQuayPort_name (d : PackageDependency) (n n' : string) :
  depName d = Some n -> depName (hideQuayPort d) = Some n' -> n' <> n ->
  exists m, exec flag_i quayRegex n = Some m
            /\ n' = "quay.io" ++ after m.
Proof.
  intros N. unfold hideQuayPort. rewrite N.
  destruct (Js.truthy (Some n)); cbn [andb]; [| congruence].
  unfold test, replace.
  destruct (exec flag_i quayRegex n) as [m|] eqn:E; [| congruence].
  assert (I : index m = 0) by (apply (exec_anchored_index flag_i _ n m eq_refl E)).
  rewrite I. replace (Js.take 0 n) with "" by now destruct n.
  rewrite getSubstitution_plain by reflexivity.
  destruct (String.eqb _ n); [congruence |].
  simpl. intros [= <-] _. now exists m.
Qed.

Lemma plainSteps_versioning iv b s d :
  versioning d = None ->
  let d' := plainSteps iv b s d in
  (versioning d' = Some UbuntuVersioningId <-> depName d' = Some "ubuntu")
  /\ (versioning d' = Some DebianVersioningId
      <-> depName d' = Some "debian" /\ iv (currentValue d') = true).
Proof.
  intros V. unfold plainSteps.
  set (d2 := prettyPrefixes b
               (setDatasource (Some DockerDatasourceId) (specifyReplace b s d))).
  assert (V2 : versioning d2 = None).
  { unfold d2. rewrite prettyPrefixes_versioning. simpl.
    unfold specifyReplace. destruct b; [| exact V].
    destruct (Js.truthy (replaceString d)); exact V. }
  destruct (assignVersioning_spec iv d2 V2) as (N3 & C3 & U3 & D3).
  set (d3 := assignVersioning iv d2) in *. clearbody d3.
  rewrite <- N3 in U3, D3. rewrite <- C3 in D3. clear N3 C3. clearbody d2.
  destruct (hideQuayPort_core d3) as ((C4 & _) & V4).
  cbv zeta. rewrite V4, C4.
  destruct (depName d3) as [n|] eqn:N.
  - destruct (depName (hideQuayPort d3)) as [n'|] eqn:N'.
    + destruct (String.eqb_spec n' n) as [-> | ne]; [tauto |].
      destruct (hideQuayPort_name d3 n n' N N' ne) as (m & E & ->).
      assert (T : test flag_i quayRegex n = true) by (unfold test; now rewrite E).
      assert (Nu : n <> "ubuntu") by (intros ->; discriminate T).
      assert (Nd : n <> "debian") by (intros ->; discriminate T).
      split; split.
      * intros H. apply U3 in H. congruence.
      * discriminate.
      * intros H. apply D3 in H as [H _]. congruence.
      * intros [H _]. discriminate.
    + exfalso. destruct (hideQuayPort_status d3) as [_ [H _]].
      specialize (H N'). congruence.
  - assert (E : hideQuayPort d3 = d3) by (unfold hideQuayPort; now rewrite N).
    rewrite E, N. tauto.
Qed.

(** X7. Whatever the reference and the alias map, a descriptor of
    [getDep] has the ubuntu versioning exactly when its name is
    [ubuntu], and the debian versioning exactly when its name is
    [debian] and the debian scheme accepts its value. *)
Theorem getDep_versioning iv cf b aliases :
  let d := getDep iv cf b aliases in
  (versioning d = Some UbuntuVersioningId <-> depName d = Some "ubuntu")
  /\ (versioning d = Some DebianVersioningId
      <-> depName d = Some "debian" /\ iv (currentValue d) = true).
Proof.
  destruct (getDep_cases iv cf b aliases)
    as [[B E] | [B (s & b' & _ & I)]]; cbv zeta.
  - rewrite E. simpl. repeat split; try discriminate. intros [H _]. discriminate.
  - destruct I as (-> & _ & -> & _ & _ & -> & _ & _).
    apply plainSteps_versioning. apply splitImageParts_untyped.
Qed.

(** ** Runs of one-character patterns *)

Lemma reads_step (f : flags) (r : re) (ok : ascii -> bool) :
  reads f r = Some ok ->
  groupNames r = [] /\ forall x, matches f r x = step ok x.
Proof.
  destruct r; try discriminate; intros [= <-]; split; reflexivity.
Qed.

Lemma capClear_nil (x : mstate) : capClear [] x = x.
Proof. now destruct x. Qed.

Lemma matches_seq (f : flags) (a b : re) (x : mstate) :
  matches f (Seq a b) x = flat_map (matches f b) (matches f a x).
Proof. reflexivity. Qed.

Lemma matches_alt (f : flags) (a b : re) (x : mstate) :
  matches f (Alt a b) x = (matches f a x ++ matches f b x)%list.
Proof. reflexivity. Qed.

Lemma matches_rep (f : flags) (greedy : bool) (min : nat) (max : option nat)
    (a : re) (x : mstate) :
  matches f (Rep greedy min max a) x
  = repeatMatcher (matches f a) (groupNames a) greedy (min + S (remaining x))
      min max x.
Proof. reflexivity. Qed.

Lemma flat_map_of_map {A B C : Type} (g : A -> B) (k : B -> list C) (l : list A) :
  flat_map k (map g l) = flat_map (fun a => k (g a)) l.
Proof. induction l as [|a l IH]; simpl; [reflexivity | now rewrite IH]. Qed.

Lemma allOk_weaken (ok ok' : ascii -> bool) (s : string) :
  (forall c, ok c = true -> ok' c = true) -> allOk ok s = true -> allOk ok' s = true.
Proof.
  intros W. induction s as [|c s IH]; simpl; [reflexivity |].
  intros H. apply andb_prop in H as [Hc Hs]. now rewrite (W c Hc), IH.
Qed.

Lemma allOk_app (ok : ascii -> bool) (a b : string) :
  allOk ok (a ++ b) = allOk ok a && allOk ok b.
Proof.
  induction a as [|c a IH]; simpl; [reflexivity |].
  now rewrite IH, andb_assoc.
Qed.

Section Run.
Variable ok : ascii -> bool.
Variable m : mstate -> list mstate.
Hypothesis m_step : forall x, m x = step ok x.

(** What a repetition of a one-character pattern has read. *)
Lemma run_in (greedy : bool) (fuel min : nat) (max : option nat) (x y : mstate) :
  boundOk min max ->
  In y (repeatMatcher m [] greedy fuel min max x) ->
  exists b, rest x = b ++ rest y /\ allOk ok b = true /\ min <= String.length b
            /\ caps y = caps x /\ prev y = prevAfter (prev x) b.
Proof.
  revert min max x. induction fuel as [|fuel IH]; intros min max x B;
    [intros [] |].
  rewrite repeatMatcher_S, capClear_nil, m_step.
  assert (here : min = 0 -> In y [x] ->
    exists b, rest x = b ++ rest y /\ allOk ok b = true /\ min <= String.length b
              /\ caps y = caps x /\ prev y = prevAfter (prev x) b).
  { intros -> [<- | []]. exists "". now repeat split. }
  assert (again : forall l, boundOk (pred min) l ->
    In y (flat_map (fun z =>
      if (min =? 0)%nat && negb (remaining z <? remaining x)%nat then []
      else repeatMatcher m [] greedy fuel (pred min) l z) (step ok x)) ->
    exists b, rest x = b ++ rest y /\ allOk ok b = true /\ min <= String.length b
              /\ caps y = caps x /\ prev y = prevAfter (prev x) b).
  { intros l Bl H. apply in_flat_map in H as (z & Hz & Hy).
    destruct (step_inv _ _ _ Hz) as (c & E & O & Z).
    destruct ((min =? 0)%nat && negb (remaining z <? remaining x)%nat);
      [destruct Hy |].
    destruct (IH _ _ _ Bl Hy) as (b & E' & A & L & C & P).
    exists (String c b). rewrite E. simpl. rewrite <- E', O, A, C, P.
    rewrite Z. simpl. repeat split. lia. }
  destruct max as [[|k]|]; cbv zeta.
  - apply here. simpl in B. lia.
  - assert (Bl : boundOk (pred min) (predMax (Some (S k)))) by (simpl in *; lia).
    destruct (min =? 0)%nat eqn:E0; [apply Nat.eqb_eq in E0 |].
    + destruct greedy; intros H.
      * apply in_app_or in H as [H | H]; [now apply (again _ Bl) | now apply here].
      * destruct H as [<- | H]; [apply here; [exact E0 | now left] | now apply (again _ Bl)].
    + apply (again _ Bl).
  - assert (Bl : boundOk (pred min) (predMax None)) by exact I.
    destruct (min =? 0)%nat eqn:E0; [apply Nat.eqb_eq in E0 |].
    + destruct greedy; intros H.
      * apply in_app_or in H as [H | H]; [now apply (again _ Bl) | now apply here].
      * destruct H as [<- | H]; [apply here; [exact E0 | now left] | now apply (again _ Bl)].
    + apply (again _ Bl).
Qed.

(** A greedy run reads every character it can first. *)
Lemma run_star (w r : string) :
  allOk ok w = true -> stopsAt ok r ->
  forall fuel p cs, String.length w < fuel ->
  firstIs (repeatMatcher m [] true fuel 0 None
             {| prev := p; rest := w ++ r; caps := cs |})
    {| prev := prevAfter p w; rest := r; caps := cs |}.
Proof.
  intros Hw Hr. induction w as [|c w IH]; intros fuel p cs Hfuel;
    (destruct fuel as [|fuel]; [simpl in Hfuel; lia |]);
    rewrite repeatMatcher_S, capClear_nil, m_step; cbn [Nat.eqb andb];
    unfold step; cbn [rest].
  - change ("" ++ r) with r. destruct r as [|d r]; [apply firstIs_one |].
    simpl in Hr. rewrite Hr. apply firstIs_one.
  - simpl in Hw. apply andb_prop in Hw as [Hc Hw].
    change (String c w ++ r) with (String c (w ++ r)). cbv iota beta.
    rewrite Hc. cbn [flat_map].
    unfold remaining, advance. cbn [rest caps String.length].
    replace (String.length (w ++ r) <? S (String.length (w ++ r)))%nat
      with true by (symmetry; apply Nat.ltb_lt; lia).
    cbn [negb Nat.pred predMax option_map].
    rewrite app_nil_r. apply firstIs_app.
    apply IH; [exact Hw | simpl in Hfuel; lia].
Qed.

Lemma run_plus (c : ascii) (w r : string) (fuel : nat) (p : option ascii)
    (cs : list (string * string)) :
  allOk ok (String c w) = true -> stopsAt ok r -> S (String.length w) < fuel ->
  firstIs (repeatMatcher m [] true fuel 1 None
             {| prev := p; rest := String c w ++ r; caps := cs |})
    {| prev := prevAfter (Some c) w; rest := r; caps := cs |}.
Proof.
  intros Hw Hr Hfuel. destruct fuel as [|fuel]; [lia |].
  rewrite repeatMatcher_S, capClear_nil, m_step. cbn [Nat.eqb andb].
  simpl in Hw. apply andb_prop in Hw as [Hc Hw].
  unfold step. cbn [rest].
  change (String c w ++ r) with (String c (w ++ r)). cbv iota beta.
  rewrite Hc. cbn [flat_map Nat.pred predMax option_map].
  rewrite app_nil_r. apply run_star; [assumption | assumption | lia].
Qed.

(** A greedy run of at most [k] characters. *)
Lemma run_bounded (w r : string) :
  allOk ok w = true ->
  forall k fuel p cs,
  String.length w <= k -> String.length w = k \/ stopsAt ok r ->
  String.length w < fuel ->
  firstIs (repeatMatcher m [] true fuel 0 (Some k)
             {| prev := p; rest := w ++ r; caps := cs |})
    {| prev := prevAfter p w; rest := r; caps := cs |}.
Proof.
  induction w as [|c w IH]; intros Hw k fuel p cs Hk Hstop Hfuel;
    (destruct fuel as [|fuel]; [simpl in Hfuel; lia |]);
    rewrite repeatMatcher_S, capClear_nil, m_step; cbn [Nat.eqb andb].
  - destruct k as [|k]; [apply firstIs_one |].
    destruct Hstop as [Hstop | Hstop]; [discriminate |].
    unfold step. cbn [rest]. change ("" ++ r) with r.
    destruct r as [|d r]; [apply firstIs_one |].
    simpl in Hstop. rewrite Hstop. apply firstIs_one.
  - simpl in Hw. apply andb_prop in Hw as [Hc Hw].
    destruct k as [|k]; [simpl in Hk; lia |].
    unfold step. cbn [rest].
    change (String c w ++ r) with (String c (w ++ r)). cbv iota beta.
    rewrite Hc. cbn [flat_map].
    unfold remaining, advance. cbn [rest caps String.length].
    replace (String.length (w ++ r) <? S (String.length (w ++ r)))%nat
      with true by (symmetry; apply Nat.ltb_lt; lia).
    cbn [negb Nat.pred predMax option_map].
    rewrite app_nil_r. apply firstIs_app.
    apply IH; [exact Hw | simpl in Hk; lia | | simpl in Hfuel; lia].
    destruct Hstop as [Hstop | Hstop]; [left; simpl in Hstop; lia | now right].
Qed.

(** A lazy run hands over at the first position from which what follows
    succeeds. *)
Lemma run_lazy (k : mstate -> list mstate) (z : mstate) (r : string)
    (cs : list (string * string)) (w : string) :
  allOk ok w = true ->
  forall fuel p, String.length w < fuel ->
  (forall a c b, w = a ++ String c b ->
     k {| prev := prevAfter p a; rest := String c b ++ r; caps := cs |} = []) ->
  firstIs (k {| prev := prevAfter p w; rest := r; caps := cs |}) z ->
  firstIs (flat_map k (repeatMatcher m [] false fuel 0 None
                         {| prev := p; rest := w ++ r; caps := cs |})) z.
Proof.
  induction w as [|c w IH]; intros Hw fuel p Hfuel Hearly Hend;
    (destruct fuel as [|fuel]; [simpl in Hfuel; lia |]);
    rewrite repeatMatcher_S, capClear_nil, m_step; cbn [Nat.eqb andb];
    cbn [flat_map].
  - now apply firstIs_app.
  - assert (E0 := Hearly "" c w eq_refl). cbn [prevAfter] in E0.
    rewrite E0. cbn [app].
    simpl in Hw. apply andb_prop in Hw as [Hc Hw].
    unfold step. cbn [rest].
    change (String c w ++ r) with (String c (w ++ r)). cbv iota beta.
    rewrite Hc. cbn [flat_map].
    unfold remaining, advance. cbn [rest caps String.length].
    replace (String.length (w ++ r) <? S (String.length (w ++ r)))%nat
      with true by (symmetry; apply Nat.ltb_lt; lia).
    cbn [negb Nat.pred predMax option_map].
    rewrite app_nil_r. apply IH; [exact Hw | simpl in Hfuel; lia | | exact Hend].
    intros a d b ->. exact (Hearly (String c a) d b eq_refl).
Qed.

End Run.

Lemma star_first (f : flags) (a : re) (ok : ascii -> bool) (w r : string)
    (p : option ascii) (cs : list (string * string)) :
  reads f a = Some ok -> allOk ok w = true -> stopsAt ok r ->
  firstIs (matches f (star a) {| prev := p; rest := w ++ r; caps := cs |})
    {| prev := prevAfter p w; rest := r; caps := cs |}.
Proof.
  intros R Hw Hr. destruct (reads_step f a ok R) as [G M].
  unfold star. cbn [matches]. rewrite G.
  apply (run_star ok _ M w r Hw Hr).
  unfold remaining. cbn [rest]. rewrite length_app. lia.
Qed.

Lemma plus_first (f : flags) (a : re) (ok : ascii -> bool) (c : ascii)
    (w r : string) (p : option ascii) (cs : list (string * string)) :
  reads f a = Some ok -> allOk ok (String c w) = true -> stopsAt ok r ->
  firstIs (matches f (plus a) {| prev := p; rest := String c w ++ r; caps := cs |})
    {| prev := prevAfter (Some c) w; rest := r; caps := cs |}.
Proof.
  intros R Hw Hr. destruct (reads_step f a ok R) as [G M].
  unfold plus. cbn [matches]. rewrite G.
  apply (run_plus ok _ M c w r _ p cs Hw Hr).
  unfold remaining. cbn [rest]. simpl. rewrite length_app. lia.
Qed.

(** A lazy [a+?] before [k]. *)
Lemma plusLazy_then (f : flags) (a : re) (ok : ascii -> bool)
    (k : mstate -> list mstate) (z : mstate) (c : ascii) (w r : string)
    (p : option ascii) (cs : list (string * string)) :
  reads f a = Some ok -> allOk ok (String c w) = true ->
  (forall a' d b, w = a' ++ String d b ->
     k {| prev := prevAfter (Some c) a'; rest := String d b ++ r; caps := cs |} = []) ->
  firstIs (k {| prev := prevAfter (Some c) w; rest := r; caps := cs |}) z ->
  firstIs (flat_map k (matches f (plusLazy a)
                         {| prev := p; rest := String c w ++ r; caps := cs |})) z.
Proof.
  intros R Hw Hearly Hend. destruct (reads_step f a ok R) as [G M].
  unfold plusLazy. cbn [matches]. rewrite G. cbn [Nat.add].
  rewrite repeatMatcher_S, capClear_nil, M. cbn [Nat.eqb andb].
  simpl in Hw. apply andb_prop in Hw as [Hc Hw].
  unfold step. cbn [rest].
  change (String c w ++ r) with (String c (w ++ r)). cbv iota beta.
  rewrite Hc. cbn [flat_map Nat.pred predMax option_map]. rewrite app_nil_r.
  unfold advance. cbn [caps].
  apply (run_lazy ok _ M k z r cs w Hw); [| exact Hearly | exact Hend].
  unfold remaining. cbn [rest String.length]. rewrite length_app. lia.
Qed.

(** A lazy group [(?<n>a*?)] before [k]. *)
Lemma lazyGroup_then (f : flags) (a : re) (ok : ascii -> bool) (n : string)
    (k : re) (z : mstate) (w r : string)
    (p : option ascii) (cs : list (string * string)) :
  reads f a = Some ok -> allOk ok w = true ->
  (forall a' d b q cs', w = a' ++ String d b ->
     matches f k {| prev := q; rest := String d b ++ r; caps := cs' |} = []) ->
  firstIs (matches f k {| prev := prevAfter p w; rest := r;
                          caps := (n, w) :: capDel n cs |}) z ->
  firstIs (matches f (Seq (Grp n (starLazy a)) k)
             {| prev := p; rest := w ++ r; caps := cs |}) z.
Proof.
  intros R Hw Hearly Hend. destruct (reads_step f a ok R) as [G M].
  rewrite matches_seq.
  change (matches f (Grp n (starLazy a)) ?x)
    with (map (fun y => capSet n (Js.take (remaining x - remaining y) (rest x)) y)
              (matches f (starLazy a) x)).
  rewrite flat_map_of_map. unfold starLazy. cbn [matches]. rewrite G.
  cbn [Nat.add].
  apply (run_lazy ok _ M _ z r cs w Hw).
  - unfold remaining. cbn [rest]. rewrite length_app. lia.
  - intros a' d b E. apply Hearly with (a' := a'). exact E.
  - unfold capSet, remaining. cbn [prev rest caps].
    rewrite take_all. exact Hend.
Qed.

(** A lazy group [(?<n>a+?)] before [k]. *)
Lemma lazyPlusGroup_then (f : flags) (a : re) (ok : ascii -> bool) (n : string)
    (k : re) (z : mstate) (c : ascii) (w r : string)
    (p : option ascii) (cs : list (string * string)) :
  reads f a = Some ok -> allOk ok (String c w) = true ->
  (forall a' d b q cs', w = a' ++ String d b ->
     matches f k {| prev := q; rest := String d b ++ r; caps := cs' |} = []) ->
  firstIs (matches f k {| prev := prevAfter (Some c) w; rest := r;
                          caps := (n, String c w) :: capDel n cs |}) z ->
  firstIs (matches f (Seq (Grp n (plusLazy a)) k)
             {| prev := p; rest := String c w ++ r; caps := cs |}) z.
Proof.
  intros R Hw Hearly Hend.
  rewrite matches_seq.
  change (matches f (Grp n (plusLazy a)) ?x)
    with (map (fun y => capSet n (Js.take (remaining x - remaining y) (rest x)) y)
              (matches f (plusLazy a) x)).
  rewrite flat_map_of_map.
  apply (plusLazy_then f a ok _ z c w r p cs R Hw).
  - intros a' d b E. apply Hearly with (a' := a'). exact E.
  - unfold capSet, remaining. cbn [prev rest caps].
    rewrite take_all. exact Hend.
Qed.

Lemma chrEq_refl (f : flags) (c : ascii) : chrEq f c c = true.
Proof. unfold chrEq. destruct (ignoreCase f); apply Ascii.eqb_refl. Qed.

(** A literal reads itself. *)
Lemma lit_reads (f : flags) (w t : string) (p : option ascii)
    (cs : list (string * string)) :
  matches f (lit w) {| prev := p; rest := w ++ t; caps := cs |}
  = [{| prev := prevAfter p w; rest := t; caps := cs |}].
Proof.
  revert p. induction w as [|c w IH]; intros p; [reflexivity |].
  destruct w as [|d w].
  - apply chr_read, chrEq_refl.
  - change (lit (String c (String d w))) with (Seq (Chr c) (lit (String d w))).
    cbn [matches].
    change (String c (String d w) ++ t) with (String c (String d w ++ t)).
    unfold step at 1. cbn [rest]. rewrite chrEq_refl. cbn [flat_map].
    unfold advance. cbn [caps]. rewrite IH. reflexivity.
Qed.

Lemma firstIs_lit (f : flags) (w t : string) (p : option ascii)
    (cs : list (string * string)) :
  firstIs (matches f (lit w) {| prev := p; rest := w ++ t; caps := cs |})
    {| prev := prevAfter p w; rest := t; caps := cs |}.
Proof. rewrite lit_reads. apply firstIs_one. Qed.

Lemma execFrom_here (f : flags) (r : re) (p : option ascii) (i : nat)
    (s : string) (m : Regex.found) :
  matchAt f r p i s = Some m -> execFrom f r p i s = Some m.
Proof. intros H. destruct s; cbn [execFrom]; now rewrite H. Qed.

(** An optional pattern that matches is taken. *)
Lemma firstIs_opt_present (f : flags) (a : re) (x y : mstate) :
  groupNames a = [] -> firstIs (matches f a x) y ->
  remaining y < remaining x ->
  firstIs (matches f (opt a) x) y.
Proof.
  intros G [o E] L. unfold opt. rewrite matches_rep, G. cbn [Nat.add].
  rewrite repeatMatcher_S, capClear_nil, E. cbn [Nat.eqb andb flat_map].
  replace (remaining y <? remaining x)%nat with true
    by (symmetry; now apply Nat.ltb_lt).
  cbn [negb Nat.pred predMax option_map].
  destruct (remaining x) as [|n]; [lia |]. rewrite repeatMatcher_S.
  eexists. reflexivity.
Qed.

Lemma opt_chr_cases (f : flags) (ch : ascii) (p : option ascii) (s : string)
    (cs : list (string * string)) :
  matches f (opt (Chr ch)) {| prev := p; rest := s; caps := cs |}
  = match s with
    | String d t =>
        if chrEq f ch d
        then [{| prev := Some d; rest := t; caps := cs |};
              {| prev := p; rest := s; caps := cs |}]
        else [{| prev := p; rest := s; caps := cs |}]
    | "" => [{| prev := p; rest := s; caps := cs |}]
    end.
Proof.
  unfold opt. cbn [matches groupNames Nat.add].
  rewrite repeatMatcher_S, capClear_nil. cbn [Nat.eqb andb].
  unfold step. cbn [rest].
  destruct s as [|d t]; [reflexivity |].
  destruct (chrEq f ch d); [| reflexivity].
  cbn [flat_map]. unfold remaining, advance. cbn [rest caps String.length].
  replace (String.length t <? S (String.length t))%nat
    with true by (symmetry; apply Nat.ltb_lt; lia).
  cbn [negb Nat.pred predMax option_map]. rewrite repeatMatcher_S.
  reflexivity.
Qed.

(** ** A registry alias at the head of a reference *)

Lemma alias_first (name rest : string) (c : ascii) (w : string) :
  rest = String c w -> allOk anyOk rest = true ->
  exec noFlags (aliasRegex name) (name ++ "/" ++ rest)
  = Some {| index := 0; matched := name ++ "/" ++ rest; after := "";
            groups := [("depName", rest); ("prefix", name)] |}.
Proof.
  intros E Hrest.
  assert (F : firstIs
    (matches noFlags (aliasRegex name)
       {| prev := None; rest := name ++ "/" ++ rest; caps := [] |})
    {| prev := prevAfter (Some c) w; rest := "";
       caps := [("depName", rest); ("prefix", name)] |}).
  { unfold aliasRegex. cbn [seq].
    eapply firstIs_seq.
    { eapply (firstIs_group noFlags "prefix" _ _ _ ("/" ++ rest) name []);
        [apply firstIs_lit | reflexivity]. }
    eapply firstIs_seq; [apply firstIs_chr, chrEq_refl |].
    apply (firstIs_group noFlags "depName" _ _ _ "" rest [("prefix", name)]);
      [| cbn [Regex.rest]; now rewrite app_empty_r].
    subst rest. rewrite <- (app_empty_r (String c w)) at 1.
    apply (plus_first noFlags Any anyOk); [reflexivity | exact Hrest | exact I]. }
  unfold exec. apply execFrom_here.
  rewrite (matchAt_first _ _ _ 0 _ _ F).
  cbn [remaining Regex.rest caps String.length]. rewrite Nat.sub_0_r, take_full.
  reflexivity.
Qed.

(** X8. A reference that opens with the name of the first alias and a
    slash is resolved through it: the descriptor is that of
    [value/rest], as [getDep] builds it without an alias map, and its
    replace string is the reference as it was written. *)
Theorem alias_prefix_rewrites iv b (name value rest : string)
    (more : dict string) :
  rest <> "" -> allOk anyOk rest = true ->
  let written := name ++ "/" ++ rest in
  let d := getDep iv (Some written) b ((name, value) :: more) in
  sameIdentity (getDep iv (Some (value ++ "/" ++ rest)) true []) d
  /\ replaceString d = Some written.
Proof.
  intros Hne Hrest written d.
  assert (E : exists c w, rest = String c w)
    by (destruct rest as [|c w]; [congruence | now exists c, w]).
  destruct E as (c & w & E).
  assert (A : aliasMatch ((name, value) :: more) written = Some (value, rest)).
  { cbn [aliasMatch]. unfold written.
    rewrite (alias_first name rest c w E Hrest). reflexivity. }
  unfold d. rewrite (getDep_alias iv written b _ value rest
                       (slash_not_blank name rest) A).
  change (getDepNoAlias iv (value ++ "/" ++ rest))
    with (getDep iv (Some (value ++ "/" ++ rest)) true []).
  cbv zeta. now repeat split.
Qed.

(** [docker.io/library/nginx:1.25] through the alias of [docker.io]. *)
Lemma alias_prefix_rewrites_witness :
  let d := getDep neverDebian (Some "docker.io/library/nginx:1.25") true
             [("docker.io", "mirror.local")] in
  "library/nginx:1.25" <> ""
  /\ allOk anyOk "library/nginx:1.25" = true
  /\ depName d = Some "mirror.local/library/nginx"
  /\ currentValue d = Some "1.25"
  /\ replaceString d = Some "docker.io/library/nginx:1.25".
Proof.
  cbv zeta. split; [discriminate |]. split; [reflexivity |].
  destruct (alias_prefix_rewrites neverDebian true "docker.io" "mirror.local"
              "library/nginx:1.25" [] ltac:(discriminate) eq_refl)
    as ((N & _ & V & _) & R).
  split; [exact N |]. split; [exact V | exact R].
Defined.

(** ** A default value: [${NAME:-value}] *)

Lemma tail_none (p : option ascii) (cs : list (string * string)) (u : string) :
  u <> "}" ->
  matches noFlags (Seq (Chr "}") Eol) {| prev := p; rest := u; caps := cs |} = [].
Proof.
  intros H. rewrite matches_seq. cbn [matches]. unfold step. cbn [rest].
  destruct u as [|e u]; [reflexivity |].
  destruct (chrEq noFlags "}" e) eqn:E; [| reflexivity].
  unfold chrEq in E. cbn [ignoreCase noFlags] in E.
  apply Ascii.eqb_eq in E. subst e.
  cbn [flat_map]. unfold advance. cbn [rest].
  destruct u as [|e u]; [congruence | reflexivity].
Qed.

Lemma closing_none (p : option ascii) (cs : list (string * string))
    (c : ascii) (b : string) :
  (c = DQUOTE -> b <> "") ->
  matches noFlags closing {| prev := p; rest := String c b ++ "}"; caps := cs |} = [].
Proof.
  intros H. unfold closing. rewrite matches_seq, opt_chr_cases.
  change (String c b ++ "}") with (String c (b ++ "}")). cbv iota beta.
  destruct (chrEq noFlags DQUOTE c) eqn:E.
  - unfold chrEq in E. cbn [ignoreCase noFlags] in E.
    apply Ascii.eqb_eq in E. subst c. specialize (H eq_refl).
    assert (N1 : b ++ "}" <> "}")
      by (destruct b; [congruence | destruct b; discriminate]).
    assert (N2 : String DQUOTE (b ++ "}") <> "}") by (destruct b; discriminate).
    cbn [flat_map]. now rewrite !tail_none by assumption.
  - assert (N2 : String c (b ++ "}") <> "}") by (destruct b; discriminate).
    cbn [flat_map]. now rewrite !tail_none by assumption.
Qed.

Lemma closing_first (p : option ascii) (cs : list (string * string)) :
  firstIs (matches noFlags closing {| prev := p; rest := "}"; caps := cs |})
    {| prev := Some "}"%char; rest := ""; caps := cs |}.
Proof. vm_compute. now exists []. Qed.

Lemma lastChar_app (a : string) (c : ascii) :
  Js.lastChar (a ++ String c "") = Some c.
Proof.
  induction a as [|d a IH]; [reflexivity |].
  change (String d a ++ String c "") with (String d (a ++ String c "")).
  cbn [Js.lastChar]. destruct (a ++ String c "") eqn:E; [| exact IH].
  destruct a; discriminate.
Qed.

Lemma allWord_split (a : string) (d : ascii) (b : string) :
  allWord (a ++ String d b) = true -> isWord d = true.
Proof.
  induction a as [|c a IH]; simpl; intros H; apply andb_prop in H as [H1 H2];
    [exact H1 | now apply IH].
Qed.

Lemma allWord_any (w : string) : allWord w = true -> allOk anyOk w = true.
Proof.
  induction w as [|c w IH]; simpl; [reflexivity |].
  intros H. apply andb_prop in H as [Hc Hw]. rewrite (IH Hw), andb_true_r.
  unfold anyOk. destruct (isLineTerminator c) eqn:T; [| reflexivity].
  exfalso. unfold isLineTerminator in T.
  apply orb_prop in T as [T | T]; apply Nat.eqb_eq in T;
    unfold code in T; rewrite <- (ascii_nat_embedding c), T in Hc; discriminate Hc.
Qed.

Lemma default_first (c : ascii) (w value : string) :
  allWord (String c w) = true -> plainDefault value ->
  exists m,
    exec noFlags defaultValueRegex
      ("${" ++ String c w ++ ":-" ++ value ++ "}") = Some m
    /\ group "value" m = Some value.
Proof.
  intros Hname (Hne & Hany & Hfirst & Hlast).
  assert (F : firstIs
    (matches noFlags defaultValueRegex
       {| prev := None; rest := "${" ++ String c w ++ ":-" ++ value ++ "}";
          caps := [] |})
    {| prev := Some "}"%char; rest := ""; caps := [("value", value)] |}).
  { unfold defaultValueRegex. cbn [seq].
    eapply firstIs_seq; [apply firstIs_one |].
    eapply firstIs_seq; [apply firstIs_chr, chrEq_refl |].
    eapply firstIs_seq; [apply firstIs_chr, chrEq_refl |].
    rewrite matches_seq.
    apply (plusLazy_then noFlags Any anyOk); [reflexivity | now apply allWord_any | |].
    - intros a' d b E. apply none_seq_first, chr_refused.
      change (String d b ++ ":-" ++ value ++ "}") with (String d (b ++ ":-" ++ value ++ "}")).
      cbv iota beta. unfold chrEq. cbn [ignoreCase noFlags].
      assert (Hd : isWord d = true).
      { simpl in Hname. apply andb_prop in Hname as [_ Hname].
        rewrite E in Hname. exact (allWord_split _ _ _ Hname). }
      destruct (Ascii.eqb_spec ":" d) as [<- | _]; [discriminate Hd | reflexivity].
    - eapply firstIs_seq; [apply firstIs_chr, chrEq_refl |].
      eapply firstIs_seq; [apply firstIs_chr, chrEq_refl |].
      eapply firstIs_seq.
      { apply firstIs_opt_absent. destruct value as [|v value']; [now elim Hne |].
        change (String v value' ++ "}") with (String v (value' ++ "}")). cbv iota beta.
        unfold chrEq. cbn [ignoreCase noFlags].
        destruct (Ascii.eqb_spec DQUOTE v) as [<- | _]; [| reflexivity].
        now elim Hfirst. }
      apply (lazyGroup_then noFlags Any anyOk "value" closing); [reflexivity | exact Hany | |].
      + intros a' d b q cs' E. apply closing_none. intros -> ->.
        apply Hlast. rewrite E. apply lastChar_app.
      + apply closing_first. }
  eexists. split.
  - unfold exec. apply execFrom_here. apply (matchAt_first _ _ _ 0 _ _ F).
  - reflexivity.
Qed.

Lemma includes_head (c : ascii) (t : string) :
  Js.includes (String c t) (String c "") = true.
Proof. simpl. now rewrite Ascii.eqb_refl. Qed.

(** X9. [splitImageParts] reads [${NAME:-value}], for a default that
    holds no variable and is written without quotes, as it reads [value]
    alone: the same name, tag and digest, an empty tag or digest being
    dropped, and [value] as the replace string. *)
Theorem default_value_unwrapped (c : ascii) (w value : string) :
  allWord (String c w) = true -> plainDefault value ->
  occurs "$" value = false ->
  splitImageParts ("${" ++ String c w ++ ":-" ++ value ++ "}")
  = let d := splitImageParts value in
    setCurrentDigest (dropFalsy (currentDigest d))
      (setCurrentValue (dropFalsy (currentValue d))
         (setReplaceString (Some value) d)).
Proof.
  intros Hname Hplain Hvalue.
  destruct (default_first c w value Hname Hplain) as (m & E & G).
  assert (Hne : Js.truthy (Some value) = true).
  { destruct Hplain as [Hne _]. destruct value; [congruence | reflexivity]. }
  assert (Hinc : Js.includes value variableMarker = false)
    by (unfold variableMarker; now rewrite includes_char).
  assert (C : cleanCurrentFrom ("${" ++ String c w ++ ":-" ++ value ++ "}")
              = (true, value)).
  { unfold cleanCurrentFrom. rewrite E, G, Hne.
    unfold variableMarker.
    change ("${" ++ String c w ++ ":-" ++ value ++ "}")
      with (String "$" ("{" ++ String c w ++ ":-" ++ value ++ "}")).
    now rewrite includes_head. }
  unfold splitImageParts at 1. rewrite C, Hinc, andb_false_r.
  unfold splitImageParts. rewrite (cleanCurrentFrom_plain value Hinc), Hinc.
  cbn [andb]. cbv zeta.
  destruct ((List.length (Js.split ":" (nth 0 (Js.split "@" value) "")) =? 1)%nat
            || Js.includes (last (Js.split ":" (nth 0 (Js.split "@" value) "")) "") "/");
    reflexivity.
Qed.

(** [${IMAGE:-alpine:3.18}] *)
Lemma default_value_unwrapped_witness :
  let d := splitImageParts "${IMAGE:-alpine:3.18}" in
  allWord "IMAGE" = true /\ plainDefault "alpine:3.18"
  /\ depName d = Some "alpine" /\ currentValue d = Some "3.18"
  /\ replaceString d = Some "alpine:3.18".
Proof.
  cbv zeta. split; [reflexivity |].
  assert (P : plainDefault "alpine:3.18")
    by (repeat split; try discriminate; reflexivity).
  split; [exact P |].
  assert (D := default_value_unwrapped "I" "MAGE" "alpine:3.18" eq_refl P eq_refl).
  cbn [append] in D. rewrite D. repeat split.
Defined.

(** ** The port of [quay.io] *)

Lemma digit_cls (f : flags) (c : ascii) :
  xorb false (clsHas f [CRange "0" "9"] c) = isDigit c.
Proof.
  destruct f as [[] m]; destruct c as [[] [] [] [] [] [] [] []]; reflexivity.
Qed.

Lemma digits_read (f : flags) (s : string) :
  allOk isDigit s = true ->
  allOk (fun c => xorb false (clsHas f [CRange "0" "9"] c)) s = true.
Proof. apply allOk_weaken. intros c H. cbv beta. now rewrite digit_cls. Qed.

Lemma digits_stop (f : flags) (s : string) :
  stopsAt isDigit s ->
  stopsAt (fun c => xorb false (clsHas f [CRange "0" "9"] c)) s.
Proof. destruct s as [|c s]; [trivial |]. cbn [stopsAt]. now rewrite digit_cls. Qed.

Lemma quayPort_first (p : option ascii) (d1 : ascii) (ds tail : string) :
  inRange "1" "9" d1 = true -> allOk isDigit ds = true ->
  String.length ds <= 4 -> String.length ds = 4 \/ stopsAt isDigit tail ->
  firstIs (matches flag_i quayPort
             {| prev := p; rest := ":" ++ String d1 ds ++ tail; caps := [] |})
    {| prev := prevAfter (Some d1) ds; rest := tail; caps := [] |}.
Proof.
  intros H1 Hds Hlen Hstop. unfold quayPort. cbn [seq].
  eapply firstIs_seq; [apply firstIs_chr, chrEq_refl |].
  eapply firstIs_seq
    with (y := {| prev := Some d1; rest := ds ++ tail; caps := [] |}).
  { cbn [matches]. unfold step. cbn [rest].
    change (String d1 ds ++ tail) with (String d1 (ds ++ tail)). cbv iota beta.
    unfold clsHas. cbn [existsb itemHas]. rewrite H1. apply firstIs_one. }
  rewrite matches_rep. cbn [groupNames Nat.add].
  apply (run_bounded (fun c => xorb false (clsHas flag_i [CRange "0" "9"] c)));
    [reflexivity | now apply digits_read | exact Hlen | |].
  - destruct Hstop as [Hstop | Hstop]; [now left | right; now apply digits_stop].
  - unfold remaining. cbn [rest]. rewrite length_app. lia.
Qed.

Lemma eqb_longer (p t : string) : p <> "" -> String.eqb t (p ++ t) = false.
Proof.
  intros N. destruct (String.eqb_spec t (p ++ t)) as [E | _]; [| reflexivity].
  exfalso. apply (f_equal String.length) in E. rewrite length_app in E.
  destruct p; [congruence | simpl in E; lia].
Qed.

Lemma eqb_app_l (a s t : string) : String.eqb (a ++ s) (a ++ t) = String.eqb s t.
Proof.
  induction a as [|c a IH]; [reflexivity |]. simpl. now rewrite Ascii.eqb_refl.
Qed.

(** X10. A name that opens with [quay.io:] and a port, one digit from 1
    to 9 and up to four more digits, as many as there are, loses the
    port: the name becomes [quay.io] and what followed the port, the name
    as written goes to [packageName], and the template renders
    [packageName]. *)
Theorem quay_port_hidden (d : PackageDependency) (d1 : ascii) (ds tail : string) :
  let name := "quay.io:" ++ String d1 ds ++ tail in
  depName d = Some name ->
  inRange "1" "9" d1 = true -> allOk isDigit ds = true ->
  String.length ds <= 4 -> String.length ds = 4 \/ stopsAt isDigit tail ->
  hideQuayPort d
  = setAutoReplaceStringTemplate (Some packageNameTemplate)
      (setDepName (Some ("quay.io" ++ tail)) (setPackageName (Some name) d)).
Proof.
  intros name Hname H1 Hds Hlen Hstop.
  assert (F : firstIs
    (matches flag_i quayRegex {| prev := None; rest := name; caps := [] |})
    {| prev := prevAfter (Some d1) ds; rest := tail; caps := [] |}).
  { unfold quayRegex. cbn [seq]. fold quayPort.
    eapply firstIs_seq; [apply firstIs_one |].
    eapply firstIs_seq; [apply (firstIs_lit flag_i "quay.io") |].
    apply firstIs_opt_present; [reflexivity | now apply quayPort_first |].
    unfold remaining. cbn [rest String.length]. rewrite length_app.
    simpl. lia. }
  assert (E : exec flag_i quayRegex name
              = Some {| index := 0;
                        matched := Js.take (String.length name - String.length tail) name;
                        after := tail; groups := [] |}).
  { unfold exec. apply execFrom_here. apply (matchAt_first _ _ _ 0 _ _ F). }
  unfold hideQuayPort. rewrite Hname.
  unfold test, replace. rewrite E. cbn [index after matched].
  replace (Js.truthy (Some name)) with true by reflexivity. cbn [andb].
  replace (Js.take 0 name) with "" by reflexivity.
  rewrite getSubstitution_plain by reflexivity.
  change ("" ++ "quay.io" ++ tail) with ("quay.io" ++ tail).
  replace (String.eqb ("quay.io" ++ tail) name) with false; [reflexivity |].
  symmetry. unfold name.
  change ("quay.io:" ++ String d1 ds ++ tail)
    with ("quay.io" ++ (":" ++ String d1 ds) ++ tail).
  rewrite eqb_app_l. apply eqb_longer. discriminate.
Qed.

(** [quay.io:443/org/app] *)
Lemma quay_port_hidden_witness :
  let d := setDepName (Some "quay.io:443/org/app") emptyDep in
  inRange "1" "9" "4" = true /\ allOk isDigit "43" = true
  /\ stopsAt isDigit "/org/app"
  /\ depName (hideQuayPort d) = Some "quay.io/org/app"
  /\ packageName (hideQuayPort d) = Some "quay.io:443/org/app".
Proof.
  cbv zeta. split; [reflexivity |]. split; [reflexivity |].
  split; [reflexivity |].
  rewrite (quay_port_hidden (setDepName (Some "quay.io:443/org/app") emptyDep)
             "4" "43" "/org/app" eq_refl eq_refl eq_refl
             ltac:(simpl; lia) (or_intror eq_refl)).
  split; reflexivity.
Defined.

(** ** The candidate images of an instruction *)

Section RepeatCaps.
Variable m : mstate -> list mstate.
Hypothesis m_caps : forall x y, In y (m x) -> caps y = caps x.

Lemma repeatMatcher_caps (greedy : bool) (fuel min : nat) (max : option nat)
    (x y : mstate) :
  In y (repeatMatcher m [] greedy fuel min max x) -> caps y = caps x.
Proof.
  revert min max x. induction fuel as [|fuel IH]; intros min max x; [intros [] |].
  rewrite repeatMatcher_S, capClear_nil.
  assert (again : forall l,
    In y (flat_map (fun z =>
      if (min =? 0)%nat && negb (remaining z <? remaining x)%nat then []
      else repeatMatcher m [] greedy fuel (pred min) l z) (m x)) ->
    caps y = caps x).
  { intros l H. apply in_flat_map in H as (z & Hz & Hy).
    destruct ((min =? 0)%nat && negb (remaining z <? remaining x)%nat);
      [destruct Hy |].
    rewrite (IH _ _ _ Hy). now apply m_caps. }
  assert (here : In y [x] -> caps y = caps x) by (now intros [<- | []]).
  destruct max as [[|k]|]; [exact here | |]; cbv zeta;
    (destruct (min =? 0)%nat; [destruct greedy |]);
    intros H; try apply in_app_or in H; try destruct H as [H | H];
    eauto; try (subst; reflexivity).
Qed.

End RepeatCaps.

(** A pattern without groups leaves the captures as they are. *)
Lemma matches_caps (f : flags) (r : re) (x y : mstate) :
  groupNames r = [] -> In y (matches f r x) -> caps y = caps x.
Proof.
  revert x y. induction r as [| p | neg items | | | | a IHa b IHb | a IHa b IHb
                              | greedy min max a IHa | name a IHa];
    intros x y G; cbn [matches].
  - now intros [<- | []].
  - intros H. destruct (step_inv _ _ _ H) as (c & _ & _ & ->). reflexivity.
  - intros H. destruct (step_inv _ _ _ H) as (c & _ & _ & ->). reflexivity.
  - intros H. destruct (step_inv _ _ _ H) as (c & _ & _ & ->). reflexivity.
  - destruct (prev x) as [c|]; [destruct (multiline f && isLineTerminator c) |];
      first [now intros [<- | []] | intros []].
  - destruct (rest x) as [|c t];
      [| destruct (multiline f && isLineTerminator c)];
      first [now intros [<- | []] | intros []].
  - simpl in G. apply app_eq_nil in G as [Ga Gb].
    intros H. apply in_flat_map in H as (z & Hz & Hy).
    rewrite (IHb _ _ Gb Hy). now apply IHa.
  - simpl in G. apply app_eq_nil in G as [Ga Gb].
    intros H. apply in_app_or in H as [H | H]; eauto.
  - simpl in G. rewrite G. apply repeatMatcher_caps. intros u v. now apply IHa.
  - discriminate G.
Qed.

Lemma imageChar_ok (f : flags) (c : ascii) :
  xorb true (clsHas f [CSpace; CChar "+"] c) = true -> imageOk c = true.
Proof.
  unfold clsHas, imageOk. cbn [existsb itemHas xorb]. intros H.
  apply negb_true_iff in H.
  apply orb_false_elim in H as [H1 H2]. apply orb_false_elim in H1 as [H1 _].
  apply orb_false_elim in H2 as [H2 _]. apply orb_false_elim in H2 as [H2 _].
  now rewrite H1, H2.
Qed.

Lemma imageOk_cls (f : flags) (c : ascii) :
  imageOk c = true -> xorb true (clsHas f [CSpace; CChar "+"] c) = true.
Proof.
  intros H. destruct f as [[] m];
    destruct c as [[] [] [] [] [] [] [] []]; try discriminate H; reflexivity.
Qed.

Lemma imageOk_any (s : string) : allOk imageOk s = true -> allOk anyOk s = true.
Proof.
  apply allOk_weaken. intros c H.
  destruct c as [[] [] [] [] [] [] [] []]; try discriminate H; reflexivity.
Qed.

Lemma space_cls (f : flags) (c : ascii) : clsHas f [CSpace] c = isSpace c.
Proof.
  destruct f as [[] m]; destruct c as [[] [] [] [] [] [] [] []]; reflexivity.
Qed.

(** What the group of an image has captured. *)
Lemma image_group (f : flags) (x y : mstate) :
  In y (matches f (Grp "image" (plus imageChar)) x) ->
  exists v, rest x = v ++ rest y /\ v <> "" /\ allOk imageOk v = true
            /\ capGet "image" (caps y) = Some v.
Proof.
  cbn [matches]. intros H. apply in_map_iff in H as (z & <- & Hz).
  unfold plus, imageChar in Hz. cbn [matches groupNames] in Hz.
  apply (run_in (fun c => xorb true (clsHas f [CSpace; CChar "+"] c))) in Hz;
    [| reflexivity | exact I].
  destruct Hz as (b & E & A & L & _).
  exists b. unfold capSet, remaining. cbn [rest caps capGet].
  rewrite E, take_all. repeat split.
  - destruct b; [simpl in L; lia | discriminate].
  - revert A. apply allOk_weaken. apply imageChar_ok.
Qed.

Lemma substring_suffix (v q s post : string) :
  suffixOf q s -> q = v ++ post -> substring v s.
Proof. intros [pre ->] ->. now exists pre, post. Qed.

Lemma substring_of_suffix (v q s : string) :
  suffixOf q s -> substring v q -> substring v s.
Proof.
  intros [p ->] (pre & post & ->). exists (p ++ pre), post.
  now rewrite app_assoc.
Qed.

Lemma substring_occurs (c : ascii) (v s : string) :
  substring v s -> occurs c s = false -> occurs c v = false.
Proof.
  intros (pre & post & ->). rewrite !occurs_app. intros H.
  apply orb_false_elim in H as [_ H]. now apply orb_false_elim in H.
Qed.

(** The states in which the pattern of [FROM] ends. *)
Lemma fromRegex_image (x y : mstate) :
  In y (matches flag_im fromRegex x) ->
  exists v, capGet "image" (caps y) = Some v /\ candidate (rest x) v.
Proof.
  unfold fromRegex. cbn [seq].
  rewrite matches_seq. intros H. apply in_flat_map in H as (x1 & H1 & H).
  rewrite matches_seq in H. apply in_flat_map in H as (x2 & H2 & H).
  rewrite matches_seq in H. apply in_flat_map in H as (x3 & H3 & H).
  rewrite matches_seq in H. apply in_flat_map in H as (x4 & H4 & H).
  rewrite matches_seq in H. apply in_flat_map in H as (x5 & H5 & H).
  apply matches_caps in H; [| reflexivity].
  destruct (image_group _ _ _ H5) as (v & E & N & A & C).
  exists v. split; [congruence |]. split; [exact N |]. split; [exact A |].
  apply (substring_suffix v (rest x4) (rest x) (rest x5)); [| exact E].
  apply matches_suffix in H1, H2, H3, H4.
  eauto using suffixOf_trans.
Qed.

(** The states in which the pattern of [--pull] ends. *)
Lemma imageRegex_image (x y : mstate) :
  In y (matches flag_im imageRegex x) ->
  exists v, capGet "image" (caps y) = Some v /\ candidate (rest x) v.
Proof.
  unfold imageRegex. cbn [seq].
  rewrite matches_seq. intros H. apply in_flat_map in H as (x1 & H1 & H).
  rewrite matches_seq in H. apply in_flat_map in H as (x2 & H2 & H).
  destruct (image_group _ _ _ H) as (v & E & N & A & C).
  exists v. split; [exact C |]. split; [exact N |]. split; [exact A |].
  apply (substring_suffix v (rest x2) (rest x) (rest y)); [| exact E].
  apply matches_suffix in H1, H2.
  eauto using suffixOf_trans.
Qed.

Lemma matchAt_inv (f : flags) (r : re) (p : option ascii) (i : nat) (s : string)
    (m : Regex.found) :
  matchAt f r p i s = Some m ->
  exists y, In y (matches f r {| prev := p; rest := s; caps := [] |})
            /\ groups m = caps y.
Proof.
  unfold matchAt. destruct (matches f r _) as [|y o]; [discriminate |].
  intros [= <-]. exists y. split; [now left | reflexivity].
Qed.

Lemma suffixOf_tail (c : ascii) (q s : string) :
  suffixOf q s -> suffixOf q (String c s).
Proof. intros [p ->]. now exists (String c p). Qed.

Lemma execFrom_inv (f : flags) (r : re) (p : option ascii) (i : nat) (s : string)
    (m : Regex.found) :
  execFrom f r p i s = Some m ->
  exists p' i' s', suffixOf s' s /\ matchAt f r p' i' s' = Some m.
Proof.
  revert p i. induction s as [|c s IH]; intros p i; cbn [execFrom];
    destruct (matchAt f r p i _) as [m'|] eqn:E.
  - intros [= <-]. exists p, i, "". split; [apply suffixOf_refl | exact E].
  - discriminate.
  - intros [= <-]. exists p, i, (String c s). split; [apply suffixOf_refl | exact E].
  - intros H. destruct (IH _ _ H) as (p' & i' & s' & S & M).
    exists p', i', s'. split; [now apply suffixOf_tail | exact M].
Qed.

Lemma execAllFrom_inv (f : flags) (r : re) (s : string) (p : option ascii)
    (i skip : nat) (m : Regex.found) :
  In m (execAllFrom f r p i skip s) ->
  exists p' i' s', suffixOf s' s /\ matchAt f r p' i' s' = Some m.
Proof.
  revert p i skip. induction s as [|c s IH]; intros p i skip;
    destruct skip; cbn [execAllFrom]; try (intros []; fail).
  - destruct (matchAt f r p i "") as [m'|] eqn:E; cbv iota; [| intros []].
    intros [<- | []]. exists p, i, "". split; [apply suffixOf_refl | exact E].
  - destruct (matchAt f r p i (String c s)) as [m'|] eqn:E; cbv iota.
    + intros [<- | H].
      * exists p, i, (String c s). split; [apply suffixOf_refl | exact E].
      * destruct (IH _ _ _ H) as (p' & i' & s' & S & M).
        exists p', i', s'. split; [now apply suffixOf_tail | exact M].
    + intros H. destruct (IH _ _ _ H) as (p' & i' & s' & S & M).
      exists p', i', s'. split; [now apply suffixOf_tail | exact M].
  - intros H. destruct (IH _ _ _ H) as (p' & i' & s' & S & M).
    exists p', i', s'. split; [now apply suffixOf_tail | exact M].
Qed.

Lemma capturedImage_candidate (instruction s' : string) (m : Regex.found) (v : string) :
  suffixOf s' instruction ->
  capGet "image" (groups m) = Some v -> candidate s' v ->
  Forall (candidate instruction) (capturedImage m).
Proof.
  intros S C (N & A & Sub). unfold capturedImage, group. rewrite C.
  destruct (Js.truthy (Some v)); constructor; [| constructor].
  split; [exact N |]. split; [exact A |].
  exact (substring_of_suffix _ _ _ S Sub).
Qed.

Lemma instructionImages_candidates (instruction : string) :
  Forall (candidate instruction) (instructionImages instruction).
Proof.
  unfold instructionImages. apply Forall_app. split.
  - destruct (test flag_im withDockerRegex instruction); [| constructor].
    apply Forall_flat_map. apply Forall_forall. intros m Hm.
    apply execAllFrom_inv in Hm as (p' & i' & s' & S & M).
    apply matchAt_inv in M as (y & Hy & G).
    destruct (imageRegex_image _ _ Hy) as (v & C & K).
    apply (capturedImage_candidate instruction s' m v S); [congruence | exact K].
  - destruct (exec flag_im fromRegex instruction) as [m|] eqn:E; [| constructor].
    apply execFrom_inv in E as (p' & i' & s' & S & M).
    apply matchAt_inv in M as (y & Hy & G).
    destruct (fromRegex_image _ _ Hy) as (v & C & K).
    apply (capturedImage_candidate instruction s' m v S); [congruence | exact K].
Qed.

Lemma imageOk_not_blank (s : string) :
  s <> "" -> allOk imageOk s = true -> Js.allSpace s = false.
Proof.
  destruct s as [|c s]; [congruence |]. intros _ H. simpl in H.
  apply andb_prop in H as [H _]. unfold imageOk in H.
  apply andb_prop in H as [H _]. apply negb_true_iff in H.
  simpl. now rewrite H.
Qed.

(** X11. Whatever the instruction, each of its candidate images, from
    [--pull] or from [FROM], is a part of the instruction that is not
    empty and holds no white space and no plus sign; so no candidate is
    blank. *)
Theorem candidate_images_shape (instruction image : string) :
  In image (instructionImages instruction) ->
  image <> ""
  /\ (forall c, occurs c image = true -> isSpace c = false /\ c <> "+"%char)
  /\ substring image instruction
  /\ blankReference (Some image) = false.
Proof.
  intros H.
  assert (C := instructionImages_candidates instruction).
  rewrite Forall_forall in C. destruct (C image H) as (N & A & S).
  split; [exact N |]. split; [| split; [exact S |]].
  - clear -A. induction image as [|d t IH]; intros c O; [discriminate O |].
    simpl in A. apply andb_prop in A as [Ad At].
    simpl in O. destruct (Ascii.eqb_spec d c) as [E | _].
    + subst c. unfold imageOk in Ad. apply andb_prop in Ad as [A1 A2].
      apply negb_true_iff in A1, A2. split; [exact A1 |].
      intros ->. discriminate A2.
    + now apply IH.
  - now apply imageOk_not_blank.
Qed.

Lemma candidate_images_shape_witness :
  In "alpine:3.18" (instructionImages "FROM --platform=linux/amd64 alpine:3.18")
  /\ substring "alpine:3.18" "FROM --platform=linux/amd64 alpine:3.18".
Proof.
  assert (H : In "alpine:3.18"
                (instructionImages "FROM --platform=linux/amd64 alpine:3.18"))
    by (vm_compute; now left).
  split; [exact H |].
  apply (candidate_images_shape _ _ H).
Defined.

(** ** A target header *)

Lemma nonSpace_reads (f : flags) :
  forall s, allOk nonSpaceOk s = true ->
  allOk (fun c => xorb true (clsHas f [CSpace] c)) s = true.
Proof.
  intros s. apply allOk_weaken. intros c H. now rewrite space_cls.
Qed.

Lemma targetEnd_none (p : option ascii) (e : ascii) (u : string)
    (cs : list (string * string)) :
  isSpace e = false ->
  matches flag_im targetEnd {| prev := p; rest := String e u; caps := cs |} = [].
Proof.
  intros H. destruct e as [[] [] [] [] [] [] [] []]; try discriminate H;
    reflexivity.
Qed.

Lemma targetEnd_at_end (p : option ascii) (cs : list (string * string)) :
  firstIs (matches flag_im targetEnd {| prev := p; rest := ""; caps := cs |})
    {| prev := p; rest := ""; caps := cs |}.
Proof. now exists []. Qed.

Lemma target_first (c : ascii) (w : string) :
  allOk nonSpaceOk (String c w) = true ->
  exists m,
    exec flag_im targetRegex (String c w ++ ":") = Some m
    /\ group "target" m = Some (String c w).
Proof.
  intros Ht.
  assert (F : firstIs
    (matches flag_im targetRegex
       {| prev := None; rest := String c w ++ ":"; caps := [] |})
    {| prev := Some ":"%char; rest := "";
       caps := [("target", String c w)] |}).
  { unfold targetRegex. cbn [seq].
    eapply firstIs_seq; [apply firstIs_one |].
    fold targetEnd.
    apply (lazyPlusGroup_then flag_im nonSpace
             (fun c => xorb true (clsHas flag_im [CSpace] c)));
      [reflexivity | now apply nonSpace_reads | |].
    - intros a' d b q cs' E.
      change (String d b ++ ":") with (String d (b ++ ":")).
      rewrite matches_seq. cbn [matches]. unfold step at 1. cbn [rest].
      destruct (chrEq flag_im ":" d); [| reflexivity].
      cbn [flat_map]. rewrite app_nil_r. unfold advance. cbn [caps].
      assert (Hb : allOk nonSpaceOk (b ++ ":") = true).
      { simpl in Ht. apply andb_prop in Ht as [_ Ht]. rewrite E in Ht.
        rewrite allOk_app in Ht. apply andb_prop in Ht as [_ Ht].
        simpl in Ht. apply andb_prop in Ht as [_ Ht].
        rewrite allOk_app, Ht. reflexivity. }
      destruct (b ++ ":") as [|e u] eqn:Eb; [destruct b; discriminate |].
      apply targetEnd_none. simpl in Hb. apply andb_prop in Hb as [Hb _].
      now apply negb_true_iff in Hb.
    - eapply firstIs_seq; [apply firstIs_chr, chrEq_refl |].
      apply targetEnd_at_end. }
  eexists. split.
  - unfold exec. apply execFrom_here. apply (matchAt_first _ _ _ 0 _ _ F).
  - reflexivity.
Qed.

(** X12. An instruction that is a run of characters without white space
    followed by a colon makes that run the current target, colons and a
    leading [#] included, and changes nothing else. *)
Theorem target_header_sets_target (st : ScanState) (c : ascii) (w : string) :
  let target := String c w in
  allOk nonSpaceOk target = true ->
  updateTarget (target ++ ":") st
  = {| found := found st; args := args st; argsLines := argsLines st;
       currentTarget := target |}.
Proof.
  intros target Ht. destruct (target_first c w Ht) as (m & E & G).
  unfold updateTarget, target. now rewrite E, G.
Qed.

Lemma target_header_sets_target_witness :
  allOk nonSpaceOk "integration-tests" = true
  /\ currentTarget (updateTarget "integration-tests:" initialState)
     = "integration-tests".
Proof.
  split; [reflexivity |].
  assert (T := target_header_sets_target initialState "i" "ntegration-tests"
                 eq_refl).
  cbn [append] in T. now rewrite T.
Defined.

(** ** A declaration *)

Lemma chrEq_im_punct (d c : ascii) :
  isWord d = false -> isWord c = true -> chrEq flag_im d c = false.
Proof. exact (chrEq_i_punct d c). Qed.

Lemma separators_at_space (p : option ascii) (t : string)
    (cs : list (string * string)) :
  matches flag_im separators {| prev := p; rest := String " " t; caps := cs |}
  = [{| prev := Some " "%char; rest := t; caps := cs |}].
Proof. reflexivity. Qed.

Lemma separators_at_word (p : option ascii) (c : ascii) (t : string)
    (cs : list (string * string)) :
  isWord c = true ->
  matches flag_im separators {| prev := p; rest := String c t; caps := cs |} = [].
Proof.
  intros W. unfold separators. cbn [alt].
  assert (R : forall d, isWord d = false ->
    matches flag_im (Chr d) {| prev := p; rest := String c t; caps := cs |} = []).
  { intros d D. apply chr_refused. now apply chrEq_im_punct. }
  rewrite !matches_alt.
  unfold escapedNewline, commentToEol, escapeChar. cbn [seq].
  change (lit "--global") with (Seq (Chr "-") (lit "-global")).
  rewrite !(none_seq_first flag_im (Chr _)) by (apply R; reflexivity).
  rewrite !R by reflexivity. reflexivity.
Qed.

Lemma separators_first (p : option ascii) (c : ascii) (t : string)
    (cs : list (string * string)) :
  isWord c = true ->
  firstIs (matches flag_im (plus separators)
             {| prev := p; rest := String " " (String c t); caps := cs |})
    {| prev := Some " "%char; rest := String c t; caps := cs |}.
Proof.
  intros W. unfold plus. rewrite matches_rep.
  replace (groupNames separators) with (@nil string) by reflexivity.
  cbn [Nat.add]. rewrite repeatMatcher_S, capClear_nil, separators_at_space.
  cbn [Nat.eqb andb flat_map Nat.pred predMax option_map].
  unfold remaining. cbn [rest String.length].
  rewrite repeatMatcher_S, capClear_nil, (separators_at_word _ c t cs W).
  cbn [Nat.eqb andb flat_map app]. apply firstIs_one.
Qed.

Lemma keyword_first (kw t : string) (p : option ascii)
    (cs : list (string * string)) :
  In kw declarationKeywords ->
  firstIs (matches flag_im (alt [lit "ARG"; lit "LET"; lit "SET"])
             {| prev := p; rest := kw ++ t; caps := cs |})
    {| prev := prevAfter p kw; rest := t; caps := cs |}.
Proof.
  intros [<- | [<- | [<- | []]]]; now exists [].
Qed.

Lemma keyword_not_blank (kw t : string) :
  In kw declarationKeywords ->
  stopsAt (fun c => xorb false (clsHas flag_im [CChar " "; CChar TAB] c)) (kw ++ t).
Proof. intros [<- | [<- | [<- | []]]]; reflexivity. Qed.

Lemma declaration_first (kw : string) (c : ascii) (w value : string) :
  In kw declarationKeywords -> allWord (String c w) = true ->
  allOk imageOk value = true ->
  exists m,
    exec flag_im argRegex (kw ++ " " ++ String c w ++ "=" ++ value) = Some m
    /\ group "name" m = Some (String c w) /\ groupText "value" m = value.
Proof.
  intros Hkw Hname Hvalue.
  assert (F : firstIs
    (matches flag_im argRegex
       {| prev := None; rest := kw ++ " " ++ String c w ++ "=" ++ value;
          caps := [] |})
    {| prev := prevAfter (Some "="%char) value; rest := "";
       caps := [("value", value); ("name", String c w)] |}).
  { unfold argRegex. cbn [seq]. fold separators.
    eapply firstIs_seq; [apply firstIs_one |].
    eapply firstIs_seq.
    { eapply (star_first flag_im blank _ "" _ None []);
        [reflexivity | reflexivity | now apply keyword_not_blank]. }
    cbn [prevAfter].
    eapply firstIs_seq; [now apply keyword_first |].
    eapply firstIs_seq.
    { apply separators_first. simpl in Hname. now apply andb_prop in Hname. }
    eapply firstIs_seq.
    { eapply (firstIs_group flag_im "name" _ _ _ ("=" ++ value) (String c w) []);
        [| reflexivity].
      apply word_plus; [exact Hname | reflexivity]. }
    eapply firstIs_seq
      with (y := {| prev := Some "="%char; rest := value;
                    caps := [("name", String c w)] |});
      [apply firstIs_one |].
    apply (firstIs_group flag_im "value" _ _ _ "" value [("name", String c w)]);
      [| cbn [rest]; now rewrite app_empty_r].
    assert (S := star_first flag_im imageChar _ value "" (Some "="%char)
                   [("name", String c w)] eq_refl
                   (allOk_weaken _ _ _ (imageOk_cls flag_im) Hvalue) I).
    now rewrite app_empty_r in S. }
  eexists. split; [| split].
  - unfold exec. apply execFrom_here. apply (matchAt_first _ _ _ 0 _ _ F).
  - reflexivity.
  - reflexivity.
Qed.

Lemma dictGet_dictSet_same {V : Type} (k : string) (v : V) (d : dict V) :
  dictGet k (dictSet k v d) = Some v.
Proof.
  induction d as [|[k0 v0] d IH]; simpl.
  - now rewrite String.eqb_refl.
  - destruct (String.eqb k0 k) eqn:E; simpl.
    + now rewrite String.eqb_refl.
    + now rewrite E.
Qed.

(** X13. The instruction [ARG NAME=value], or [LET] or [SET] for [ARG],
    whose name is a word other than [__proto__] and whose value holds no
    white space and no plus sign, enters the table: later lookups of
    [NAME] find the value, one pair of double quotes around it removed,
    and the line range of the instruction; the target and the
    descriptors collected so far stay as they are. *)
Theorem declaration_enters_table (st : ScanState) (first last : nat)
    (kw : string) (c : ascii) (w value : string) :
  let name := String c w in
  In kw declarationKeywords -> allWord name = true -> name <> "__proto__" ->
  allOk imageOk value = true ->
  let st' := updateArgs (kw ++ " " ++ name ++ "=" ++ value) first last st in
  argsGet (args st') name = ArgString (unquote value)
  /\ argsLinesGet (argsLines st') name = Range first last
  /\ currentTarget st' = currentTarget st /\ found st' = found st.
Proof.
  intros name Hkw Hname Hproto Hvalue st'.
  destruct (declaration_first kw c w value Hkw Hname Hvalue) as (m & E & N & V).
  unfold st', updateArgs, name. rewrite E, N, V. cbn [Js.truthy String.eqb negb].
  cbn [args argsLines currentTarget found].
  unfold argsGet, argsSet, argsLinesGet, argsLinesSet.
  destruct (String.eqb_spec (String c w) "__proto__") as [P | _];
    [now elim Hproto |].
  cbn [ownLines]. rewrite !dictGet_dictSet_same. now repeat split.
Qed.

(** [ARG BASE=Qgolang:1.20Q] on line 3, where Q stands for the double
    quote. *)
Lemma declaration_enters_table_witness :
  let quoted := String DQUOTE ("golang:1.20" ++ String DQUOTE "") in
  let st' := updateArgs ("ARG BASE=" ++ quoted) 3 3 initialState in
  In "ARG" declarationKeywords /\ allWord "BASE" = true
  /\ "BASE" <> "__proto__" /\ allOk imageOk quoted = true
  /\ argsGet (args st') "BASE" = ArgString "golang:1.20"
  /\ argsLinesGet (argsLines st') "BASE" = Range 3 3.
Proof.
  cbv zeta. split; [now left |]. split; [reflexivity |].
  split; [discriminate |]. split; [reflexivity |].
  destruct (declaration_enters_table initialState 3 3 "ARG" "B" "ASE"
              (String DQUOTE ("golang:1.20" ++ String DQUOTE ""))
              (or_introl eq_refl) eq_refl ltac:(discriminate) eq_refl)
    as (A & L & _).
  split; [exact A | exact L].
Defined.

(** ** The images of [FROM] and of [WITH DOCKER --pull] *)

Lemma fromSeparators_at_space (p : option ascii) (t : string)
    (cs : list (string * string)) :
  matches flag_im fromSeparators {| prev := p; rest := String " " t; caps := cs |}
  = [{| prev := Some " "%char; rest := t; caps := cs |}].
Proof. reflexivity. Qed.

Lemma fromSeparators_none (p : option ascii) (c : ascii) (t : string)
    (cs : list (string * string)) :
  imageOk c = true -> imageStart c = true ->
  matches flag_im fromSeparators {| prev := p; rest := String c t; caps := cs |} = [].
Proof.
  intros H1 H2. destruct c as [[] [] [] [] [] [] [] []];
    try discriminate H1; try discriminate H2; reflexivity.
Qed.

Lemma fromSeparators_first (p : option ascii) (c : ascii) (t : string)
    (cs : list (string * string)) :
  imageOk c = true -> imageStart c = true ->
  firstIs (matches flag_im (plus fromSeparators)
             {| prev := p; rest := String " " (String c t); caps := cs |})
    {| prev := Some " "%char; rest := String c t; caps := cs |}.
Proof.
  intros H1 H2. unfold plus. rewrite matches_rep.
  replace (groupNames fromSeparators) with (@nil string) by reflexivity.
  cbn [Nat.add]. rewrite repeatMatcher_S, capClear_nil, fromSeparators_at_space.
  cbn [Nat.eqb andb flat_map Nat.pred predMax option_map].
  unfold remaining. cbn [rest String.length].
  rewrite repeatMatcher_S, capClear_nil, (fromSeparators_none _ c t cs H1 H2).
  cbn [Nat.eqb andb flat_map app]. apply firstIs_one.
Qed.

Lemma from_first (c : ascii) (w : string) :
  allOk imageOk (String c w) = true -> imageStart c = true ->
  exists m,
    exec flag_im fromRegex ("FROM " ++ String c w) = Some m
    /\ group "image" m = Some (String c w).
Proof.
  intros Hi Hs.
  assert (Hc : imageOk c = true) by (simpl in Hi; now apply andb_prop in Hi).
  assert (F : firstIs
    (matches flag_im fromRegex
       {| prev := None; rest := "FROM " ++ String c w; caps := [] |})
    {| prev := prevAfter (Some c) w; rest := "";
       caps := [("image", String c w)] |}).
  { unfold fromRegex. cbn [seq]. fold fromSeparators.
    eapply firstIs_seq; [apply firstIs_one |].
    eapply firstIs_seq
      with (y := {| prev := None; rest := "FROM " ++ String c w; caps := [] |});
      [now exists [] |].
    eapply firstIs_seq; [apply (firstIs_lit flag_im "FROM") |].
    eapply firstIs_seq; [now apply fromSeparators_first |].
    eapply firstIs_seq
      with (y := {| prev := prevAfter (Some c) w; rest := "";
                    caps := [("image", String c w)] |}).
    { apply (firstIs_group flag_im "image" _ _ _ "" (String c w) []);
        [| cbn [rest]; now rewrite app_empty_r].
      assert (S := plus_first flag_im imageChar _ c w "" (Some " "%char) []
                     eq_refl (allOk_weaken _ _ _ (imageOk_cls flag_im) Hi) I).
      now rewrite app_empty_r in S. }
    now exists []. }
  eexists. split.
  - unfold exec. apply execFrom_here. apply (matchAt_first _ _ _ 0 _ _ F).
  - reflexivity.
Qed.

(** A pattern anchored at a line start matches nowhere inside a line. *)
Lemma execFrom_inside_line (f : flags) (r : re) (s : string) :
  allOk anyOk s = true ->
  forall q i, isLineTerminator q = false ->
  execFrom f (Seq Bol r) (Some q) i s = None.
Proof.
  induction s as [|c s IH]; intros Hs q i Hq;
    cbn [execFrom]; unfold matchAt; cbn [matches prev]; rewrite Hq, andb_false_r;
    cbn [flat_map]; [reflexivity |].
  simpl in Hs. apply andb_prop in Hs as [Hc Hs].
  apply IH; [exact Hs |]. unfold anyOk in Hc. now apply negb_true_iff in Hc.
Qed.

Lemma exec_line_start (f : flags) (r : re) (c : ascii) (s : string) :
  matches f r {| prev := None; rest := String c s; caps := [] |} = [] ->
  allOk anyOk (String c s) = true ->
  exec f (Seq Bol r) (String c s) = None.
Proof.
  intros H Hs. unfold exec. cbn [execFrom]. unfold matchAt.
  cbn [matches prev flat_map]. rewrite H. cbn [app].
  simpl in Hs. apply andb_prop in Hs as [Hc Hs].
  apply execFrom_inside_line; [exact Hs |].
  unfold anyOk in Hc. now apply negb_true_iff in Hc.
Qed.

(** [FROM image] has the one candidate [image]. *)
Lemma instructionImages_from (c : ascii) (w : string) :
  allOk imageOk (String c w) = true -> imageStart c = true ->
  instructionImages ("FROM " ++ String c w) = [String c w].
Proof.
  intros Hi Hs. destruct (from_first c w Hi Hs) as (m & E & G).
  unfold instructionImages. rewrite E.
  unfold capturedImage. rewrite G. cbn [Js.truthy String.eqb negb].
  assert (T : exec flag_im withDockerRegex ("FROM " ++ String c w) = None).
  { assert (A : allOk anyOk ("FROM " ++ String c w) = true)
      by (rewrite allOk_app, (imageOk_any _ Hi); reflexivity).
    unfold withDockerRegex. cbn [seq].
    apply exec_line_start; [reflexivity | exact A]. }
  unfold test. now rewrite T.
Qed.

Lemma pull_first (c : ascii) (w : string) (p : option ascii) :
  allOk imageOk (String c w) = true ->
  firstIs
    (matches flag_im imageRegex
       {| prev := p; rest := "--pull " ++ String c w; caps := [] |})
    {| prev := prevAfter (Some c) w; rest := "";
       caps := [("image", String c w)] |}.
Proof.
  intros Hi.
  assert (Hc : imageOk c = true) by (simpl in Hi; now apply andb_prop in Hi).
  unfold imageRegex. cbn [seq].
  eapply firstIs_seq; [apply (firstIs_lit flag_im "--pull") |].
  eapply firstIs_seq
    with (y := {| prev := Some " "%char; rest := String c w; caps := [] |}).
  { apply firstIs_alt_l.
    assert (S := plus_first flag_im space
                   (fun c => xorb false (clsHas flag_im [CSpace] c))
                   " " "" (String c w) (Some "l"%char) [] eq_refl eq_refl).
    apply S. cbn [stopsAt]. rewrite space_cls.
    unfold imageOk in Hc. apply andb_prop in Hc as [Hc _].
    apply negb_true_iff in Hc. now rewrite Hc. }
  apply (firstIs_group flag_im "image" _ _ _ "" (String c w) []);
    [| cbn [rest]; now rewrite app_empty_r].
  assert (S := plus_first flag_im imageChar _ c w "" (Some " "%char) []
                 eq_refl (allOk_weaken _ _ _ (imageOk_cls flag_im) Hi) I).
  now rewrite app_empty_r in S.
Qed.

Lemma execAllFrom_skip_all (f : flags) (r : re) (s : string) :
  (forall p, matches f r {| prev := p; rest := ""; caps := [] |} = []) ->
  forall p i, execAllFrom f r p i (String.length s) s = [].
Proof.
  intros H. induction s as [|c s IH]; intros p i.
  - cbn [String.length execAllFrom]. unfold matchAt. now rewrite H.
  - cbn [String.length execAllFrom]. apply IH.
Qed.

(** X14. The instruction [WITH DOCKER --pull image], for an image without
    white space and plus sign, has exactly the one candidate [image]. *)
Theorem with_docker_pull_candidate (c : ascii) (w : string) :
  let image := String c w in
  allOk imageOk image = true ->
  instructionImages ("WITH DOCKER --pull " ++ image) = [image].
Proof.
  intros image Hi. subst image. unfold instructionImages.
  replace (test flag_im withDockerRegex ("WITH DOCKER --pull " ++ String c w))
    with true by reflexivity.
  assert (Hany : allOk anyOk ("WITH DOCKER --pull " ++ String c w) = true)
    by (rewrite allOk_app, (imageOk_any _ Hi); reflexivity).
  assert (F : exec flag_im fromRegex ("WITH DOCKER --pull " ++ String c w) = None).
  { unfold fromRegex. cbn [seq]. apply exec_line_start; [reflexivity | exact Hany]. }
  rewrite F, app_nil_r.
  change (execAll flag_im imageRegex ("WITH DOCKER --pull " ++ String c w))
    with (execAllFrom flag_im imageRegex (Some " "%char) 12 0
            ("--pull " ++ String c w)).
  assert (M := matchAt_first _ _ _ 12 _ _ (pull_first c w (Some " "%char) Hi)).
  cbn [append] in M |- *.
  rewrite (execAllFrom_here _ _ _ _ _ _ _ M).
  cbn [matched remaining rest caps]. rewrite Nat.sub_0_r.
  change (String "-" (String "-" (String "p" (String "u" (String "l"
            (String "l" (String " " (String c w))))))))
    with (String "-" ("-pull " ++ String c w)).
  rewrite take_full.
  change (String.length (String "-" ("-pull " ++ String c w)) - 1)
    with (String.length ("-pull " ++ String c w)).
  rewrite execAllFrom_skip_all; reflexivity.
Qed.

Lemma with_docker_pull_candidate_witness :
  allOk imageOk "${TOOL}" = true
  /\ instructionImages "WITH DOCKER --pull ${TOOL}" = ["${TOOL}"].
Proof.
  split; [reflexivity |].
  apply (with_docker_pull_candidate "$" "{TOOL}" eq_refl).
Defined.

(** ** Resolving the variables of a candidate *)

Lemma startsWith_refl (s : string) : Js.startsWith s s = true.
Proof. induction s as [|c s IH]; simpl; [reflexivity | now rewrite Ascii.eqb_refl]. Qed.

Lemma drop_all (s : string) : Js.drop (String.length s) s = "".
Proof. induction s as [|c s IH]; simpl; [reflexivity | exact IH]. Qed.

(** Replacing a text that is the whole string. *)
Lemma replace_whole (s value : string) :
  occurs "$" value = false -> Js.replace s s value = value.
Proof.
  intros V. unfold Js.replace. rewrite (indexOf_prefix s s (startsWith_refl s)).
  cbn [Nat.add]. rewrite drop_all, getSubstitution_plain by exact V.
  replace (Js.take 0 s) with "" by now destruct s.
  apply app_empty_r.
Qed.

(** X15. A candidate [$NAME] or [${NAME}] whose name the table holds,
    with a value free of [$], resolves to that value, and the line range
    recorded for the name is pushed after the range of the
    instruction. *)
Theorem declared_variable_resolves (st : ScanState) (first last : nat)
    (c : ascii) (w value : string) :
  let name := String c w in
  allWord name = true ->
  argsGet (args st) name = ArgString value ->
  occurs "$" value = false ->
  forall image,
    image = "$" ++ name \/ image = "${" ++ name ++ "}" ->
    resolveImage st first last image
    = Ok (value, [Range first last; argsLinesGet (argsLines st) name]).
Proof.
  intros name Hw Harg Hvalue image Himage.
  assert (V : extractVariables image = [(image, Some name)]
              /\ Js.includes image variableMarker = true).
  { destruct Himage as [-> | ->]; split; try reflexivity.
    - now apply extractVariables_simple.
    - now apply extractVariables_complex. }
  destruct V as [V M]. unfold resolveImage. rewrite M, V.
  cbn [substituteVariables substituteVariable propertyKey].
  rewrite Harg. cbn [bind app]. now rewrite replace_whole.
Qed.

(** [${BASE}] on line 4, after [ARG BASE=golang:1.20] on line 1. *)
Lemma declared_variable_resolves_witness :
  let st := updateArgs "ARG BASE=golang:1.20" 1 1 initialState in
  allWord "BASE" = true
  /\ argsGet (args st) "BASE" = ArgString "golang:1.20"
  /\ occurs "$" "golang:1.20" = false
  /\ resolveImage st 4 4 "${BASE}" = Ok ("golang:1.20", [Range 4 4; Range 1 1]).
Proof.
  cbv zeta. split; [reflexivity |]. split; [reflexivity |].
  split; [reflexivity |].
  apply (declared_variable_resolves
           (updateArgs "ARG BASE=golang:1.20" 1 1 initialState) 4 4
           "B" "ASE" "golang:1.20" eq_refl eq_refl eq_refl "${BASE}"
           (or_intror eq_refl)).
Defined.

(** A candidate none of whose variables the table knows is left as it is. *)
Lemma substituteVariables_unknown (table : dict string) (lineTable : ArgsLines)
    (variables : dict (option string)) :
  (forall token name, In (token, name) variables ->
     argsGet table (propertyKey name) = ArgUndefined) ->
  forall acc, substituteVariables table lineTable acc variables = Ok acc.
Proof.
  induction variables as [|[token name] more IH]; intros H acc;
    cbn [substituteVariables]; [reflexivity |].
  unfold substituteVariable. destruct acc as [image ranges].
  rewrite (H token name (or_introl eq_refl)). cbn [bind].
  apply IH. intros t n Hin. apply (H t n). now right.
Qed.

(** X16. When the table knows none of the variables that
    [extractVariables] finds in a candidate, and none is named as a
    member of [Object.prototype], resolution returns the candidate as it
    is, with the range of its instruction alone. *)
Theorem unknown_variables_left (st : ScanState) (first last : nat)
    (image : string) :
  (forall token name, In (token, name) (extractVariables image) ->
     argsGet (args st) (propertyKey name) = ArgUndefined) ->
  resolveImage st first last image = Ok (image, [Range first last]).
Proof.
  intros H. unfold resolveImage.
  destruct (Js.includes image variableMarker); [| reflexivity].
  now apply substituteVariables_unknown.
Qed.

(** [$REGISTRY/app:${TAG}] with only [BASE] declared. *)
Lemma unknown_variables_left_witness :
  let st := updateArgs "ARG BASE=golang:1.20" 1 1 initialState in
  extractVariables "$REGISTRY/app:${TAG}"
  = [("$REGISTRY", Some "REGISTRY"); ("${TAG}", Some "TAG")]
  /\ resolveImage st 4 4 "$REGISTRY/app:${TAG}"
     = Ok ("$REGISTRY/app:${TAG}", [Range 4 4]).
Proof.
  cbv zeta. split; [reflexivity |].
  apply (unknown_variables_left
           (updateArgs "ARG BASE=golang:1.20" 1 1 initialState) 4 4
           "$REGISTRY/app:${TAG}").
  intros token name H. vm_compute in H.
  destruct H as [H | [H | []]]; injection H as <- <-; reflexivity.
Defined.

(** ** The loop over the lines *)

Lemma join_cons (sep x : string) (l : list string) :
  l <> [] -> Js.join sep (x :: l) = x ++ sep ++ Js.join sep l.
Proof. destruct l; [congruence | reflexivity]. Qed.

Lemma join_fold (instruction : string) (ls : list string) :
  fold_left (fun acc l => acc ++ NL ++ l) ls instruction
  = Js.join NL (instruction :: ls).
Proof.
  revert instruction. induction ls as [|l ls IH]; intros instruction;
    [reflexivity |].
  cbn [fold_left]. rewrite IH.
  rewrite (join_cons NL instruction (l :: ls)) by discriminate.
  destruct ls as [|l2 ls]; [reflexivity |].
  rewrite !(join_cons NL _ (l2 :: ls)) by discriminate.
  now rewrite !app_assoc.
Qed.

Lemma foldInstruction_folds (rest : list string) :
  forall instruction lookahead n,
  exists k,
    k <= S (List.length rest)
    /\ foldInstruction instruction lookahead n rest
       = (fold_left (fun acc l => acc ++ NL ++ l)
            (firstn k (rest ++ [""])) instruction, n + k).
Proof.
  induction rest as [|next rest IH]; intros instruction lookahead n;
    cbn [foldInstruction]; destruct (continues instruction lookahead).
  - exists 1. split; [simpl; lia |]. now rewrite Nat.add_1_r.
  - exists 0. split; [lia |]. now rewrite Nat.add_0_r.
  - destruct (IH (instruction ++ NL ++ next) next (S n)) as (k & L & E).
    exists (S k). split; [simpl; lia |]. rewrite E.
    now rewrite Nat.add_succ_r.
  - exists 0. split; [lia |]. now rewrite Nat.add_0_r.
Qed.

(** X17. The instruction that starts on line [n] ends on a line from [n]
    to one past the last line of the file, and its text is the lines of
    that range joined by line feeds, the line past the end counting as
    empty. *)
Theorem foldInstruction_range (line : string) (n : nat) (rest : list string) :
  let folded := foldInstruction line line n rest in
  n <= snd folded /\ snd folded <= S (n + List.length rest)
  /\ fst folded
     = Js.join NL (firstn (S (snd folded - n)) (line :: rest ++ [""])).
Proof.
  cbv zeta. destruct (foldInstruction_folds rest line line n) as (k & L & ->).
  cbn [fst snd]. split; [lia |]. split; [lia |].
  replace (n + k - n) with k by lia. cbn [firstn]. apply join_fold.
Qed.

Lemma foldInstruction_bound (instruction lookahead : string) (n : nat)
    (rest : list string) :
  last (lookahead :: rest) "" = "" ->
  n <= snd (foldInstruction instruction lookahead n rest)
  /\ snd (foldInstruction instruction lookahead n rest) <= n + List.length rest.
Proof.
  revert instruction lookahead n. induction rest as [|next rest IH];
    intros instruction lookahead n L; cbn [foldInstruction].
  - simpl in L. subst lookahead. rewrite continues_past_end. simpl. lia.
  - destruct (continues instruction lookahead); [| simpl; lia].
    destruct (IH (instruction ++ NL ++ next) next (S n)) as [A B].
    { exact L. }
    simpl List.length. lia.
Qed.

Lemma foldInstruction_free (c : ascii) (instruction lookahead : string) (n : nat)
    (rest : list string) :
  Ascii.eqb LF c = false -> occurs c instruction = false ->
  Forall (fun l => occurs c l = false) rest ->
  occurs c (fst (foldInstruction instruction lookahead n rest)) = false.
Proof.
  intros N. revert instruction lookahead n. induction rest as [|next rest IH];
    intros instruction lookahead n I F; cbn [foldInstruction].
  - destruct (continues instruction lookahead); [| exact I].
    cbn [fst]. rewrite !occurs_app, I. unfold NL. cbn [occurs]. now rewrite N.
  - destruct (continues instruction lookahead); [| exact I].
    inversion F as [|x l Fx Fl]; subst. apply IH; [| exact Fl].
    rewrite !occurs_app, I, Fx. unfold NL. cbn [occurs]. now rewrite N.
Qed.

Lemma splitLines_step (c : ascii) (t : string) :
  splitLines (String c t)
  = if Ascii.eqb c LF then "" :: splitLines t
    else if Ascii.eqb c CR then
      match t with
      | String d t' =>
          if Ascii.eqb d LF then "" :: splitLines t'
          else match splitLines t with
               | h :: r => String c h :: r
               | [] => [String c ""]
               end
      | "" => match splitLines t with
              | h :: r => String c h :: r
              | [] => [String c ""]
              end
      end
    else match splitLines t with
         | h :: r => String c h :: r
         | [] => [String c ""]
         end.
Proof. reflexivity. Qed.

(** Every line is part of the text. *)
Lemma splitLines_free_upto (c : ascii) (n : nat) :
  forall content, String.length content <= n ->
  occurs c content = false ->
  Forall (fun l => occurs c l = false) (splitLines content).
Proof.
  induction n as [|n IH]; intros content L O.
  - destruct content; [repeat constructor | simpl in L; lia].
  - destruct content as [|a t]; [repeat constructor |].
    simpl in L. simpl in O. apply orb_false_elim in O as [Oa Ot].
    assert (IHt := IH t ltac:(lia) Ot).
    assert (push : Forall (fun l => occurs c l = false)
                     match splitLines t with
                     | h :: r => String a h :: r
                     | [] => [String a ""]
                     end).
    { destruct (splitLines t) as [|h r].
      - constructor; [| constructor]. simpl. now rewrite Oa.
      - inversion IHt; subst. constructor; [| assumption]. simpl.
        now rewrite Oa. }
    rewrite splitLines_step.
    destruct (Ascii.eqb a LF); [now constructor |].
    destruct (Ascii.eqb a CR); [| exact push].
    destruct t as [|d t']; [exact push |].
    destruct (Ascii.eqb d LF); [| exact push].
    constructor; [reflexivity |]. apply IH; [simpl in L; lia |].
    simpl in Ot. now apply orb_false_elim in Ot.
Qed.

Lemma splitLines_free (c : ascii) (content : string) :
  occurs c content = false ->
  Forall (fun l => occurs c l = false) (splitLines content).
Proof. apply (splitLines_free_upto c (String.length content)). lia. Qed.

(** A text that ends with a line feed has an empty last line. *)
Lemma splitLines_trailing_upto (n : nat) :
  forall body, String.length body <= n ->
  exists front, splitLines (body ++ NL) = (front ++ [""])%list /\ front <> [].
Proof.
  induction n as [|n IH]; intros body L.
  - destruct body; [| simpl in L; lia]. exists [""]. split; [reflexivity | discriminate].
  - destruct body as [|a t]; [exists [""]; split; [reflexivity | discriminate] |].
    simpl in L.
    change (String a t ++ NL) with (String a (t ++ NL)).
    destruct (IH t ltac:(lia)) as (front & E & N).
    assert (push : exists front',
      match splitLines (t ++ NL) with
      | h :: r => String a h :: r
      | [] => [String a ""]
      end = (front' ++ [""])%list /\ front' <> []).
    { rewrite E. destruct front as [|h r]; [congruence |].
      exists (String a h :: r). split; [reflexivity | discriminate]. }
    rewrite splitLines_step.
    destruct (Ascii.eqb a LF).
    { exists ("" :: front). rewrite E. split; [reflexivity | discriminate]. }
    destruct (Ascii.eqb a CR); [| exact push].
    destruct t as [|d t'].
    { exists [""]. split; [reflexivity | discriminate]. }
    change (String d t' ++ NL) with (String d (t' ++ NL)) in *. cbv beta iota.
    destruct (Ascii.eqb d LF); [| exact push].
    destruct (IH t' ltac:(simpl in L; lia)) as (front' & E' & N').
    exists ("" :: front'). rewrite E'. split; [reflexivity | discriminate].
Qed.

Lemma splitLines_trailing (body : string) :
  last (splitLines (body ++ NL)) "" = "".
Proof.
  destruct (splitLines_trailing_upto (String.length body) body (le_n _))
    as (front & -> & _).
  apply last_last.
Qed.

Lemma splitLines_single (s : string) :
  occurs LF s = false -> splitLines s = [s].
Proof.
  induction s as [|c t IH]; [reflexivity |].
  intros H. simpl in H. apply orb_false_elim in H as [Hc Ht].
  rewrite splitLines_step, Hc, (IH Ht).
  destruct (Ascii.eqb c CR); [| reflexivity].
  destruct t as [|d t']; [reflexivity |].
  simpl in Ht. apply orb_false_elim in Ht as [Hd _]. now rewrite Hd.
Qed.

Lemma truthy_iff (s : string) : Js.truthy (Some s) = true <-> s <> "".
Proof.
  unfold Js.truthy. destruct (String.eqb_spec s ""); simpl; split; congruence.
Qed.

Section Scan.
Variable isVersion : option string -> bool.
Variable config : ExtractConfig.

Lemma processImage_inv st lines lineFeed first last image d :
  processImage isVersion config st lines lineFeed first last image = Ok (Some d) ->
  exists image' ranges d1,
    resolveImage st first last image = Ok (image', ranges)
    /\ image' <> "scratch"
    /\ processDepForAutoReplace
         (getDep isVersion (Some image') true (registryAliases config))
         ranges lines lineFeed = Ok d1
    /\ d = setDepType (Some (currentTarget st)) d1.
Proof.
  unfold processImage.
  destruct (resolveImage st first last image) as [[image' ranges]|e];
    cbn [bind]; [| discriminate].
  destruct (String.eqb_spec image' "scratch") as [-> | ne]; [discriminate |].
  destruct (processDepForAutoReplace _ ranges lines lineFeed) as [d1|e] eqn:P;
    cbn [bind]; [| discriminate].
  assert (T : depType d1 = None).
  { destruct (processDepForAutoReplace_keeps _ _ _ _ _ P)
      as (_ & _ & _ & _ & _ & _ & -> & _).
    apply getDep_origin. }
  rewrite T. cbn [Js.truthy]. intros [= <-].
  exists image', ranges, d1. now repeat split.
Qed.

(** X18. A descriptor that the loop pushes for a candidate is the one
    [getDep] builds from the candidate once its variables are resolved,
    never from [scratch]: its name, package name, value, digest,
    datasource, versioning and skip reason are those of [getDep], and its
    dependency type is always the target current at the instruction. *)
Theorem processImage_descriptor st lines lineFeed first last image d :
  processImage isVersion config st lines lineFeed first last image = Ok (Some d) ->
  exists resolved ranges,
    resolveImage st first last image = Ok (resolved, ranges)
    /\ resolved <> "scratch"
    /\ sameIdentity
         (setDepType (Some (currentTarget st))
            (getDep isVersion (Some resolved) true (registryAliases config)))
         d.
Proof.
  intros H.
  destruct (processImage_inv _ _ _ _ _ _ _ H)
    as (image' & ranges & d1 & R & S & P & ->).
  exists image', ranges. split; [exact R |]. split; [exact S |].
  destruct (processDepForAutoReplace_keeps _ _ _ _ _ P)
    as (A1 & A2 & A3 & A4 & A5 & A6 & _ & A8).
  now repeat split.
Qed.

Lemma getDep_wellFormed_parts cf b aliases :
  let g := getDep isVersion cf b aliases in
  skippedOrNamed g
  /\ (datasource g = Some DockerDatasourceId <-> skipReason g <> Some InvalidValue).
Proof.
  cbv zeta. split; [apply getDep_status |].
  destruct (getDep_origin isVersion cf b aliases) as (_ & B1 & B0).
  destruct (blankReference cf).
  - rewrite (B1 eq_refl). split; [discriminate |]. intros N. now elim N.
  - destruct (B0 eq_refl) as [D N]. now split.
Qed.

Lemma processImage_wellFormed st lines lineFeed first last image d :
  currentTarget st <> "" ->
  processImage isVersion config st lines lineFeed first last image = Ok (Some d) ->
  wellFormed d.
Proof.
  intros T H.
  destruct (processImage_inv _ _ _ _ _ _ _ H) as (image' & ranges & d1 & _ & _ & P & ->).
  destruct (processDepForAutoReplace_keeps _ _ _ _ _ P)
    as (N & _ & _ & _ & D & _ & _ & S).
  destruct (getDep_wellFormed_parts (Some image') true (registryAliases config))
    as (G1 & G2).
  split; [| split].
  - unfold skippedOrNamed in *. cbn [skipReason depName setDepType].
    now rewrite N, S.
  - cbn [depType setDepType]. now apply truthy_iff.
  - cbn [datasource skipReason setDepType]. now rewrite D, S.
Qed.

Lemma processImages_good lines lineFeed first last images :
  forall st st', goodState st ->
  processImages isVersion config st lines lineFeed first last images = Ok st' ->
  goodState st'.
Proof.
  induction images as [|image more IH]; intros st st' G; cbn [processImages].
  - now intros [= <-].
  - destruct (processImage isVersion config st lines lineFeed first last image)
      as [dep|e] eqn:P; cbn [bind]; [| discriminate].
    apply IH. destruct G as [T F]. destruct dep as [d|]; [| now split].
    split; [exact T |]. cbn [pushDep found]. apply Forall_app. split; [exact F |].
    constructor; [| constructor].
    exact (processImage_wellFormed _ _ _ _ _ _ _ T P).
Qed.

Lemma updateTarget_good instruction st :
  goodState st -> goodState (updateTarget instruction st).
Proof.
  intros [T F]. unfold updateTarget.
  destruct (exec flag_im targetRegex instruction) as [m|]; [| now split].
  destruct (group "target" m) as [t|]; [| now split].
  destruct (Js.truthy (Some t)) eqn:E; [| now split].
  split; [now apply truthy_iff | exact F].
Qed.

Lemma updateArgs_good instruction first last st :
  goodState st -> goodState (updateArgs instruction first last st).
Proof.
  intros [T F]. unfold updateArgs.
  destruct (exec flag_im argRegex instruction) as [m|]; [| now split].
  destruct (group "name" m) as [t|]; [| now split].
  destruct (Js.truthy (Some t)); now split.
Qed.

Lemma scanLines_good lines lineFeed rest :
  forall skip lineNumber st st', goodState st ->
  scanLines isVersion config lines lineFeed skip lineNumber rest st = Ok st' ->
  goodState st'.
Proof.
  induction rest as [|line rest IH]; intros skip n st st' G; cbn [scanLines].
  - now intros [= <-].
  - destruct skip as [|skip]; [| now apply IH].
    destruct (foldInstruction line line n rest) as [instruction lastLine].
    destruct (processInstruction isVersion config st lines lineFeed n lastLine instruction)
      as [st1|e] eqn:P; cbn [bind]; [| discriminate].
    apply IH. unfold processInstruction in P.
    apply (processImages_good _ _ _ _ _ _ _
             (updateArgs_good _ _ _ _ (updateTarget_good _ _ G)) P).
Qed.

(** X19. Every descriptor that the loop of [extractPackageFile] collects
    is skipped or named, never both and never neither; carries a
    dependency type that is not empty; and names the docker datasource
    exactly when it is not skipped as an invalid value. *)
Theorem extractDeps_wellFormed content collected :
  extractDeps isVersion config content = Ok collected ->
  Forall wellFormed collected.
Proof.
  unfold extractDeps.
  destruct (scanLines isVersion config _ _ 0 0 _ initialState) as [st|e] eqn:S;
    cbn [bind]; [| discriminate].
  intros [= <-].
  assert (G : goodState initialState) by (split; [discriminate | constructor]).
  exact (proj2 (scanLines_good _ _ _ _ _ _ _ G S)).
Qed.

(** *** Files without variables *)

Lemma processImage_plain_ok st lines lineFeed first last image :
  Js.includes image variableMarker = false ->
  first < List.length lines -> last < List.length lines ->
  exists r, processImage isVersion config st lines lineFeed first last image = Ok r.
Proof.
  intros M A B. unfold processImage, resolveImage. rewrite M. cbn [bind].
  destruct (String.eqb image "scratch"); [now eexists |].
  rewrite (processDepForAutoReplace_single _ first last lines lineFeed A B).
  cbn [bind]. now eexists.
Qed.

Lemma processImages_plain_ok lines lineFeed first last images :
  Forall (fun image => Js.includes image variableMarker = false) images ->
  first < List.length lines -> last < List.length lines ->
  forall st, exists st',
    processImages isVersion config st lines lineFeed first last images = Ok st'.
Proof.
  intros F A B. induction F as [|image more M F IH]; intros st; cbn [processImages].
  - now eexists.
  - destruct (processImage_plain_ok st lines lineFeed first last image M A B)
      as [r ->]. cbn [bind]. apply IH.
Qed.

Lemma processInstruction_plain_ok st lines lineFeed first last instruction :
  occurs "$" instruction = false ->
  first < List.length lines -> last < List.length lines ->
  exists st',
    processInstruction isVersion config st lines lineFeed first last instruction
    = Ok st'.
Proof.
  intros M A B. unfold processInstruction.
  apply processImages_plain_ok; [| exact A | exact B].
  eapply Forall_impl; [| apply instructionImages_candidates].
  intros image (_ & _ & S). unfold variableMarker. rewrite includes_char.
  exact (substring_occurs _ _ _ S M).
Qed.

Lemma scanLines_plain_ok lines lineFeed rest :
  forall skip lineNumber st,
  lineNumber + List.length rest = List.length lines ->
  last rest "" = "" ->
  Forall (fun l => occurs "$" l = false) rest ->
  exists st',
    scanLines isVersion config lines lineFeed skip lineNumber rest st = Ok st'.
Proof.
  induction rest as [|line rest IH]; intros skip n st B L F; cbn [scanLines].
  - now eexists.
  - inversion F as [|x l Fline Frest]; subst.
    assert (L' : last rest "" = "").
    { destruct rest as [|l2 rest']; [reflexivity | exact L]. }
    simpl in B.
    destruct skip as [|skip]; [| apply IH; [lia | exact L' | exact Frest]].
    destruct (foldInstruction_bound line line n rest L) as [Lo Hi].
    assert (Free := foldInstruction_free "$" line line n rest eq_refl Fline Frest).
    destruct (foldInstruction line line n rest) as [instruction lastLine].
    cbn [fst snd] in *.
    destruct (processInstruction_plain_ok st lines lineFeed
                n lastLine instruction Free) as [st1 ->]; [lia | lia |].
    cbn [bind]. apply IH; [lia | exact L' | exact Frest].
Qed.

(** X20. Extraction does not throw on a file that holds no [$] and ends
    with a line feed: it returns the descriptors it has collected. *)
Theorem no_variable_no_throw (body : string) :
  occurs "$" body = false ->
  exists collected, extractDeps isVersion config (body ++ NL) = Ok collected.
Proof.
  intros H. unfold extractDeps.
  destruct (scanLines_plain_ok (splitLines (body ++ NL))
              (if Js.includes (body ++ NL) CRLF then CRLF else NL)
              (splitLines (body ++ NL)) 0 0 initialState) as [st ->].
  - reflexivity.
  - apply splitLines_trailing.
  - apply splitLines_free. rewrite occurs_app, H. reflexivity.
  - cbn [bind]. now eexists.
Qed.

End Scan.

(** [ARG BASE=golang:1.20] and [FROM ${BASE}], then [FROM $UNKNOWN]. *)
Lemma processImage_descriptor_witness :
  let st := updateArgs "ARG BASE=golang:1.20" 0 0 initialState in
  let lines := ["ARG BASE=golang:1.20"; "FROM ${BASE}"] in
  exists d,
    processImage neverDebian noAliases st lines NL 1 1 "${BASE}" = Ok (Some d)
    /\ depType d = Some "base" /\ depName d = Some "golang"
    /\ currentValue d = Some "1.20".
Proof.
  cbv zeta. eexists. split; [vm_compute; reflexivity |].
  match goal with
  | |- depType ?d = _ /\ _ =>
      destruct (processImage_descriptor neverDebian noAliases
                  (updateArgs "ARG BASE=golang:1.20" 0 0 initialState)
                  ["ARG BASE=golang:1.20"; "FROM ${BASE}"] NL 1 1 "${BASE}" d
                  ltac:(vm_compute; reflexivity))
        as (resolved & ranges & R & _ & I)
  end.
  vm_compute in R. injection R as <- <-.
  destruct I as (N & _ & V & _ & _ & _ & T & _).
  split; [exact T |]. split; [exact N | exact V].
Defined.

(** The Earthfile of the fixtures. *)
Lemma extractDeps_wellFormed_witness :
  exists collected,
    extractDeps neverDebian noAliases fixture = Ok collected
    /\ List.length collected = 3 /\ Forall wellFormed collected.
Proof.
  eexists. split; [vm_compute; reflexivity |]. split; [reflexivity |].
  apply (extractDeps_wellFormed neverDebian noAliases fixture).
  vm_compute. reflexivity.
Defined.

(** A file with a continuation in its last instruction and a final line
    feed. *)
Lemma no_variable_no_throw_witness :
  occurs "$" ("FROM alpine:3.18 \" ++ NL ++ "  --platform=linux/amd64") = false
  /\ exists collected,
       extractDeps neverDebian noAliases
         (("FROM alpine:3.18 \" ++ NL ++ "  --platform=linux/amd64") ++ NL)
       = Ok collected.
Proof.
  split; [reflexivity |].
  apply (no_variable_no_throw neverDebian noAliases
           ("FROM alpine:3.18 \" ++ NL ++ "  --platform=linux/amd64") eq_refl).
Defined.

(** ** A file that is one [FROM] line *)

Lemma execFrom_alt_none (f : flags) (a b : re) (s : string) :
  forall p i,
  execFrom f a p i s = None -> execFrom f b p i s = None ->
  execFrom f (Alt a b) p i s = None.
Proof.
  induction s as [|c s IH]; intros p i; cbn [execFrom]; unfold matchAt;
    rewrite matches_alt;
    destruct (matches f a _) as [|ya oa]; try discriminate;
    destruct (matches f b _) as [|yb ob]; try discriminate; cbn [app];
    [reflexivity | apply IH].
Qed.

Lemma execFrom_needs_char (f : flags) (ch : ascii) (b : re) (s : string) :
  ignoreCase f = false -> occurs ch s = false ->
  forall p i, execFrom f (Seq (Chr ch) b) p i s = None.
Proof.
  intros Hf. induction s as [|c s IH]; intros H p i;
    cbn [execFrom]; unfold matchAt; rewrite matches_seq;
    cbn [matches]; unfold step; cbn [rest]; [reflexivity |].
  simpl in H. apply orb_false_elim in H as [Hc Hs].
  unfold chrEq. rewrite Hf, Ascii.eqb_sym, Hc. cbn [flat_map].
  now apply IH.
Qed.

(** A line that holds no backslash and does not open with a comment is
    not continued. *)
Lemma single_line_not_continued (c : ascii) (s : string) :
  let line := String c s in
  allOk anyOk line = true -> occurs "\" line = false ->
  matches flag_m (Seq (star blank) (Chr "#"))
    {| prev := None; rest := line; caps := [] |} = [] ->
  forall instruction, continues instruction line = false.
Proof.
  intros line Hany Hback Hstart instruction. unfold continues.
  assert (T : test flag_m lineContinuationRegex line = false);
    [| rewrite T; apply andb_false_r].
  unfold test, exec, lineContinuationRegex, escapeChar. cbn [seq].
  rewrite execFrom_alt_none; [reflexivity | |].
  - now apply execFrom_needs_char.
  - now apply exec_line_start.
Qed.

Lemma from_prefix_split (image b q : string) :
  "FROM " ++ image = b ++ q -> b <> "" ->
  allOk (fun c => xorb true (clsHas flag_im [CSpace] c)) b = true ->
  exists e u, q = String e u /\ chrEq flag_im ":" e = false.
Proof.
  intros E N A.
  destruct b as [|b1 b]; [congruence |]. injection E as <- E.
  destruct b as [|b2 b];
    [exists "R"%char; eexists; split; [symmetry; exact E | reflexivity] |].
  injection E as <- E.
  destruct b as [|b3 b];
    [exists "O"%char; eexists; split; [symmetry; exact E | reflexivity] |].
  injection E as <- E.
  destruct b as [|b4 b];
    [exists "M"%char; eexists; split; [symmetry; exact E | reflexivity] |].
  injection E as <- E.
  destruct b as [|b5 b];
    [exists " "%char; eexists; split; [symmetry; exact E | reflexivity] |].
  injection E as <- E. discriminate A.
Qed.

Lemma from_line_no_target (image : string) :
  allOk anyOk ("FROM " ++ image) = true ->
  exec flag_im targetRegex ("FROM " ++ image) = None.
Proof.
  intros A. unfold targetRegex. cbn [seq].
  change ("FROM " ++ image) with (String "F" ("ROM " ++ image)) in *.
  apply exec_line_start; [| exact A].
  rewrite matches_seq.
  change (matches flag_im (Grp "target" (plusLazy nonSpace)) ?x)
    with (map (fun y => capSet "target"
                          (Js.take (remaining x - remaining y) (rest x)) y)
              (matches flag_im (plusLazy nonSpace) x)).
  rewrite flat_map_of_map. apply flat_map_none. intros y Hy.
  unfold plusLazy, nonSpace in Hy. rewrite matches_rep in Hy.
  cbn [groupNames] in Hy.
  apply (run_in (fun c => xorb true (clsHas flag_im [CSpace] c))) in Hy;
    [| reflexivity | exact I].
  destruct Hy as (b & E & Ab & L & _). cbn [rest] in E.
  destruct (from_prefix_split image b (rest y) E) as (e & u & Eq & Ne);
    [destruct b; [simpl in L; lia | discriminate] | exact Ab |].
  apply none_seq_first. unfold capSet. cbn [matches]. unfold step. cbn [rest].
  now rewrite Eq, Ne.
Qed.

(** X21. A file that is the single line [FROM image], where the image
    holds no white space, plus sign, [$] or backslash, does not open
    with [#] or [-] and is not [scratch], yields exactly one descriptor:
    the one [getDep] builds from the image under the alias map of the
    configuration, with the dependency type [base]. *)
Theorem from_line_extracts (isVersion : option string -> bool)
    (config : ExtractConfig) (c : ascii) (w : string) :
  let image := String c w in
  allOk imageOk image = true -> imageStart c = true ->
  occurs "$" image = false -> occurs "\" image = false ->
  image <> "scratch" ->
  extractDeps isVersion config ("FROM " ++ image)
  = Ok [setDepType (Some "base")
          (getDep isVersion (Some image) true (registryAliases config))].
Proof.
  intros image Hi Hs Hvar Hback Hscratch. subst image.
  set (content := "FROM " ++ String c w).
  assert (Hany : allOk anyOk content = true)
    by (unfold content; rewrite allOk_app, (imageOk_any _ Hi); reflexivity).
  assert (Hlf : occurs LF content = false).
  { clear -Hany. induction content as [|d t IH]; [reflexivity |].
    simpl in Hany. apply andb_prop in Hany as [Hd Ht]. simpl.
    rewrite (IH Ht), orb_false_r.
    destruct d as [[] [] [] [] [] [] [] []]; try discriminate Hd; reflexivity. }
  assert (Hcont : forall instruction, continues instruction content = false).
  { apply (single_line_not_continued "F" ("ROM " ++ String c w));
      [exact Hany | | reflexivity].
    unfold content in *. change (occurs "\" ("FROM " ++ String c w))
      with (occurs "\" (String c w)). exact Hback. }
  assert (T : exec flag_im targetRegex content = None)
    by exact (from_line_no_target _ Hany).
  assert (A : exec flag_im argRegex content = None).
  { unfold argRegex. cbn [seq]. apply exec_line_start; [reflexivity | exact Hany]. }
  assert (C : instructionImages content = [String c w])
    by exact (instructionImages_from c w Hi Hs).
  unfold extractDeps. rewrite (splitLines_single content Hlf).
  cbn [scanLines foldInstruction]. rewrite Hcont.
  unfold processInstruction, updateTarget, updateArgs. rewrite T, A, C.
  cbn [processImages]. unfold processImage, resolveImage.
  unfold variableMarker. rewrite includes_char, Hvar. cbn [bind].
  destruct (String.eqb_spec (String c w) "scratch") as [E | _];
    [now elim Hscratch |].
  rewrite processDepForAutoReplace_single by (simpl; lia). cbn [bind].
  replace (depType (getDep isVersion (Some (String c w)) true (registryAliases config)))
    with (@None string) by (symmetry; apply getDep_origin).
  reflexivity.
Qed.

(** [FROM library/nginx:1.25@sha256:abc] *)
Lemma from_line_extracts_witness :
  let image := "library/nginx:1.25@sha256:abc" in
  allOk imageOk image = true /\ occurs "$" image = false
  /\ occurs "\" image = false
  /\ exists d,
       extractDeps neverDebian noAliases ("FROM " ++ image) = Ok [d]
       /\ summary d = (Some "nginx", Some "1.25", Some "sha256:abc", Some "base")
       /\ packageName d = Some "library/nginx".
Proof.
  cbv zeta. split; [reflexivity |]. split; [reflexivity |].
  split; [reflexivity |]. eexists. split.
  - apply (from_line_extracts neverDebian noAliases "l"
             "ibrary/nginx:1.25@sha256:abc" eq_refl eq_refl eq_refl eq_refl).
    discriminate.
  - split; reflexivity.
Defined.

(** ** The file names of the manager *)

(** A pattern is found in a text when it matches at some position. *)
Lemma execFrom_found (f : flags) (r : re) (s : string) :
  forall p i,
  execFrom f r p i s <> None
  <-> exists pre q, s = pre ++ q
        /\ matches f r {| prev := prevAfter p pre; rest := q; caps := [] |} <> [].
Proof.
  induction s as [|c s IH]; intros p i; cbn [execFrom]; unfold matchAt.
  - destruct (matches f r {| prev := p; rest := ""; caps := [] |}) as [|y o] eqn:E.
    + split; [congruence |]. intros (pre & q & S & M).
      destruct pre; [| discriminate]. simpl in S. subst q. simpl in M. congruence.
    + split; [| discriminate]. intros _. exists "", "". split; [reflexivity |].
      simpl. rewrite E. discriminate.
  - destruct (matches f r {| prev := p; rest := String c s; caps := [] |})
      as [|y o] eqn:E.
    + rewrite IH. split; intros (pre & q & S & M).
      * exists (String c pre), q. split; [simpl; now rewrite S | exact M].
      * destruct pre as [|d pre].
        -- simpl in S. subst q. simpl in M. congruence.
        -- injection S as <- S. exists pre, q. split; [exact S | exact M].
    + split; [| discriminate]. intros _. exists "", (String c s).
      split; [reflexivity |]. simpl. rewrite E. discriminate.
Qed.

Lemma test_found (f : flags) (r : re) (s : string) :
  test f r s = true
  <-> exists pre q, s = pre ++ q
        /\ matches f r {| prev := prevAfter None pre; rest := q; caps := [] |} <> [].
Proof.
  rewrite <- (execFrom_found f r s None 0). unfold test, exec.
  destruct (execFrom f r None 0 s); split; congruence.
Qed.

Lemma lit_in (w : string) (y z : mstate) :
  In z (matches noFlags (lit w) y) -> rest y = w ++ rest z.
Proof.
  revert y. induction w as [|c w IH]; intros y.
  - now intros [<- | []].
  - destruct w as [|d w].
    + intros H. destruct (step_inv _ _ _ H) as (e & E & O & _).
      unfold chrEq in O. cbn [ignoreCase noFlags] in O.
      apply Ascii.eqb_eq in O. subst e. exact E.
    + change (lit (String c (String d w))) with (Seq (Chr c) (lit (String d w))).
      rewrite matches_seq. intros H. apply in_flat_map in H as (x1 & H1 & H).
      destruct (step_inv _ _ _ H1) as (e & E & O & _).
      unfold chrEq in O. cbn [ignoreCase noFlags] in O.
      apply Ascii.eqb_eq in O. subst e. rewrite E, (IH _ H). reflexivity.
Qed.

Lemma eol_in (y z : mstate) :
  In z (matches noFlags Eol y) -> rest y = "" /\ z = y.
Proof.
  cbn [matches]. destruct (rest y) as [|c t]; [| intros []].
  intros [<- | []]. now split.
Qed.

Lemma prevAfter_some (c : ascii) (pre : string) :
  prevAfter (Some c) pre <> None.
Proof.
  revert c. induction pre as [|d pre IH]; intros c; simpl;
    [discriminate | apply IH].
Qed.

Lemma prevAfter_none (pre : string) : prevAfter None pre = None -> pre = "".
Proof.
  destruct pre as [|c pre]; [reflexivity |]. simpl. intros H.
  now elim (prevAfter_some c pre).
Qed.

Lemma nonempty_in {A : Type} (l : list A) : l <> [] <-> exists a, In a l.
Proof.
  destruct l as [|a l]; split.
  - congruence.
  - intros [a []].
  - intros _. exists a. now left.
  - discriminate.
Qed.

(** X22. The first pattern of [fileMatch] is found in a path exactly
    when the path is [Earthfile] or ends with [/Earthfile]. *)
Theorem earthfilePattern_found (path : string) :
  test noFlags earthfilePattern path = true
  <-> path = "Earthfile" \/ exists dir, path = dir ++ "/Earthfile".
Proof.
  rewrite test_found. unfold earthfilePattern. cbn [seq]. split.
  - intros (pre & q & -> & M). apply nonempty_in in M as [z M].
    rewrite matches_seq in M. apply in_flat_map in M as (x1 & H1 & M).
    rewrite matches_seq in M. apply in_flat_map in M as (x2 & H2 & M).
    apply lit_in in H2. apply eol_in in M as [E _]. rewrite E in H2.
    rewrite matches_alt in H1. apply in_app_or in H1 as [H1 | H1].
    + cbn [matches prev] in H1.
      destruct (prevAfter None pre) as [c|] eqn:P; [destruct H1 |].
      destruct H1 as [<- | []]. cbn [rest] in H2.
      apply prevAfter_none in P. subst. now left.
    + destruct (step_inv _ _ _ H1) as (e & E1 & O & _). cbn [rest] in E1.
      unfold chrEq in O. cbn [ignoreCase noFlags] in O.
      apply Ascii.eqb_eq in O. subst e. right. exists pre.
      now rewrite E1, H2.
  - intros [-> | [dir ->]].
    + exists "", "Earthfile". split; [reflexivity | discriminate].
    + exists dir, "/Earthfile". split; [reflexivity |].
      apply nonempty_in.
      exists {| prev := Some "e"%char; rest := ""; caps := [] |}.
      rewrite matches_seq. apply in_flat_map.
      exists {| prev := Some "/"%char; rest := "Earthfile"; caps := [] |}.
      split; [| now left].
      rewrite matches_alt. apply in_or_app. right. now left.
Qed.



(** ** The loops over a global pattern *)

(** X24. Whatever the text, no match that the two [do ... while (match)]
    loops collect, over the pattern of the variables and over the pattern
    of [--pull], is empty: each search resumes further on, and the loop
    comes to its end. *)
Theorem global_matches_nonempty (s : string) :
  Forall (fun m => matched m <> "") (execAll flag_i variableRegex s)
  /\ Forall (fun m => matched m <> "") (execAll flag_im imageRegex s).
Proof.
  split; apply Forall_forall; intros m H.
  - exact (execAll_nonempty flag_i variableRegex s m eq_refl H).
  - exact (execAll_nonempty flag_im imageRegex s m eq_refl H).
Qed.

(** ** The special prefixes *)

Lemma prettyPrefix_strips (b : bool) (d : PackageDependency) (p r : string) :
  depName d = Some (p ++ "/" ++ r) ->
  prettyPrefix b d p
  = let d' := setDepName (Some r) (setPackageName (Some (p ++ "/" ++ r)) d) in
    if b then setAutoReplaceStringTemplate (Some packageNameTemplate) d' else d'.
Proof.
  intros H. unfold prettyPrefix. rewrite H, <- app_assoc.
  now rewrite startsWith_app, replace_prefix.
Qed.

(** X26. A name that opens with [amd64/], [arm64/] or [library/], and
    does not go on with another of these prefixes, loses the prefix: what
    follows becomes the name, the name as written goes to [packageName],
    and, when the replace string is specified, the template renders
    [packageName]. *)
Theorem special_prefix_stripped (b : bool) (d : PackageDependency) (p r : string) :
  In p specialPrefixes -> depName d = Some (p ++ "/" ++ r) ->
  (forall q, In q specialPrefixes -> Js.startsWith r (q ++ "/") = false) ->
  prettyPrefixes b d
  = let d' := setDepName (Some r) (setPackageName (Some (p ++ "/" ++ r)) d) in
    if b then setAutoReplaceStringTemplate (Some packageNameTemplate) d' else d'.
Proof.
  intros Hp Hn Hr. unfold prettyPrefixes. rewrite Hn.
  replace (Js.truthy (Some (p ++ "/" ++ r))) with true
    by (destruct Hp as [<- | [<- | [<- | []]]]; reflexivity).
  assert (named : forall d',
    depName (if b then setAutoReplaceStringTemplate (Some packageNameTemplate)
                         (setDepName (Some r) d')
             else setDepName (Some r) d') = Some r)
    by (intros d'; destruct b; reflexivity).
  assert (Ha := Hr "amd64" (or_introl eq_refl)).
  assert (Hb := Hr "arm64" (or_intror (or_introl eq_refl))).
  assert (Hl := Hr "library" (or_intror (or_intror (or_introl eq_refl)))).
  unfold specialPrefixes in Hp. unfold specialPrefixes.
  destruct Hp as [<- | [<- | [<- | []]]]; cbn [fold_left].
  - rewrite (prettyPrefix_strips b d "amd64" r Hn). cbv zeta.
    rewrite (prettyPrefix_idle b _ r "arm64" (named _) Hb).
    now rewrite (prettyPrefix_idle b _ r "library" (named _) Hl).
  - rewrite (prettyPrefix_idle b d _ "amd64" Hn eq_refl).
    rewrite (prettyPrefix_strips b d "arm64" r Hn). cbv zeta.
    now rewrite (prettyPrefix_idle b _ r "library" (named _) Hl).
  - rewrite (prettyPrefix_idle b d _ "amd64" Hn eq_refl).
    rewrite (prettyPrefix_idle b d _ "arm64" Hn eq_refl).
    apply (prettyPrefix_strips b d "library" r Hn).
Qed.

(** [arm64/postgres] *)
Lemma special_prefix_stripped_witness :
  let d := prettyPrefixes true (setDepName (Some "arm64/postgres") emptyDep) in
  In "arm64" specialPrefixes
  /\ depName d = Some "postgres" /\ packageName d = Some "arm64/postgres"
  /\ autoReplaceStringTemplate d = Some packageNameTemplate.
Proof.
  cbv zeta. split; [right; now left |].
  rewrite (special_prefix_stripped true
             (setDepName (Some "arm64/postgres") emptyDep) "arm64" "postgres"
             (or_intror (or_introl eq_refl)) eq_refl).
  - repeat split.
  - intros q [<- | [<- | [<- | []]]]; reflexivity.
Defined.

(** ** The quotes of a declared value *)

(** X27. A declared value written between two double quotes loses that
    one pair and nothing more; a value that does not open with a double
    quote, or does not close with one, is kept as it is. *)
Theorem unquote_strips_one_pair (s : string) :
  unquote (String DQUOTE (s ++ String DQUOTE "")) = s
  /\ (forall v, (Js.firstChar v <> Some DQUOTE \/ Js.lastChar v <> Some DQUOTE) ->
        unquote v = v).
Proof.
  split.
  - unfold unquote. cbn [Js.firstChar].
    assert (L : Js.lastChar (String DQUOTE (s ++ String DQUOTE "")) = Some DQUOTE).
    { change (String DQUOTE (s ++ String DQUOTE ""))
        with (String DQUOTE s ++ String DQUOTE ""). apply lastChar_app. }
    rewrite L.
    replace (Ascii.eqb DQUOTE DQUOTE) with true by reflexivity. cbn [andb].
    unfold Js.slice1m1. cbn [String.length Js.drop].
    rewrite length_app. cbn [String.length].
    replace (S (String.length s + 1) - 2) with (String.length s) by lia.
    apply take_app.
  - intros v H. unfold unquote.
    destruct (Js.firstChar v) as [a|]; [| reflexivity].
    destruct (Js.lastChar v) as [z|]; [| reflexivity].
    destruct (Ascii.eqb_spec a DQUOTE) as [-> | _]; [| reflexivity].
    destruct (Ascii.eqb_spec z DQUOTE) as [-> | _]; [| reflexivity].
    destruct H as [H | H]; now elim H.
Qed.
